(** * The OneChat real-time hub (package [websocket]).

    A shallow embedding of [Hub], [Client] and the reader and writer pumps,
    followed by the properties of the hub that the specification states.

    Conventions of the embedding.
    - A [*Client] is an address [ptr] into a store of [Client] records, so
      that two handles with the same [ID] stay distinguishable and room sets
      can hold handles by reference, as the Go maps do.
    - Go's [uint] identifiers are only compared and used as map keys, never
      computed with, so they are numbers of type [N].
    - [map[uint]bool] and [map[*Client]bool] are only ever written with the
      value [true], ranged over, deleted from and measured with [len]: they
      are finite sets.
    - Every body that holds [h.mu] is one atomic transition of the world.
    - A [range] over a Go map visits the keys in an unspecified order; the
      loops are folds over a list of the keys, and are shown not to depend
      on its order.
    - Go run-time panics (closing a closed channel, sending on a closed
      channel, dereferencing nil) are the outcome [Panic]; an operation that
      has to wait for another goroutine is [Blocked]. *)

From stdpp Require Import gmap strings list fin_maps.
From Stdlib Require Import Strings.Byte.

Local Open Scope N_scope.

(** ** Outcomes of a transition *)

Inductive outcome (A : Type) : Type :=
  | Done (a : A)
  | Panic
  | Blocked.
Arguments Done {A} a.
Arguments Panic {A}.
Arguments Blocked {A}.

Definition obind {A B : Type} (o : outcome A) (k : A → outcome B) : outcome B :=
  match o with
  | Done a => k a
  | Panic => Panic
  | Blocked => Blocked
  end.

Notation "x ←' o ; k" := (obind o (λ x, k))
  (at level 20, o at level 100, k at level 200, right associativity,
   format "x  ←'  o ;  '/' k").

(** ** Channels *)

Module chan.

(** A buffered Go channel: the queued elements, oldest first, the capacity
    given to [make], and whether [close] has been called. *)
Record t (A : Type) : Type := Make { buf : list A; cap : nat; closed : bool }.
Arguments Make {A} buf cap closed.
Arguments buf {A} _.
Arguments cap {A} _.
Arguments closed {A} _.

(** [make(chan A, n)] *)
Definition make {A : Type} (n : nat) : t A := Make [] n false.

Definition full {A : Type} (c : t A) : bool := (cap c <=? length (buf c))%nat.

(** [close(c)]: panics on a channel that is already closed. *)
Definition close {A : Type} (c : t A) : outcome (t A) :=
  if closed c then Panic else Done (Make (buf c) (cap c) true).

(** [c <- x]: panics on a closed channel, waits while the buffer is full. *)
Definition send {A : Type} (x : A) (c : t A) : outcome (t A) :=
  if closed c then Panic
  else if full c then Blocked
  else Done (Make (buf c ++ [x]) (cap c) false).

(** [select { case c <- x: ... default: ... }]: [Some] is the channel
    after the send; [None] says that the send could not proceed and the
    [default] branch is taken.  A closed channel is always ready for a
    send, which then panics. *)
Definition try_send {A : Type} (x : A) (c : t A) : outcome (option (t A)) :=
  if closed c then Panic
  else if full c then Done None
  else Done (Some (Make (buf c ++ [x]) (cap c) false)).

(** [x, ok := <-c]: the oldest element if there is one (also after
    [close]); [None] is [ok = false], a closed and drained channel; an
    open empty channel makes the receiver wait. *)
Definition recv {A : Type} (c : t A) : outcome (option (A * t A)) :=
  match buf c with
  | x :: rest => Done (Some (x, Make rest (cap c) (closed c)))
  | [] => if closed c then Done None else Blocked
  end.

End chan.

(** ** Data model *)

(** [[]byte] *)
Abbreviation bytes := (list byte).

(** [*Client] *)
Abbreviation ptr := positive.

Record BroadcastMessage : Type := {
  ChatID : N;
  Message : bytes;
  Exclude : N  (* User ID to exclude from broadcast *)
}.

(** [WSMessage]; the field [Type] is spelled [MsgType] here. *)
Record WSMessage : Type := {
  MsgType : string;
  MsgChatID : N;
  MsgPayload : bytes
}.

(** [Client].  [Hub] is the one hub of the process.  [Conn] stands for the
    network connection as far as the writer is concerned: the payloads that
    were handed to [Conn.WriteMessage], oldest first. *)
Record Client : Type := {
  ID : N;
  Conn : list bytes;
  Send : chan.t bytes;
  ChatRooms : gset N
}.

(** [Hub].  [register] and [unregister] are unbuffered channels and carry no
    state of their own: a send on them is the receive in [Run].  [mu] is
    accounted for by atomicity and [chatService] is not used by the hub. *)
Record Hub : Type := {
  clients : gmap N ptr;
  chatRooms : gmap N (gset ptr);
  broadcast : chan.t BroadcastMessage
}.

(** The lines written with [log.Printf]. *)
Inductive LogLine : Type :=
  | LogConnected (id : N)            (* "Client %d connected" *)
  | LogDisconnected (id : N)         (* "Client %d disconnected" *)
  | LogJoined (id chat : N)          (* "Client %d joined chat room %d" *)
  | LogLeft (id chat : N)            (* "Client %d left chat room %d" *)
  | LogWebSocketError                (* "WebSocket error: %v" *)
  | LogUnmarshalError                (* "Error unmarshaling message: %v" *)
  | LogWriteError.                   (* "WebSocket write error: %v" *)

(** The hub, the store of client records, and the log written so far. *)
Record World : Type := {
  hub : Hub;
  heap : gmap ptr Client;
  Log : list LogLine
}.

Definition set_clients (f : gmap N ptr → gmap N ptr) (w : World) : World :=
  {| hub := {| clients := f (clients (hub w));
               chatRooms := chatRooms (hub w);
               broadcast := broadcast (hub w) |};
     heap := heap w; Log := Log w |}.

Definition set_chatRooms (f : gmap N (gset ptr) → gmap N (gset ptr)) (w : World) : World :=
  {| hub := {| clients := clients (hub w);
               chatRooms := f (chatRooms (hub w));
               broadcast := broadcast (hub w) |};
     heap := heap w; Log := Log w |}.

Definition set_broadcast (q : chan.t BroadcastMessage) (w : World) : World :=
  {| hub := {| clients := clients (hub w);
               chatRooms := chatRooms (hub w);
               broadcast := q |};
     heap := heap w; Log := Log w |}.

Definition store (c : ptr) (cl : Client) (w : World) : World :=
  {| hub := hub w; heap := <[c := cl]> (heap w); Log := Log w |}.

Definition log_Printf (l : LogLine) (w : World) : World :=
  {| hub := hub w; heap := heap w; Log := Log w ++ [l] |}.

Definition with_Send (q : chan.t bytes) (cl : Client) : Client :=
  {| ID := ID cl; Conn := Conn cl; Send := q; ChatRooms := ChatRooms cl |}.

Definition with_ChatRooms (s : gset N) (cl : Client) : Client :=
  {| ID := ID cl; Conn := Conn cl; Send := Send cl; ChatRooms := s |}.

(** Dereferencing a [*Client]; an address that holds no client behaves as
    the nil pointer. *)
Definition deref (c : ptr) (w : World) : outcome Client :=
  match heap w !! c with
  | Some cl => Done cl
  | None => Panic
  end.

(** ** The hub *)

(** [NewHub] *)
Definition NewHub : Hub :=
  {| clients := ∅; chatRooms := ∅; broadcast := chan.make 256 |}.

Definition NewWorld : World := {| hub := NewHub; heap := ∅; Log := [] |}.

(** [Hub.Run], [case client := <-h.register] *)
Definition Run_register (client : ptr) (w : World) : outcome World :=
  cl ←' deref client w;
  Done (log_Printf (LogConnected (ID cl))
          (set_clients <[ID cl := client]> w)).

(** The four lines shared by [Run]'s unregister case and [LeaveChatRoom]:
    [if room, exists := h.chatRooms[chatID]; exists { delete(room, client);
    if len(room) == 0 { delete(h.chatRooms, chatID) } }]. *)
Definition leave_room (client : ptr) (chatID : N)
    (rooms : gmap N (gset ptr)) : gmap N (gset ptr) :=
  match rooms !! chatID with
  | Some room =>
      let room' := room ∖ {[client]} in
      if decide (size room' = 0%nat) then delete chatID rooms
      else <[chatID := room']> rooms
  | None => rooms
  end.

(** [for chatID := range client.ChatRooms { ... }] over the keys in the
    order [ids]. *)
Definition leave_rooms (client : ptr) (ids : list N)
    (rooms : gmap N (gset ptr)) : gmap N (gset ptr) :=
  foldl (λ rs chatID, leave_room client chatID rs) rooms ids.

(** [Hub.Run], [case client := <-h.unregister] *)
Definition Run_unregister (client : ptr) (w : World) : outcome World :=
  cl ←' deref client w;
  match clients (hub w) !! ID cl with
  | Some _ =>
      q ←' chan.close (Send cl);
      Done (log_Printf (LogDisconnected (ID cl))
              (set_chatRooms (leave_rooms client (elements (ChatRooms cl)))
                 (store client (with_Send q cl)
                    (set_clients (delete (ID cl)) w))))
  | None => Done (log_Printf (LogDisconnected (ID cl)) w)
  end.

(** The body of [for client := range room] in [Run]'s broadcast case. *)
Definition offer (message : BroadcastMessage) (client : ptr) (w : World)
    : outcome World :=
  cl ←' deref client w;
  if decide (ID cl ≠ Exclude message) then
    r ←' chan.try_send (Message message) (Send cl);
    match r with
    | Some q => Done (store client (with_Send q cl) w)
    | None =>
        q ←' chan.close (Send cl);
        Done (set_clients (delete (ID cl)) (store client (with_Send q cl) w))
    end
  else Done w.

(** [for client := range room { ... }] visiting the members in the order
    [members]. *)
Fixpoint range_room (message : BroadcastMessage) (members : list ptr)
    (w : World) : outcome World :=
  match members with
  | [] => Done w
  | client :: rest => w' ←' offer message client w; range_room message rest w'
  end.

(** [Hub.Run], [case message := <-h.broadcast], once [message] is received *)
Definition Run_broadcast (message : BroadcastMessage) (w : World) : outcome World :=
  match chatRooms (hub w) !! ChatID message with
  | Some room => range_room message (elements room) w
  | None => Done w
  end.

(** [Hub.JoinChatRoom] *)
Definition JoinChatRoom (client : ptr) (chatID : N) (w : World) : outcome World :=
  cl ←' deref client w;
  let room := default ∅ (chatRooms (hub w) !! chatID) in
  Done (log_Printf (LogJoined (ID cl) chatID)
          (store client (with_ChatRooms ({[chatID]} ∪ ChatRooms cl) cl)
             (set_chatRooms <[chatID := {[client]} ∪ room]> w))).

(** [Hub.LeaveChatRoom] *)
Definition LeaveChatRoom (client : ptr) (chatID : N) (w : World) : outcome World :=
  cl ←' deref client w;
  Done (log_Printf (LogLeft (ID cl) chatID)
          (store client (with_ChatRooms (ChatRooms cl ∖ {[chatID]}) cl)
             (set_chatRooms (leave_room client chatID) w))).

(** [Hub.BroadcastToChat] *)
Definition BroadcastToChat (chatID : N) (message : bytes) (excludeUserID : N)
    (w : World) : outcome World :=
  q ←' chan.send {| ChatID := chatID; Message := message; Exclude := excludeUserID |}
         (broadcast (hub w));
  Done (set_broadcast q w).

(** [Hub.Run], [case message := <-h.broadcast]: receive the oldest envelope
    of the mailbox and fan it out.  A receive from a closed, drained channel
    yields the nil envelope, whose field access panics. *)
Definition Run_select_broadcast (w : World) : outcome World :=
  r ←' chan.recv (broadcast (hub w));
  match r with
  | Some (message, q) => Run_broadcast message (set_broadcast q w)
  | None => Panic
  end.

(** What the [select] of [Hub.Run] receives in one turn of its loop. *)
Inductive selected : Type :=
  | from_register (client : ptr)
  | from_unregister (client : ptr)
  | from_broadcast.

(** One turn of the loop of [Hub.Run]. *)
Definition Run_turn (s : selected) (w : World) : outcome World :=
  match s with
  | from_register client => Run_register client w
  | from_unregister client => Run_unregister client w
  | from_broadcast => Run_select_broadcast w
  end.

(** [Hub.Run] for the turns [turns]; the loop itself never ends. *)
Fixpoint Run (turns : list selected) (w : World) : outcome World :=
  match turns with
  | [] => Done w
  | s :: rest => w' ←' Run_turn s w; Run rest w'
  end.

(** ** The REST handlers

    Of the handlers only their call of the hub matters here.
    [ChatHandler.UpdateMessageStatus], [ChatHandler.DeleteMessage] and
    [GroupHandler.UpdateGroup] (as [AddMember], [RemoveMember] and
    [UpdateMemberRole]) pass the literal [0] as the identity to exclude. *)




(** ** Connections *)

(** The [Client] literal built by [WebSocketHandler.HandleWebSocket]. *)
Definition NewClient (userID : N) : Client :=
  {| ID := userID; Conn := []; Send := chan.make 256; ChatRooms := ∅ |}.

(** [WebSocketHandler.HandleWebSocket] after a successful upgrade: allocate
    the client at the address [client] and send it on [h.register], which
    is the turn of [Run] that receives it; the pumps start afterwards.  The
    allocator never returns an address that is in use: for such an address
    the event does not take place. *)
Definition HandleWebSocket (client : ptr) (userID : N) (w : World) : outcome World :=
  match heap w !! client with
  | Some _ => Blocked
  | None => Run_turn (from_register client) (store client (NewClient userID) w)
  end.

(** One turn of [for message := range c.Send] in [Client.WritePump]; [ok]
    says whether [Conn.WriteMessage] succeeded.  The payload is handed to
    the connection either way; a failed write is logged and ends the
    writer.  On a closed and drained channel the loop ends. *)
Definition WritePump_turn (client : ptr) (ok : bool) (w : World) : outcome World :=
  cl ←' deref client w;
  r ←' chan.recv (Send cl);
  match r with
  | Some (message, q) =>
      let w' :=
        store client
          {| ID := ID cl; Conn := Conn cl ++ [message]; Send := q;
             ChatRooms := ChatRooms cl |} w in
      Done (if ok then w' else log_Printf LogWriteError w')
  | None => Done w
  end.

(** What [c.Conn.ReadMessage] returns: a frame, or an error that
    [websocket.IsUnexpectedCloseError] does or does not report. *)
Inductive ReadResult : Type :=
  | ReadFrame (message : bytes)
  | ReadError (unexpected : bool).

Section ReadPump.

(** [json.Unmarshal(message, &wsMsg)] into a fresh [WSMessage]: [None] is
    a non-nil error. *)
Variable Unmarshal : bytes → option WSMessage.

(** The body of the loop of [Client.ReadPump] for a frame that was read
    without error.  The [switch] has no [default]. *)
Definition ReadPump_frame (c : ptr) (message : bytes) (w : World) : outcome World :=
  match Unmarshal message with
  | None => Done (log_Printf LogUnmarshalError w)
  | Some wsMsg =>
      if decide (MsgType wsMsg = "join_chat"%string) then
        JoinChatRoom c (MsgChatID wsMsg) w
      else if decide (MsgType wsMsg = "leave_chat"%string) then
        LeaveChatRoom c (MsgChatID wsMsg) w
      else if decide (MsgType wsMsg = "typing"%string) then
        cl ←' deref c w; BroadcastToChat (MsgChatID wsMsg) message (ID cl) w
      else if decide (MsgType wsMsg = "message_delivered"%string) then
        cl ←' deref c w; BroadcastToChat (MsgChatID wsMsg) message (ID cl) w
      else if decide (MsgType wsMsg = "message_read"%string) then
        cl ←' deref c w; BroadcastToChat (MsgChatID wsMsg) message (ID cl) w
      else Done w
  end.

(** [Client.ReadPump] run on the results of its successive calls of
    [ReadMessage].  A read error leaves the loop, and the deferred
    function sends the client on [h.unregister], which is the turn of [Run]
    that receives it (it also closes the connection, which has no state
    here).  When [input] is used up the reader waits in [ReadMessage]; the
    world reached so far is the result. *)
Fixpoint ReadPump (c : ptr) (input : list ReadResult) (w : World) : outcome World :=
  match input with
  | [] => Done w
  | ReadFrame message :: rest =>
      w' ←' ReadPump_frame c message w; ReadPump c rest w'
  | ReadError unexpected :: _ =>
      Run_turn (from_unregister c)
        (if unexpected then log_Printf LogWebSocketError w else w)
  end.

End ReadPump.

(** ** Executions *)

(** The atomic transitions of the world.  [Run] takes [h.mu] for each of
    its cases, and [JoinChatRoom] and [LeaveChatRoom], which the readers
    call directly, take it too, so the bodies exclude one another.  A send
    on the mailbox and one turn of a writer are not under the lock, but
    each is a single operation on one channel; where it falls inside the
    broadcast loop it has the effect it would have just before or just
    after the loop.  The events may follow one another in any order: this
    covers every schedule of the goroutines, and some that the server never
    shows (a handle is unregistered at most once by its reader, and is not
    used after that). *)
Inductive event : Type :=
  | Connect (client : ptr) (userID : N)     (* HandleWebSocket; Run: <-h.register *)
  | Unregister (client : ptr)               (* Run: <-h.unregister *)
  | Join (client : ptr) (chatID : N)        (* JoinChatRoom *)
  | Leave (client : ptr) (chatID : N)       (* LeaveChatRoom *)
  | Submit (message : BroadcastMessage)     (* BroadcastToChat *)
  | Dispatch                                (* Run: <-h.broadcast *)
  | Write (client : ptr) (ok : bool).       (* WritePump, one payload *)

Definition step (e : event) (w : World) : outcome World :=
  match e with
  | Connect client userID => HandleWebSocket client userID w
  | Unregister client => Run_turn (from_unregister client) w
  | Join client chatID => JoinChatRoom client chatID w
  | Leave client chatID => LeaveChatRoom client chatID w
  | Submit m => BroadcastToChat (ChatID m) (Message m) (Exclude m) w
  | Dispatch => Run_turn from_broadcast w
  | Write client ok => WritePump_turn client ok w
  end.

Fixpoint run (es : list event) (w : World) : outcome World :=
  match es with
  | [] => Done w
  | e :: rest => w' ←' step e w; run rest w'
  end.

(** The worlds that the server can be in. *)
Inductive reachable : World → Prop :=
  | reachable_init : reachable NewWorld
  | reachable_step e w w' : reachable w → step e w = Done w' → reachable w'.

(** ** Observations *)

(** [Room(C)]: the member set of conversation [C], empty when the registry
    has no entry. *)
Definition Room (chatID : N) (w : World) : gset ptr :=
  default ∅ (chatRooms (hub w) !! chatID).

(** The handle [c] has [chatID] in its joined-set. *)
Definition joined (c : ptr) (chatID : N) (w : World) : Prop :=
  ∃ cl, heap w !! c = Some cl ∧ chatID ∈ ChatRooms cl.

(** The handle [c] is in the live table. *)
Definition live (c : ptr) (w : World) : Prop :=
  ∃ id, clients (hub w) !! id = Some c.

(** The outbound queue of [c] as it stands. *)
Definition queue (c : ptr) (w : World) : list bytes :=
  match heap w !! c with
  | Some cl => chan.buf (Send cl)
  | None => []
  end.

(** [close] has been called on the outbound queue of [c]. *)
Definition queue_closed (c : ptr) (w : World) : Prop :=
  ∃ cl, heap w !! c = Some cl ∧ chan.closed (Send cl) = true.

(** Everything that was ever put on the outbound queue of [c], oldest
    first: what the writer has taken from it, then what is still queued. *)
Definition outbound (c : ptr) (w : World) : list bytes :=
  match heap w !! c with
  | Some cl => Conn cl ++ chan.buf (Send cl)
  | None => []
  end.

(** ** Definitions used to state and prove the properties *)

(** *** The loops, entry by entry *)

(** What [leave_room] does to one entry of the registry. *)
Definition without (client : ptr) (o : option (gset ptr)) : option (gset ptr) :=
  match o with
  | Some room =>
      if decide (size (room ∖ {[client]}) = 0%nat) then None
      else Some (room ∖ {[client]})
  | None => None
  end.

(** [offer] goes through for a client that is excluded or whose queue has
    not been closed. *)
Definition accepts (message : BroadcastMessage) (cl : Client) : Prop :=
  ID cl = Exclude message ∨ chan.closed (Send cl) = false.

(** The record of such a client after [offer]. *)
Definition offered (message : BroadcastMessage) (cl : Client) : Client :=
  if decide (ID cl ≠ Exclude message) then
    if chan.full (Send cl)
    then with_Send (chan.Make (chan.buf (Send cl)) (chan.cap (Send cl)) true) cl
    else with_Send (chan.Make (chan.buf (Send cl) ++ [Message message])
                      (chan.cap (Send cl)) false) cl
  else cl.

(** The [default] branch is taken for this client. *)
Definition overflows (message : BroadcastMessage) (cl : Client) : Prop :=
  ID cl ≠ Exclude message ∧ chan.full (Send cl) = true.

(** *** Invariants *)

(** What holds in every reachable world. *)
Record hub_inv (w : World) : Prop := HubInv {
  (** a member of a room has the room in its joined-set *)
  inv_member_joined : ∀ chatID c, c ∈ Room chatID w → joined c chatID w;
  (** a handle whose queue is open is a member of every room in its
      joined-set *)
  inv_joined_member : ∀ chatID c cl,
    heap w !! c = Some cl → chatID ∈ ChatRooms cl →
    chan.closed (Send cl) = false → c ∈ Room chatID w;
  (** the live table maps an identity to a handle of that identity whose
      queue is open *)
  inv_table : ∀ id c,
    clients (hub w) !! id = Some c →
    ∃ cl, heap w !! c = Some cl ∧ ID cl = id ∧ chan.closed (Send cl) = false;
  (** the registry holds no empty room *)
  inv_rooms_nonempty : ∀ chatID room,
    chatRooms (hub w) !! chatID = Some room → room ≠ ∅
}.





(** *** Order of delivery *)

(** The envelopes that a run submits, in order. *)
Definition submitted (es : list event) : list BroadcastMessage :=
  omap (λ e, match e with Submit m => Some m | _ => None end) es.

(** The number of envelopes that a run takes from the mailbox. *)
Fixpoint dispatches (es : list event) : nat :=
  match es with
  | [] => 0%nat
  | Dispatch :: rest => S (dispatches rest)
  | _ :: rest => dispatches rest
  end.

(** [cl'] is a later record of the client [cl]: same identity, the
    payloads put on its queue so far extended at the end, and a closed
    queue still closed. *)
Definition extends (cl cl' : Client) : Prop :=
  ID cl' = ID cl ∧
  (∃ l, Conn cl' ++ chan.buf (Send cl') = (Conn cl ++ chan.buf (Send cl)) ++ l) ∧
  (chan.closed (Send cl) = true → chan.closed (Send cl') = true).

(** *** Frames *)

(** The values of [wsMsg.Type] for which the [switch] has a case. *)
Definition known_type (t : string) : Prop :=
  t = "join_chat"%string ∨ t = "leave_chat"%string ∨ t = "typing"%string ∨
  t = "message_delivered"%string ∨ t = "message_read"%string.

(** A frame that does not decode, or that decodes to a type without a
    case. *)
Definition malformed (Unmarshal : bytes → option WSMessage) (message : bytes) : Prop :=
  Unmarshal message = None ∨
  ∃ wsMsg, Unmarshal message = Some wsMsg ∧ ¬ known_type (MsgType wsMsg).

(** The specification's handling of malformed frames: each one leaves a
    line in the log, changes neither hub nor clients, and the reader goes
    on. *)
Definition malformed_frames_are_logged : Prop :=
  ∀ Unmarshal c message rest w,
    malformed Unmarshal message →
    ∃ w', ReadPump_frame Unmarshal c message w = Done w' ∧
          (∃ line, Log w' = Log w ++ [line]) ∧
          hub w' = hub w ∧ heap w' = heap w ∧
          ReadPump Unmarshal c (ReadFrame message :: rest) w =
            ReadPump Unmarshal c rest w'.

(** *** Sample data *)

Definition hello : bytes := String.list_byte_of_string "hello".

Definition world : bytes := String.list_byte_of_string "world".

(** The frame [{"type":"ping"}], byte by byte. *)
Definition ping_frame : bytes :=
  [x7b; x22; x74; x79; x70; x65; x22; x3a; x22; x70; x69; x6e; x67; x22; x7d].

(** What [json.Unmarshal] makes of [ping_frame]: the type is set, the other
    fields keep their zero values. *)
Definition ping : WSMessage :=
  {| MsgType := "ping"; MsgChatID := 0; MsgPayload := [] |}.

Fixpoint bytes_eqb (a b : bytes) : bool :=
  match a, b with
  | [], [] => true
  | x :: a', y :: b' => Byte.eqb x y && bytes_eqb a' b'
  | _, _ => false
  end.

(** A decoder for the examples.  It agrees with [json.Unmarshal] on the two
    frames that the examples use: [ping_frame] decodes to [ping], and the
    empty frame is not JSON.  It rejects every other frame. *)
Definition sample_Unmarshal (message : bytes) : option WSMessage :=
  if bytes_eqb message ping_frame then Some ping else None.

(** Handles 1 and 2 in room 5, then 256 broadcasts from identity 20 that
    nobody writes out: the queue of handle 1 is full. *)
Definition saturate : list event :=
  [Connect 1 10; Join 1 5; Connect 2 20; Join 2 5] ++
  concat (replicate 256
            [Submit {| ChatID := 5; Message := hello; Exclude := 20 |}; Dispatch]).

(** ** Definitions for further properties of the hub *)

(** The channels keep the capacities that [NewHub] and [HandleWebSocket]
    give them, no buffer holds more than its capacity, and the mailbox is
    never closed. *)
Record bounded (w : World) : Prop := Bounded {
  mailbox_cap : chan.cap (broadcast (hub w)) = 256%nat;
  mailbox_open : chan.closed (broadcast (hub w)) = false;
  mailbox_len : (length (chan.buf (broadcast (hub w))) ≤ 256)%nat;
  queue_cap : ∀ c cl, heap w !! c = Some cl → chan.cap (Send cl) = 256%nat;
  queue_len : ∀ c cl,
    heap w !! c = Some cl → (length (chan.buf (Send cl)) ≤ 256)%nat
}.

(** [cl'] is a later record of a client [cl] whose queue was closed: the
    queue is still closed, and what the writer has taken from it together
    with what it still holds is what it was. *)
Definition drained (cl cl' : Client) : Prop :=
  ID cl' = ID cl ∧
  chan.closed (Send cl') = true ∧
  Conn cl' ++ chan.buf (Send cl') = Conn cl ++ chan.buf (Send cl).




(** * The services (package [services])

    The services work on the database through [gorm].  A query whose result
    the code only passes on is a parameter of the embedding; the statements
    of the group service are modelled on tables further down. *)

(** An [error] value: one made by [errors.New], [gorm.ErrRecordNotFound],
    or any other error that the database reports. *)
Inductive error : Type :=
  | errors_New (text : string)
  | ErrRecordNotFound
  | database_error.

(** ** [ChatService.GetMessages] *)

Section GetMessages.
Context {Message : Type}.

(** [messages[i]]: an index out of range is a run-time panic. *)
Definition index (messages : list Message) (i : Z) : outcome Message :=
  if decide (0 ≤ i)%Z then
    match messages !! Z.to_nat i with
    | Some m => Done m
    | None => Panic
    end
  else Panic.

(** [messages[i], messages[j] = messages[j], messages[i]]: both operands
    are read, then [messages[i]] and [messages[j]] are written, in that
    order. *)
Definition swap (i j : Z) (messages : list Message) : outcome (list Message) :=
  mj ←' index messages j;
  mi ←' index messages i;
  Done (<[Z.to_nat j := mi]> (<[Z.to_nat i := mj]> messages)).

(** [for ...; i < j; i, j = i+1, j-1 { swap }], for at most [turns] turns of
    the loop; a loop that is not over by then has the outcome [Blocked]. *)
Fixpoint reverse_turns (turns : nat) (i j : Z) (messages : list Message)
    : outcome (list Message) :=
  if decide (i < j)%Z then
    match turns with
    | O => Blocked
    | S turns =>
        messages' ←' swap i j messages;
        reverse_turns turns (i + 1) (j - 1) messages'
    end
  else Done messages.

(** The loop from [i] and [j]: the distance [j - i] shrinks by two in every
    turn, so [j - i] turns are more than the loop can take. *)
Definition reverse_loop (i j : Z) (messages : list Message)
    : outcome (list Message) :=
  reverse_turns (Z.to_nat (j - i)) i j messages.

(** [ChatService.GetMessages]: [Find] is the query, newest message first,
    with the rows and the error that it leaves; the loop then reverses the
    slice in place and both are returned. *)
Definition GetMessages (Find : N → Z → Z → list Message * option error)
    (chatID : N) (limit offset : Z) : outcome (list Message * option error) :=
  let (messages, err) := Find chatID limit offset in
  messages ←' reverse_loop 0 (Z.of_nat (length messages) - 1) messages;
  Done (messages, err).

End GetMessages.

(** ** The database of the group service

    [GroupService] reaches the tables [groups], [group_members] and [chats]
    through [gorm].  Every model has a [DeletedAt] column, so [gorm] deletes
    by marking a row and leaves marked rows out of every query, count,
    update and delete: a table is the list of its unmarked rows, in the
    order of their primary keys, which is the order of insertion.  Of a row
    the columns are kept that the service reads or writes; the time stamps
    and the preloaded associations are left out, and of [group_members] the
    primary key, which the service never looks at. *)

(** [models.GroupMember] *)
Record GroupMember : Type := {
  GroupID : N;
  UserID : N;
  Role : string
}.

(** [models.Group]; [Group_ID] is the field [ID]. *)
Record Group : Type := {
  Group_ID : N;
  Name : string;
  Icon : string;
  Description : string;
  CreatedByID : N
}.

(** [models.Chat]; [Chat_Type] and [Chat_GroupID] are the fields [Type] and
    [GroupID]. *)
Record Chat : Type := {
  Chat_Type : string;
  User1ID : option N;
  User2ID : option N;
  Chat_GroupID : option N;
  LastMessageID : option N
}.

Record Tables : Type := {
  groups : list Group;
  group_members : list GroupMember;
  chats : list Chat
}.

(** What [s.db] stands for: the tables, the last primary key that the
    sequence of [groups] has handed out, and how the server will treat the
    statements to come.  A statement either is executed, or it fails with an
    error of the server (a lost connection, a violated constraint) and has
    no effect; [failing] says for the next statements, in the order in which
    they will be issued, which ones fail, and past its end every statement
    is executed. *)
Record DB : Type := {
  tables : Tables;
  groups_id_seq : N;
  failing : list bool
}.

Definition set_tables (t : Tables) (db : DB) : DB :=
  {| tables := t; groups_id_seq := groups_id_seq db; failing := failing db |}.

Definition set_failing (f : list bool) (db : DB) : DB :=
  {| tables := tables db; groups_id_seq := groups_id_seq db; failing := f |}.

Definition set_groups (gs : list Group) (db : DB) : DB :=
  set_tables {| groups := gs;
                group_members := group_members (tables db);
                chats := chats (tables db) |} db.

Definition set_group_members (ms : list GroupMember) (db : DB) : DB :=
  set_tables {| groups := groups (tables db);
                group_members := ms;
                chats := chats (tables db) |} db.

Definition set_chats (cs : list Chat) (db : DB) : DB :=
  set_tables {| groups := groups (tables db);
                group_members := group_members (tables db);
                chats := cs |} db.

(** The empty database of a server that will treat its statements as
    [failing] says. *)
Definition NewDB (failing : list bool) : DB :=
  {| tables := {| groups := []; group_members := []; chats := [] |};
     groups_id_seq := 0;
     failing := failing |}.

(** A computation on the database. *)
Definition query (A : Type) : Type := DB → A * DB.

Definition qret {A : Type} (a : A) : query A := λ db, (a, db).

Definition qbind {A B : Type} (q : query A) (k : A → query B) : query B :=
  λ db, let (a, db') := q db in k a db'.

Notation "x ←$ q ; k" := (qbind q (λ x, k))
  (at level 20, q at level 100, k at level 200, right associativity,
   format "x  ←$  q ;  '/' k").

Notation "' p ←$ q ; k" := (qbind q (λ x, let 'p := x in k))
  (at level 20, p pattern, q at level 100, k at level 200,
   right associativity, format "' p  ←$  q ;  '/' k").

(** One statement: [failed] is what the caller finds if the server fails
    it, [exec] is what the statement does if the server executes it. *)
Definition statement {A : Type} (failed : A) (exec : DB → A * DB) : query A :=
  λ db,
    match failing db with
    | true :: rest => (failed, set_failing rest db)
    | false :: rest => exec (set_failing rest db)
    | [] => exec db
    end.

(** [db.Model(&models.GroupMember{}).Where(cond).Count(&count)]: [count]
    keeps its zero value if the statement fails.  The callers do not look
    at the error. *)
Definition Count_members (cond : GroupMember → Prop)
    `{!∀ m, Decision (cond m)} : query Z :=
  statement 0%Z
    (λ db, (Z.of_nat (length (filter cond (group_members (tables db)))), db)).

(** [db.Where(cond).First(&member).Error]: [gorm.ErrRecordNotFound] if no
    row matches.  The callers only look at the error. *)
Definition First_member (cond : GroupMember → Prop)
    `{!∀ m, Decision (cond m)} : query (option error) :=
  statement (Some database_error)
    (λ db, (match filter cond (group_members (tables db)) with
            | [] => Some ErrRecordNotFound
            | _ :: _ => None
            end, db)).

(** [db.Create(member).Error] *)
Definition Create_member (member : GroupMember) : query (option error) :=
  statement (Some database_error)
    (λ db, (None,
            set_group_members (group_members (tables db) ++ [member]) db)).

(** [db.Where(cond).Delete(&models.GroupMember{}).Error] *)
Definition Delete_members (cond : GroupMember → Prop)
    `{!∀ m, Decision (cond m)} : query (option error) :=
  statement (Some database_error)
    (λ db, (None,
            set_group_members
              (filter (λ m, ¬ cond m) (group_members (tables db))) db)).

(** [db.Model(&models.GroupMember{}).Where(cond).Update("role", newRole).Error] *)
Definition Update_role (cond : GroupMember → Prop)
    `{!∀ m, Decision (cond m)} (newRole : string) : query (option error) :=
  statement (Some database_error)
    (λ db, (None,
            set_group_members
              ((λ m, if decide (cond m)
                     then {| GroupID := GroupID m; UserID := UserID m;
                             Role := newRole |}
                     else m) <$> group_members (tables db)) db)).

(** [tx.Create(group).Error]: the row gets the next primary key of the
    sequence, and [group.ID] is set to it. *)
Definition Create_group (group : Group) : query (Group * option error) :=
  statement (group, Some database_error)
    (λ db,
       let id := groups_id_seq db + 1 in
       let group := {| Group_ID := id; Name := Name group; Icon := Icon group;
                       Description := Description group;
                       CreatedByID := CreatedByID group |} in
       ((group, None),
        {| tables := {| groups := groups (tables db) ++ [group];
                        group_members := group_members (tables db);
                        chats := chats (tables db) |};
           groups_id_seq := id;
           failing := failing db |})).

(** [tx.Create(chat).Error] *)
Definition Create_chat (chat : Chat) : query (option error) :=
  statement (Some database_error)
    (λ db, (None, set_chats (chats (tables db) ++ [chat]) db)).

(** [tx.Where("group_id = ?", groupID).Delete(&models.Chat{}).Error] *)
Definition Delete_chats (groupID : N) : query (option error) :=
  statement (Some database_error)
    (λ db, (None,
            set_chats
              (filter (λ c, Chat_GroupID c ≠ Some groupID) (chats (tables db)))
              db)).

(** [tx.Delete(&models.Group{}, groupID).Error] *)
Definition Delete_group (groupID : N) : query (option error) :=
  statement (Some database_error)
    (λ db, (None,
            set_groups
              (filter (λ g, Group_ID g ≠ groupID) (groups (tables db))) db)).

(** [s.db.Preload(...).First(group, group.ID)]: reads the row that has just
    been written; the error is not looked at. *)
Definition Reload_group : query unit :=
  statement tt (λ db, (tt, db)).

(** [tx := s.db.Begin()]: [tx] remembers the tables as they are.  A [Begin]
    that fails makes the first statement of the transaction fail, which is
    a failure of that statement here. *)
Definition Begin : query Tables := λ db, (tables db, db).

(** [tx.Rollback()]: the tables are again what they were at [Begin]; the
    sequence is not set back. *)
Definition Rollback (tx : Tables) : query unit :=
  λ db, (tt, set_tables tx db).

(** [tx.Commit().Error]: a commit that fails leaves the tables as they were
    at [Begin]. *)
Definition Commit (tx : Tables) : query (option error) :=
  λ db,
    match failing db with
    | true :: rest => (Some database_error, set_failing rest (set_tables tx db))
    | false :: rest => (None, set_failing rest db)
    | [] => (None, db)
    end.

(** ** [GroupService] *)

(** The loop of [CreateGroup] over [memberIDs]; it answers the error with
    which [CreateGroup] returns from inside the loop, after the rollback. *)
Fixpoint CreateGroup_members (tx : Tables) (groupID createdByID : N)
    (memberIDs : list N) : query (option error) :=
  match memberIDs with
  | [] => qret None
  | memberID :: rest =>
      if decide (memberID ≠ createdByID) then
        err ←$ Create_member {| GroupID := groupID; UserID := memberID;
                                Role := "member" |};
        match err with
        | Some e => _ ←$ Rollback tx; qret (Some e)
        | None => CreateGroup_members tx groupID createdByID rest
        end
      else CreateGroup_members tx groupID createdByID rest
  end.

(** [GroupService.CreateGroup] *)
Definition CreateGroup (name description icon : string) (createdByID : N)
    (memberIDs : list N) : query (option Group * option error) :=
  if decide (256 < length memberIDs)%nat then
    qret (None, Some (errors_New "maximum 256 members allowed"))
  else
    tx ←$ Begin;
    '(group, err) ←$ Create_group {| Group_ID := 0; Name := name; Icon := icon;
                                     Description := description;
                                     CreatedByID := createdByID |};
    match err with
    | Some e => _ ←$ Rollback tx; qret (None, Some e)
    | None =>
        err ←$ Create_member {| GroupID := Group_ID group;
                                UserID := createdByID; Role := "admin" |};
        match err with
        | Some e => _ ←$ Rollback tx; qret (None, Some e)
        | None =>
            err ←$ CreateGroup_members tx (Group_ID group) createdByID memberIDs;
            match err with
            | Some e => qret (None, Some e)
            | None =>
                err ←$ Create_chat {| Chat_Type := "group"; User1ID := None;
                                      User2ID := None;
                                      Chat_GroupID := Some (Group_ID group);
                                      LastMessageID := None |};
                match err with
                | Some e => _ ←$ Rollback tx; qret (None, Some e)
                | None =>
                    err ←$ Commit tx;
                    match err with
                    | Some e => qret (None, Some e)
                    | None => _ ←$ Reload_group; qret (Some group, None)
                    end
                end
            end
        end
    end.

(** [GroupService.DeleteGroup] *)
Definition DeleteGroup (groupID userID : N) : query (option error) :=
  err ←$ First_member (λ m, GroupID m = groupID ∧ UserID m = userID ∧
                            Role m = "admin");
  match err with
  | Some _ => qret (Some (errors_New "only admins can delete group"))
  | None =>
      tx ←$ Begin;
      err ←$ Delete_members (λ m, GroupID m = groupID);
      match err with
      | Some e => _ ←$ Rollback tx; qret (Some e)
      | None =>
          err ←$ Delete_chats groupID;
          match err with
          | Some e => _ ←$ Rollback tx; qret (Some e)
          | None =>
              err ←$ Delete_group groupID;
              match err with
              | Some e => _ ←$ Rollback tx; qret (Some e)
              | None => Commit tx
              end
          end
      end
  end.

(** [GroupService.AddMember] *)
Definition AddMember (groupID userID newMemberID : N) : query (option error) :=
  count ←$ Count_members (λ m, GroupID m = groupID);
  if decide (256 ≤ count)%Z then
    qret (Some (errors_New "group has reached maximum capacity"))
  else
    err ←$ First_member (λ m, GroupID m = groupID ∧ UserID m = userID ∧
                              Role m = "admin");
    match err with
    | Some _ => qret (Some (errors_New "only admins can add members"))
    | None =>
        err ←$ First_member (λ m, GroupID m = groupID ∧ UserID m = newMemberID);
        match err with
        | None => qret (Some (errors_New "user is already a member"))
        | Some _ =>
            Create_member {| GroupID := groupID; UserID := newMemberID;
                             Role := "member" |}
        end
    end.

(** [GroupService.RemoveMember] *)
Definition RemoveMember (groupID userID memberToRemoveID : N)
    : query (option error) :=
  err ←$ First_member (λ m, GroupID m = groupID ∧ UserID m = userID ∧
                            Role m = "admin");
  match err with
  | Some _ => qret (Some (errors_New "only admins can remove members"))
  | None =>
      only_admin ←$
        (if decide (userID = memberToRemoveID) then
           adminCount ←$ Count_members (λ m, GroupID m = groupID ∧
                                             Role m = "admin");
           qret (bool_decide (adminCount ≤ 1)%Z)
         else qret false);
      if only_admin : bool then
        qret (Some (errors_New "cannot remove the only admin"))
      else
        Delete_members (λ m, GroupID m = groupID ∧ UserID m = memberToRemoveID)
  end.

(** [GroupService.UpdateMemberRole] *)
Definition UpdateMemberRole (groupID userID memberID : N) (newRole : string)
    : query (option error) :=
  if decide (newRole ≠ "admin" ∧ newRole ≠ "member") then
    qret (Some (errors_New "invalid role"))
  else
    err ←$ First_member (λ m, GroupID m = groupID ∧ UserID m = userID ∧
                              Role m = "admin");
    match err with
    | Some _ => qret (Some (errors_New "only admins can change roles"))
    | None =>
        Update_role (λ m, GroupID m = groupID ∧ UserID m = memberID) newRole
    end.

(** A call of the group service, and the databases that calls of the
    service lead to from the empty one, whatever the server fails. *)
Inductive call : Type :=
  | CallCreateGroup (name description icon : string) (createdByID : N)
                    (memberIDs : list N)
  | CallDeleteGroup (groupID userID : N)
  | CallAddMember (groupID userID newMemberID : N)
  | CallRemoveMember (groupID userID memberToRemoveID : N)
  | CallUpdateMemberRole (groupID userID memberID : N) (newRole : string).

Definition serve (c : call) (db : DB) : DB :=
  match c with
  | CallCreateGroup name description icon createdByID memberIDs =>
      (CreateGroup name description icon createdByID memberIDs db).2
  | CallDeleteGroup groupID userID => (DeleteGroup groupID userID db).2
  | CallAddMember groupID userID newMemberID =>
      (AddMember groupID userID newMemberID db).2
  | CallRemoveMember groupID userID memberToRemoveID =>
      (RemoveMember groupID userID memberToRemoveID db).2
  | CallUpdateMemberRole groupID userID memberID newRole =>
      (UpdateMemberRole groupID userID memberID newRole db).2
  end.

Inductive served : DB → Prop :=
  | served_init failing : served (NewDB failing)
  | served_call c db : served db → served (serve c db).

(** [userID] has a row with the role admin in the group. *)
Definition is_admin (groupID userID : N) (db : DB) : Prop :=
  {| GroupID := groupID; UserID := userID; Role := "admin" |}
    ∈ group_members (tables db).

(** [userID] has a row in the group. *)
Definition is_member (groupID userID : N) (db : DB) : Prop :=
  ∃ role, {| GroupID := groupID; UserID := userID; Role := role |}
            ∈ group_members (tables db).

(** The rows of the group. *)
Definition members_of (groupID : N) (db : DB) : list GroupMember :=
  filter (λ m, GroupID m = groupID) (group_members (tables db)).

(** A database for the examples: user 1 has created a group, which got the
    key 1, with the users 2 and 3; the server fails nothing. *)
Definition team : DB :=
  serve (CallCreateGroup "team" "" "" 1 [2; 3]) (NewDB []).

(** What the tables of the group service always satisfy: a member row has
    the role admin or member and belongs to a group of [groups]; the keys
    of the groups are distinct and have been handed out by the sequence; a
    chat that names a group is of type group and names a group of
    [groups]; and every group has exactly one such chat. *)
Record sound (db : DB) : Prop := Sound {
  roles_valid : ∀ m, m ∈ group_members (tables db) →
    (Role m = "admin" ∨ Role m = "member")%string;
  member_group : ∀ m, m ∈ group_members (tables db) →
    ∃ g, g ∈ groups (tables db) ∧ Group_ID g = GroupID m;
  group_keys : ∀ g, g ∈ groups (tables db) →
    1 ≤ Group_ID g ≤ groups_id_seq db;
  group_keys_unique : NoDup (Group_ID <$> groups (tables db));
  chat_group : ∀ c id, c ∈ chats (tables db) → Chat_GroupID c = Some id →
    Chat_Type c = "group"%string ∧
    ∃ g, g ∈ groups (tables db) ∧ Group_ID g = id;
  group_chat : ∀ g, g ∈ groups (tables db) →
    length (filter (λ c, Chat_GroupID c = Some (Group_ID g))
                   (chats (tables db))) = 1%nat
}.

(** * Properties *)

(** ** Outcomes and channels *)

Lemma obind_Done {A B : Type} (o : outcome A) (k : A → outcome B) (b : B) :
  obind o k = Done b ↔ ∃ a, o = Done a ∧ k a = Done b.
Proof.
  destruct o as [a| |]; simpl; split.
  - intros Hk. exists a. by split.
  - by intros (a' & [= <-] & Hk).
  - discriminate.
  - by intros (? & ? & ?).
  - discriminate.
  - by intros (? & ? & ?).
Qed.

Lemma deref_Done (c : ptr) (w : World) (cl : Client) :
  deref c w = Done cl ↔ heap w !! c = Some cl.
Proof.
  unfold deref. destruct (heap w !! c) as [cl'|]; split; try discriminate.
  - by intros [= ->].
  - by intros [= ->].
Qed.

(** Splits a hypothesis [H : (x ←' o; k) = Done b] into its two halves. *)
Ltac obind_inv H :=
  let a := fresh "a" in
  let H1 := fresh H "l" in
  let H2 := fresh H "r" in
  apply obind_Done in H as (a & H1 & H2);
  try apply deref_Done in H1.

Lemma chan_close_Done {A : Type} (c c' : chan.t A) :
  chan.close c = Done c' ↔
  chan.closed c = false ∧ c' = chan.Make (chan.buf c) (chan.cap c) true.
Proof.
  unfold chan.close. destruct (chan.closed c); split.
  - discriminate.
  - by intros [? _].
  - by intros [= <-].
  - by intros [_ ->].
Qed.

Lemma chan_try_send_Done {A : Type} (x : A) (c : chan.t A) (r : option (chan.t A)) :
  chan.try_send x c = Done r ↔
  chan.closed c = false ∧
  r = if chan.full c then None
      else Some (chan.Make (chan.buf c ++ [x]) (chan.cap c) false).
Proof.
  unfold chan.try_send. destruct (chan.closed c), (chan.full c); split;
    try discriminate; try (by intros [? _]);
    try (by intros [= <-]); by intros [_ ->].
Qed.

(** ** Leaving rooms *)

Lemma lookup_leave_room (client : ptr) (chatID k : N) (rooms : gmap N (gset ptr)) :
  leave_room client chatID rooms !! k =
  if decide (chatID = k) then without client (rooms !! k) else rooms !! k.
Proof.
  unfold leave_room, without. case_decide as Hk.
  - subst k. destruct (rooms !! chatID) as [room|] eqn:Hr; [|done].
    case_decide; [apply lookup_delete_eq | apply lookup_insert_eq].
  - destruct (rooms !! chatID) as [room|] eqn:Hr; [|done].
    case_decide; [by apply lookup_delete_ne | by apply lookup_insert_ne].
Qed.

Lemma without_idemp (client : ptr) (o : option (gset ptr)) :
  without client (without client o) = without client o.
Proof.
  destruct o as [room|]; simpl; [|done].
  case_decide as Hs; simpl; [done|].
  assert (room ∖ {[client]} ∖ {[client]} = room ∖ {[client]}) as -> by set_solver.
  by case_decide.
Qed.

Lemma default_without (client : ptr) (o : option (gset ptr)) :
  default ∅ (without client o) = default ∅ o ∖ {[client]}.
Proof.
  destruct o as [room|]; simpl; [|set_solver].
  case_decide as Hs; simpl; [|done].
  apply size_empty_inv in Hs. by unfold_leibniz.
Qed.

Lemma lookup_leave_rooms (client : ptr) (ids : list N) (k : N)
    (rooms : gmap N (gset ptr)) :
  leave_rooms client ids rooms !! k =
  if decide (k ∈ ids) then without client (rooms !! k) else rooms !! k.
Proof.
  unfold leave_rooms. revert rooms.
  induction ids as [|chatID ids IH]; intros rooms.
  - destruct (decide (k ∈ [])) as [Hin|_]; [by apply elem_of_nil in Hin | done].
  - cbn [foldl]. rewrite IH, lookup_leave_room.
    destruct (decide (chatID = k)) as [->|Hne].
    + rewrite (decide_True (P := k ∈ k :: ids)) by set_solver.
      case_decide; [apply without_idemp | done].
    + destruct (decide (k ∈ ids)) as [Hin|Hin].
      * by rewrite decide_True by set_solver.
      * by rewrite decide_False by set_solver.
Qed.

(** The loop over [client.ChatRooms] does not depend on the order in which
    Go ranges over the map. *)
Lemma leave_rooms_any_order (client : ptr) (ids ids' : list N)
    (rooms : gmap N (gset ptr)) :
  (∀ k, k ∈ ids ↔ k ∈ ids') →
  leave_rooms client ids rooms = leave_rooms client ids' rooms.
Proof.
  intros Hp. apply map_eq. intros k. rewrite !lookup_leave_rooms.
  destruct (decide (k ∈ ids)) as [Hin|Hin];
    [rewrite decide_True | rewrite decide_False]; try done.
  - by apply Hp.
  - by rewrite <- Hp.
Qed.

(** ** The broadcast loop *)

Lemma ID_offered (message : BroadcastMessage) (cl : Client) :
  ID (offered message cl) = ID cl.
Proof. unfold offered. by repeat case_match. Qed.

Lemma ChatRooms_offered (message : BroadcastMessage) (cl : Client) :
  ChatRooms (offered message cl) = ChatRooms cl.
Proof. unfold offered. by repeat case_match. Qed.

Lemma Conn_offered (message : BroadcastMessage) (cl : Client) :
  Conn (offered message cl) = Conn cl.
Proof. unfold offered. by repeat case_match. Qed.

Lemma offer_Done (message : BroadcastMessage) (c : ptr) (w w' : World) :
  offer message c w = Done w' →
  ∃ cl, heap w !! c = Some cl ∧ accepts message cl ∧
        heap w' = <[c := offered message cl]> (heap w) ∧
        chatRooms (hub w') = chatRooms (hub w) ∧
        broadcast (hub w') = broadcast (hub w) ∧
        Log w' = Log w ∧
        ((overflows message cl ∧
          clients (hub w') = delete (ID cl) (clients (hub w))) ∨
         (¬ overflows message cl ∧ clients (hub w') = clients (hub w))).
Proof.
  unfold offer, accepts, offered, overflows. intros H. obind_inv H.
  exists a. split; [done|]. rename a into cl.
  destruct (decide (ID cl ≠ Exclude message)) as [Hne|Heq].
  - obind_inv Hr. apply chan_try_send_Done in Hrl as [Hopen ->].
    destruct (chan.full (Send cl)) eqn:Hfull.
    + obind_inv Hrr. apply chan_close_Done in Hrrl as [_ ->].
      injection Hrrr as <-. simpl. repeat split; try done; auto.
    + injection Hrr as <-. simpl. repeat split; try done; auto.
      right. split; [|done]. by intros [_ ?].
  - injection Hr as <-. apply dec_stable in Heq.
    repeat split; try done; auto.
    + by rewrite insert_id.
    + right. split; [|done]. by intros [? _].
Qed.

Lemma offer_total (message : BroadcastMessage) (c : ptr) (w : World) (cl : Client) :
  heap w !! c = Some cl → accepts message cl → ∃ w', offer message c w = Done w'.
Proof.
  unfold offer, accepts, deref. intros -> Hacc. cbn [obind].
  destruct (decide (ID cl ≠ Exclude message)) as [Hne|Heq]; [|by eexists].
  destruct Hacc as [?|Hopen]; [done|].
  unfold chan.try_send, chan.close. rewrite Hopen. cbn [obind].
  destruct (chan.full (Send cl)); cbn [obind]; by eexists.
Qed.

Lemma offer_Panic_closed (message : BroadcastMessage) (c : ptr) (w : World) (cl : Client) :
  heap w !! c = Some cl → ID cl ≠ Exclude message →
  chan.closed (Send cl) = true → offer message c w = Panic.
Proof.
  unfold offer, deref. intros -> Hne Hclosed. cbn [obind].
  rewrite decide_True by done. unfold chan.try_send. by rewrite Hclosed.
Qed.

(** The loop, for any order [l] of the members without repetition. *)
Lemma range_room_Done (message : BroadcastMessage) (l : list ptr) (w w' : World) :
  NoDup l → range_room message l w = Done w' →
  chatRooms (hub w') = chatRooms (hub w) ∧
  broadcast (hub w') = broadcast (hub w) ∧
  Log w' = Log w ∧
  (∀ c, c ∈ l → ∃ cl, heap w !! c = Some cl ∧ accepts message cl) ∧
  (∀ c, heap w' !! c =
        if decide (c ∈ l) then offered message <$> heap w !! c else heap w !! c).
Proof.
  revert w. induction l as [|c l IH]; intros w Hnd Hrun.
  - injection Hrun as <-. split_and!; try done.
    by intros c ?%elem_of_nil.
  - apply NoDup_cons in Hnd as [Hc Hnd]. simpl in Hrun. obind_inv Hrun.
    apply offer_Done in Hrunl as (cl & Hcl & Hacc & Hheap & Hrooms & Hq & Hlog & _).
    destruct (IH _ Hnd Hrunr) as (Hrooms' & Hq' & Hlog' & Hall & Hlook).
    split_and!; try congruence.
    + intros c' [->|Hin]%elem_of_cons; [by eauto|].
      destruct (Hall c' Hin) as (cl' & Hcl' & Hacc').
      rewrite Hheap, lookup_insert_ne in Hcl' by (intros ->; done). eauto.
    + intros c'. rewrite Hlook, Hheap.
      destruct (decide (c' = c)) as [->|Hne].
      * rewrite (decide_False (P := c ∈ l)) by done.
        rewrite (decide_True (P := c ∈ c :: l)) by set_solver.
        by rewrite lookup_insert_eq, Hcl.
      * rewrite lookup_insert_ne by done.
        destruct (decide (c' ∈ l)) as [Hin|Hin].
        -- by rewrite (decide_True (P := c' ∈ c :: l)) by set_solver.
        -- by rewrite (decide_False (P := c' ∈ c :: l)) by set_solver.
Qed.

Lemma range_room_clients (message : BroadcastMessage) (l : list ptr) (w w' : World) :
  NoDup l → range_room message l w = Done w' →
  (∀ id c, clients (hub w') !! id = Some c → clients (hub w) !! id = Some c) ∧
  (∀ c cl, c ∈ l → heap w !! c = Some cl → overflows message cl →
           clients (hub w') !! ID cl = None) ∧
  (∀ id, (∀ c cl, c ∈ l → heap w !! c = Some cl → overflows message cl → ID cl ≠ id) →
         clients (hub w') !! id = clients (hub w) !! id).
Proof.
  revert w. induction l as [|c l IH]; intros w Hnd Hrun.
  - injection Hrun as <-. split_and!; try done.
    by intros c cl ?%elem_of_nil.
  - apply NoDup_cons in Hnd as [Hc Hnd]. simpl in Hrun. obind_inv Hrun.
    apply offer_Done in Hrunl as (cl & Hcl & _ & Hheap & _ & _ & _ & Hcls).
    destruct (IH _ Hnd Hrunr) as (Hsub & Hgone & Hsame).
    assert (∀ c', c' ∈ l → heap a !! c' = heap w !! c') as Hrest.
    { intros c' Hin. rewrite Hheap, lookup_insert_ne; [done | by intros ->]. }
    assert (∀ id x, clients (hub a) !! id = Some x → clients (hub w) !! id = Some x)
      as Hsub1.
    { intros id x. destruct Hcls as [[_ ->]|[_ ->]]; [|done].
      by intros [_ ?]%lookup_delete_Some. }
    split_and!.
    + intros id x Hx. by apply Hsub1, Hsub.
    + intros c' cl' [->|Hin]%elem_of_cons Hcl' Hov.
      * assert (cl' = cl) as -> by congruence.
        destruct Hcls as [[_ Hdel]|[Hno _]]; [|done].
        destruct (clients (hub w') !! ID cl) as [x|] eqn:Hx; [|done].
        apply Hsub in Hx. by rewrite Hdel, lookup_delete_eq in Hx.
      * apply Hgone with c'; [done | by rewrite Hrest | done].
    + intros id Hid. rewrite Hsame.
      * destruct Hcls as [[Hov ->]|[_ ->]]; [|done].
        apply lookup_delete_ne. apply (Hid c cl); [set_solver | done | done].
      * intros c' cl' Hin Hcl'. rewrite Hrest in Hcl' by done.
        apply (Hid c' cl'); [set_solver | done].
Qed.

Lemma range_room_total (message : BroadcastMessage) (l : list ptr) (w : World) :
  NoDup l →
  (∀ c, c ∈ l → ∃ cl, heap w !! c = Some cl ∧ accepts message cl) →
  ∃ w', range_room message l w = Done w'.
Proof.
  revert w. induction l as [|c l IH]; intros w Hnd Hall; [by eexists|].
  apply NoDup_cons in Hnd as [Hc Hnd].
  destruct (Hall c) as (cl & Hcl & Hacc); [set_solver|].
  destruct (offer_total message c w cl Hcl Hacc) as [w1 Hw1].
  simpl. rewrite Hw1. simpl. apply IH; [done|].
  apply offer_Done in Hw1 as (cl' & _ & _ & Hheap & _).
  intros c' Hin. rewrite Hheap, lookup_insert_ne by (by intros ->).
  apply Hall. set_solver.
Qed.

Lemma offer_not_Blocked (message : BroadcastMessage) (c : ptr) (w : World) :
  offer message c w ≠ Blocked.
Proof.
  unfold offer, deref, chan.try_send, chan.close.
  destruct (heap w !! c) as [cl|]; [|done]. cbn [obind].
  case_decide; [|done].
  destruct (chan.closed (Send cl)) eqn:Hc; [done|]. cbn [obind].
  by destruct (chan.full (Send cl)).
Qed.

Lemma range_room_not_Blocked (message : BroadcastMessage) (l : list ptr) (w : World) :
  range_room message l w ≠ Blocked.
Proof.
  revert w. induction l as [|c l IH]; intros w; [done|]. simpl.
  pose proof (offer_not_Blocked message c w) as Hc.
  destruct (offer message c w); [apply IH | done | done].
Qed.

(** A member that is not excluded and whose queue is closed makes the whole
    loop panic: the send on its closed channel does. *)
Lemma range_room_Panic (message : BroadcastMessage) (l : list ptr) (w : World)
    (c : ptr) (cl : Client) :
  NoDup l → c ∈ l → heap w !! c = Some cl →
  ID cl ≠ Exclude message → chan.closed (Send cl) = true →
  range_room message l w = Panic.
Proof.
  intros Hnd Hin Hcl Hne Hclosed.
  destruct (range_room message l w) as [w'| |] eqn:Hrun; [|done|].
  - apply range_room_Done in Hrun as (_ & _ & _ & Hall & _); [|done].
    destruct (Hall c Hin) as (cl' & Hcl' & [?|?]); congruence.
  - by apply range_room_not_Blocked in Hrun.
Qed.

(** Two turns of the loop for different members commute, so the result of
    the loop does not depend on the order in which Go ranges over the room. *)
Lemma offer_comm (message : BroadcastMessage) (c1 c2 : ptr) (w : World) :
  c1 ≠ c2 →
  (w1 ←' offer message c1 w; offer message c2 w1) =
  (w2 ←' offer message c2 w; offer message c1 w2).
Proof.
  intros Hne. unfold offer, deref, chan.try_send, chan.close.
  destruct (heap w !! c1) as [cl1|] eqn:H1, (heap w !! c2) as [cl2|] eqn:H2;
    cbn [obind];
    repeat first
      [ progress cbn [obind heap store set_clients hub Send with_Send chan.closed]
      | rewrite lookup_insert_ne by done
      | rewrite H1 | rewrite H2
      | case_decide
      | match goal with
        | |- context [chan.closed ?q] => destruct (chan.closed q) eqn:?
        | |- context [chan.full ?q] => destruct (chan.full q) eqn:?
        end ];
    try done.
  all: unfold set_clients, store; cbn; f_equal; f_equal;
    rewrite ?(delete_delete _ (ID cl1) (ID cl2));
    try done; try (by apply insert_insert_ne); f_equal; by apply insert_insert_ne.
Qed.

Lemma obind_assoc {A B C : Type} (o : outcome A) (f : A → outcome B)
    (g : B → outcome C) :
  obind (obind o f) g = obind o (λ a, obind (f a) g).
Proof. by destruct o. Qed.

Lemma range_room_Permutation (message : BroadcastMessage) (l l' : list ptr) (w : World) :
  l ≡ₚ l' → NoDup l → range_room message l w = range_room message l' w.
Proof.
  intros Hp. revert w.
  induction Hp as [|x l l' Hp IH|x y l|l l' l'' Hp1 IH1 Hp2 IH2]; intros w Hnd.
  - done.
  - apply NoDup_cons in Hnd as [_ Hnd]. simpl.
    destruct (offer message x w); simpl; auto.
  - apply NoDup_cons in Hnd as [Hy _]. cbn [range_room].
    rewrite <- !(obind_assoc _ _ (range_room message l)).
    f_equal. apply offer_comm. set_solver.
  - rewrite IH1 by done. apply IH2. by rewrite <- Hp1.
Qed.

Lemma Run_broadcast_any_order (message : BroadcastMessage) (w : World)
    (room : gset ptr) (l : list ptr) :
  chatRooms (hub w) !! ChatID message = Some room →
  NoDup l → (∀ c, c ∈ l ↔ c ∈ room) →
  range_room message l w = Run_broadcast message w.
Proof.
  intros Hroom Hnd Hl. unfold Run_broadcast. rewrite Hroom.
  apply range_room_Permutation; [|done].
  apply NoDup_Permutation; [done | apply NoDup_elements|].
  intros c. by rewrite Hl, elem_of_elements.
Qed.

Lemma elem_of_Room (c : ptr) (chatID : N) (w : World) :
  c ∈ Room chatID w ↔ ∃ room, chatRooms (hub w) !! chatID = Some room ∧ c ∈ room.
Proof.
  unfold Room. destruct (chatRooms (hub w) !! chatID) as [room|]; simpl.
  - split; [by eauto | by intros (? & [= <-] & ?)].
  - split; [set_solver | by intros (? & ? & ?)].
Qed.

(** The broadcast case of [Run], whatever order the range takes. *)
Lemma Run_broadcast_Done (message : BroadcastMessage) (w w' : World) :
  Run_broadcast message w = Done w' →
  chatRooms (hub w') = chatRooms (hub w) ∧
  broadcast (hub w') = broadcast (hub w) ∧
  Log w' = Log w ∧
  (∀ c, c ∈ Room (ChatID message) w →
        ∃ cl, heap w !! c = Some cl ∧ accepts message cl) ∧
  (∀ c, heap w' !! c =
        if decide (c ∈ Room (ChatID message) w)
        then offered message <$> heap w !! c else heap w !! c).
Proof.
  unfold Run_broadcast, Room.
  destruct (chatRooms (hub w) !! ChatID message) as [room|] eqn:Hroom; simpl.
  - intros (? & ? & ? & Hall & Hlook)%range_room_Done; [|apply NoDup_elements].
    split_and!; try done.
    + intros c Hc. apply Hall. by apply elem_of_elements.
    + intros c. rewrite Hlook.
      destruct (decide (c ∈ room)) as [Hin|Hin].
      * by rewrite decide_True by (by apply elem_of_elements).
      * by rewrite decide_False by (by rewrite elem_of_elements).
  - intros [= <-]. split_and!; try done; intros c Hc; set_solver.
Qed.

Lemma Run_broadcast_clients (message : BroadcastMessage) (w w' : World) :
  Run_broadcast message w = Done w' →
  (∀ id c, clients (hub w') !! id = Some c → clients (hub w) !! id = Some c) ∧
  (∀ c cl, c ∈ Room (ChatID message) w → heap w !! c = Some cl →
           overflows message cl → clients (hub w') !! ID cl = None) ∧
  (∀ id, (∀ c cl, c ∈ Room (ChatID message) w → heap w !! c = Some cl →
                  overflows message cl → ID cl ≠ id) →
         clients (hub w') !! id = clients (hub w) !! id).
Proof.
  unfold Run_broadcast, Room.
  destruct (chatRooms (hub w) !! ChatID message) as [room|] eqn:Hroom; simpl.
  - intros (Hsub & Hgone & Hsame)%range_room_clients; [|apply NoDup_elements].
    split_and!; [done| |].
    + intros c cl Hc. apply Hgone. by apply elem_of_elements.
    + intros id Hid. apply Hsame. intros c cl Hc. apply Hid.
      by apply elem_of_elements.
  - intros [= <-]. split_and!; try done; intros c cl Hc; set_solver.
Qed.

Lemma Run_broadcast_total (message : BroadcastMessage) (w : World) :
  (∀ c, c ∈ Room (ChatID message) w →
        ∃ cl, heap w !! c = Some cl ∧ accepts message cl) →
  ∃ w', Run_broadcast message w = Done w'.
Proof.
  unfold Run_broadcast, Room.
  destruct (chatRooms (hub w) !! ChatID message) as [room|] eqn:Hroom; simpl;
    [|by eexists].
  intros Hall. apply range_room_total; [apply NoDup_elements|].
  intros c Hc. apply Hall. by apply elem_of_elements.
Qed.

Lemma Run_broadcast_Panic (message : BroadcastMessage) (w : World)
    (c : ptr) (cl : Client) :
  c ∈ Room (ChatID message) w → heap w !! c = Some cl →
  ID cl ≠ Exclude message → chan.closed (Send cl) = true →
  Run_broadcast message w = Panic.
Proof.
  intros (room & Hroom & Hc)%elem_of_Room Hcl Hne Hclosed.
  unfold Run_broadcast. rewrite Hroom.
  apply range_room_Panic with c cl; try done; [apply NoDup_elements|].
  by apply elem_of_elements.
Qed.

(** ** The registry operations, entry by entry *)

Lemma Room_set_chatRooms_leave_room (client : ptr) (chatID k : N) (w : World) :
  Room k (set_chatRooms (leave_room client chatID) w) =
  if decide (chatID = k) then Room k w ∖ {[client]} else Room k w.
Proof.
  unfold Room. simpl. rewrite lookup_leave_room.
  case_decide; [apply default_without | done].
Qed.

Lemma JoinChatRoom_Done (c : ptr) (chatID : N) (w w' : World) :
  JoinChatRoom c chatID w = Done w' ↔
  ∃ cl, heap w !! c = Some cl ∧
        w' = log_Printf (LogJoined (ID cl) chatID)
               (store c (with_ChatRooms ({[chatID]} ∪ ChatRooms cl) cl)
                  (set_chatRooms <[chatID := {[c]} ∪ Room chatID w]> w)).
Proof.
  unfold JoinChatRoom, deref, Room.
  destruct (heap w !! c) as [cl|]; simpl; split.
  - intros [= <-]. by exists cl.
  - by intros (? & [= <-] & ->).
  - done.
  - by intros (? & ? & ?).
Qed.

Lemma LeaveChatRoom_Done (c : ptr) (chatID : N) (w w' : World) :
  LeaveChatRoom c chatID w = Done w' ↔
  ∃ cl, heap w !! c = Some cl ∧
        w' = log_Printf (LogLeft (ID cl) chatID)
               (store c (with_ChatRooms (ChatRooms cl ∖ {[chatID]}) cl)
                  (set_chatRooms (leave_room c chatID) w)).
Proof.
  unfold LeaveChatRoom, deref.
  destruct (heap w !! c) as [cl|]; simpl; split.
  - intros [= <-]. by exists cl.
  - by intros (? & [= <-] & ->).
  - done.
  - by intros (? & ? & ?).
Qed.

Lemma Room_Join (c : ptr) (chatID k : N) (w w' : World) :
  JoinChatRoom c chatID w = Done w' →
  Room k w' = if decide (chatID = k) then {[c]} ∪ Room k w else Room k w.
Proof.
  intros (cl & _ & ->)%JoinChatRoom_Done. unfold Room. simpl.
  case_decide as Hk.
  - subst k. by rewrite lookup_insert_eq.
  - by rewrite lookup_insert_ne.
Qed.

Lemma Room_Leave (c : ptr) (chatID k : N) (w w' : World) :
  LeaveChatRoom c chatID w = Done w' →
  Room k w' = if decide (chatID = k) then Room k w ∖ {[c]} else Room k w.
Proof.
  intros (cl & _ & ->)%LeaveChatRoom_Done.
  apply (Room_set_chatRooms_leave_room c chatID k w).
Qed.

(** The two ways in which [Run]'s unregister case ends. *)
Lemma Run_unregister_Done (c : ptr) (w w' : World) :
  Run_unregister c w = Done w' ↔
  ∃ cl, heap w !! c = Some cl ∧
    ((clients (hub w) !! ID cl = None ∧
      w' = log_Printf (LogDisconnected (ID cl)) w) ∨
     (is_Some (clients (hub w) !! ID cl) ∧ chan.closed (Send cl) = false ∧
      w' = log_Printf (LogDisconnected (ID cl))
             (set_chatRooms (leave_rooms c (elements (ChatRooms cl)))
                (store c
                   (with_Send (chan.Make (chan.buf (Send cl))
                                 (chan.cap (Send cl)) true) cl)
                   (set_clients (delete (ID cl)) w))))).
Proof.
  unfold Run_unregister, deref, chan.close.
  destruct (heap w !! c) as [cl|]; cbn [obind]; split.
  - intros H. exists cl. split; [done|].
    destruct (clients (hub w) !! ID cl) as [x|] eqn:Hx.
    + right. destruct (chan.closed (Send cl)) eqn:Hc; [done|].
      cbn [obind] in H. injection H as <-. by eauto.
    + left. by injection H as <-.
  - intros (? & [= <-] & [[-> ->]|([x ->] & -> & ->)]); done.
  - done.
  - by intros (? & ? & ?).
Qed.

Lemma Room_Unregister (c : ptr) (cl : Client) (k : N) (w w1 : World) :
  chatRooms (hub w1) =
    leave_rooms c (elements (ChatRooms cl)) (chatRooms (hub w)) →
  Room k w1 = if decide (k ∈ ChatRooms cl) then Room k w ∖ {[c]} else Room k w.
Proof.
  intros Hrooms. unfold Room. rewrite Hrooms, lookup_leave_rooms.
  destruct (decide (k ∈ ChatRooms cl)) as [Hin|Hin].
  - rewrite decide_True by (by apply elem_of_elements). apply default_without.
  - by rewrite decide_False by (by rewrite elem_of_elements).
Qed.

(** ** Invariants of the reachable worlds *)

Lemma hub_inv_NewWorld : hub_inv NewWorld.
Proof.
  split.
  - intros chatID c. unfold Room. simpl. rewrite lookup_empty. set_solver.
  - intros chatID c cl. simpl. by rewrite lookup_empty.
  - intros id c. simpl. by rewrite lookup_empty.
  - intros chatID room. simpl. by rewrite lookup_empty.
Qed.

Lemma hub_inv_Join (c : ptr) (chatID : N) (w w' : World) :
  hub_inv w → JoinChatRoom c chatID w = Done w' → hub_inv w'.
Proof.
  intros [Hmj Hjm Htab Hne] Hjoin.
  pose proof (λ k, Room_Join c chatID k w w' Hjoin) as HRoom.
  apply JoinChatRoom_Done in Hjoin as (cl & Hcl & ->). split.
  - intros k c0. rewrite HRoom. unfold joined. simpl. intros Hin.
    destruct (decide (c0 = c)) as [->|Hc0].
    + rewrite lookup_insert_eq. eexists. split; [done|]. simpl.
      case_decide as Hk; [set_solver|].
      destruct (Hmj k c Hin) as (cl0 & Hcl0 & Hk0).
      assert (cl0 = cl) as -> by congruence. set_solver.
    + rewrite lookup_insert_ne by done. apply Hmj.
      case_decide; set_solver.
  - intros k c0 cl0. rewrite HRoom. simpl.
    destruct (decide (c0 = c)) as [->|Hc0].
    + rewrite lookup_insert_eq. intros [= <-]. simpl. intros Hk Hopen.
      case_decide as Hck; [set_solver|].
      apply (Hjm k c cl); [done | set_solver | done].
    + rewrite lookup_insert_ne by done. intros Hcl0 Hk Hopen.
      pose proof (Hjm k c0 cl0 Hcl0 Hk Hopen). case_decide; set_solver.
  - intros id c0 Hid. simpl in Hid.
    destruct (Htab id c0 Hid) as (cl0 & Hcl0 & Hid0 & Hopen). simpl.
    destruct (decide (c0 = c)) as [->|Hc0].
    + rewrite lookup_insert_eq. eexists. split; [done|].
      assert (cl0 = cl) as -> by congruence. done.
    + rewrite lookup_insert_ne by done. eauto.
  - intros k room. simpl.
    destruct (decide (chatID = k)) as [->|Hk].
    + rewrite lookup_insert_eq. intros [= <-]. set_solver.
    + rewrite lookup_insert_ne by done. apply Hne.
Qed.

Lemma without_nonempty (client : ptr) (o : option (gset ptr)) (room : gset ptr) :
  without client o = Some room → room ≠ ∅.
Proof.
  destruct o as [r|]; simpl; [|done]. case_decide as Hs; [done|].
  intros [= <-] Hempty. apply Hs. rewrite Hempty. apply size_empty.
Qed.

Lemma hub_inv_Leave (c : ptr) (chatID : N) (w w' : World) :
  hub_inv w → LeaveChatRoom c chatID w = Done w' → hub_inv w'.
Proof.
  intros [Hmj Hjm Htab Hne] Hleave.
  pose proof (λ k, Room_Leave c chatID k w w' Hleave) as HRoom.
  apply LeaveChatRoom_Done in Hleave as (cl & Hcl & ->). split.
  - intros k c0. rewrite HRoom. unfold joined. simpl. intros Hin.
    destruct (decide (c0 = c)) as [->|Hc0].
    + rewrite lookup_insert_eq. eexists. split; [done|]. simpl.
      case_decide as Hk; [set_solver|].
      destruct (Hmj k c Hin) as (cl0 & Hcl0 & Hk0).
      assert (cl0 = cl) as -> by congruence. set_solver.
    + rewrite lookup_insert_ne by done. apply Hmj.
      case_decide; set_solver.
  - intros k c0 cl0. rewrite HRoom. simpl.
    destruct (decide (c0 = c)) as [->|Hc0].
    + rewrite lookup_insert_eq. intros [= <-]. simpl. intros Hk Hopen.
      case_decide as Hck; [set_solver|].
      apply (Hjm k c cl); [done | set_solver | done].
    + rewrite lookup_insert_ne by done. intros Hcl0 Hk Hopen.
      pose proof (Hjm k c0 cl0 Hcl0 Hk Hopen). case_decide; set_solver.
  - intros id c0 Hid. simpl in Hid.
    destruct (Htab id c0 Hid) as (cl0 & Hcl0 & Hid0 & Hopen). simpl.
    destruct (decide (c0 = c)) as [->|Hc0].
    + rewrite lookup_insert_eq. eexists. split; [done|].
      assert (cl0 = cl) as -> by congruence. done.
    + rewrite lookup_insert_ne by done. eauto.
  - intros k room. simpl. rewrite lookup_leave_room.
    case_decide; [apply without_nonempty | apply Hne].
Qed.

Lemma hub_inv_log (l : LogLine) (w : World) : hub_inv w → hub_inv (log_Printf l w).
Proof. intros [Hmj Hjm Htab Hne]. by split. Qed.

Lemma hub_inv_Unregister (c : ptr) (w w' : World) :
  hub_inv w → Run_unregister c w = Done w' → hub_inv w'.
Proof.
  intros Hinv (cl & Hcl & [[_ ->]|(_ & Hopen & ->)])%Run_unregister_Done;
    [by apply hub_inv_log|].
  apply hub_inv_log. destruct Hinv as [Hmj Hjm Htab Hne]. split.
  - intros k c0. rewrite (Room_Unregister c cl k w) by done.
    unfold joined. simpl. intros Hin.
    assert (c0 ∈ Room k w) as Hin0 by (case_decide; set_solver).
    destruct (decide (c0 = c)) as [->|Hc0].
    + rewrite lookup_insert_eq. eexists. split; [done|]. simpl.
      destruct (Hmj k c Hin0) as (cl0 & Hcl0 & Hk0).
      assert (cl0 = cl) as -> by congruence.
      rewrite decide_True in Hin by done. set_solver.
    + rewrite lookup_insert_ne by done. by apply Hmj.
  - intros k c0 cl0. rewrite (Room_Unregister c cl k w) by done. simpl.
    destruct (decide (c0 = c)) as [->|Hc0].
    + rewrite lookup_insert_eq. by intros [= <-].
    + rewrite lookup_insert_ne by done. intros Hcl0 Hk Hopen0.
      pose proof (Hjm k c0 cl0 Hcl0 Hk Hopen0). case_decide; set_solver.
  - intros id c0. simpl. intros [Hid Hc0]%lookup_delete_Some.
    destruct (Htab id c0 Hc0) as (cl0 & Hcl0 & Hid0 & Hopen0).
    rewrite lookup_insert_ne by congruence. eauto.
  - intros k room. simpl. rewrite lookup_leave_rooms.
    case_decide; [apply without_nonempty | apply Hne].
Qed.

Lemma HandleWebSocket_Done (c : ptr) (userID : N) (w w' : World) :
  HandleWebSocket c userID w = Done w' ↔
  heap w !! c = None ∧
  w' = log_Printf (LogConnected userID)
         (set_clients <[userID := c]> (store c (NewClient userID) w)).
Proof.
  unfold HandleWebSocket, Run_turn, Run_register, deref.
  destruct (heap w !! c) as [cl|]; simpl.
  - split; [done | by intros [? _]].
  - rewrite lookup_insert_eq. simpl. split.
    + by intros [= <-].
    + by intros [_ ->].
Qed.

Lemma hub_inv_Connect (c : ptr) (userID : N) (w w' : World) :
  hub_inv w → HandleWebSocket c userID w = Done w' → hub_inv w'.
Proof.
  intros [Hmj Hjm Htab Hne] [Hfresh ->]%HandleWebSocket_Done.
  apply hub_inv_log. split.
  - intros k c0 Hin. destruct (Hmj k c0 Hin) as (cl0 & Hcl0 & Hk).
    exists cl0. split; [|done]. simpl.
    rewrite lookup_insert_ne; [done | congruence].
  - intros k c0 cl0. simpl. destruct (decide (c0 = c)) as [->|Hc0].
    + rewrite lookup_insert_eq. intros [= <-]. simpl. set_solver.
    + rewrite lookup_insert_ne by done. apply Hjm.
  - intros id c0. simpl. destruct (decide (id = userID)) as [->|Hid].
    + rewrite lookup_insert_eq. intros [= <-].
      rewrite lookup_insert_eq. by eexists.
    + rewrite lookup_insert_ne by done. intros Hc0.
      destruct (Htab id c0 Hc0) as (cl0 & Hcl0 & ?).
      rewrite lookup_insert_ne by congruence. eauto.
  - done.
Qed.

Lemma hub_inv_set_broadcast (q : chan.t BroadcastMessage) (w : World) :
  hub_inv w → hub_inv (set_broadcast q w).
Proof. intros [Hmj Hjm Htab Hne]. by split. Qed.

Lemma BroadcastToChat_Done (chatID : N) (message : bytes) (excludeUserID : N)
    (w w' : World) :
  BroadcastToChat chatID message excludeUserID w = Done w' ↔
  chan.closed (broadcast (hub w)) = false ∧
  chan.full (broadcast (hub w)) = false ∧
  w' = set_broadcast
         (chan.Make
            (chan.buf (broadcast (hub w)) ++
             [{| ChatID := chatID; Message := message; Exclude := excludeUserID |}])
            (chan.cap (broadcast (hub w))) false) w.
Proof.
  unfold BroadcastToChat, chan.send.
  destruct (chan.closed (broadcast (hub w))), (chan.full (broadcast (hub w)));
    simpl; split; try done; try (by intros (? & ? & ?)).
  - by intros [= <-].
  - by intros (_ & _ & ->).
Qed.

Lemma hub_inv_Submit (chatID : N) (message : bytes) (excludeUserID : N)
    (w w' : World) :
  hub_inv w → BroadcastToChat chatID message excludeUserID w = Done w' → hub_inv w'.
Proof.
  intros Hinv (_ & _ & ->)%BroadcastToChat_Done. by apply hub_inv_set_broadcast.
Qed.

Lemma closed_offered (message : BroadcastMessage) (cl : Client) :
  accepts message cl →
  chan.closed (Send (offered message cl)) = false →
  chan.closed (Send cl) = false ∧ ¬ overflows message cl.
Proof.
  unfold accepts, offered, overflows. intros Hacc.
  destruct (decide (ID cl ≠ Exclude message)) as [Hne|Heq].
  - destruct (chan.full (Send cl)); simpl; [done|].
    destruct Hacc as [?|?]; [done|]. intros _. split; [done | by intros [_ ?]].
  - intros ?. split; [done | by intros [? _]].
Qed.

Lemma not_overflows_offered (message : BroadcastMessage) (cl : Client) :
  chan.closed (Send cl) = false → ¬ overflows message cl →
  chan.closed (Send (offered message cl)) = false.
Proof.
  unfold offered, overflows. intros Hopen Hno.
  destruct (decide (ID cl ≠ Exclude message)) as [Hne|Heq]; [|done].
  destruct (chan.full (Send cl)); simpl; [|done]. by destruct Hno.
Qed.

Lemma hub_inv_Run_broadcast (message : BroadcastMessage) (w w' : World) :
  hub_inv w → Run_broadcast message w = Done w' → hub_inv w'.
Proof.
  intros [Hmj Hjm Htab Hne] Hrun.
  destruct (Run_broadcast_Done _ _ _ Hrun) as (Hrooms & _ & _ & Hall & Hheap).
  destruct (Run_broadcast_clients _ _ _ Hrun) as (Hsub & Hgone & _).
  assert (∀ k, Room k w' = Room k w) as HRoom.
  { intros k. unfold Room. by rewrite Hrooms. }
  split.
  - intros k c0. rewrite HRoom. intros Hin.
    destruct (Hmj k c0 Hin) as (cl0 & Hcl0 & Hk).
    unfold joined. rewrite Hheap, Hcl0.
    case_decide; simpl; eexists; split; try done.
    by rewrite ChatRooms_offered.
  - intros k c0 cl0'. rewrite HRoom, Hheap.
    destruct (decide (c0 ∈ Room (ChatID message) w)) as [Hin|Hin]; [|apply Hjm].
    destruct (Hall c0 Hin) as (cl0 & Hcl0 & Hacc). rewrite Hcl0. simpl.
    intros [= <-]. rewrite ChatRooms_offered. intros Hk Hopen.
    apply closed_offered in Hopen as [Hopen _]; [|done].
    by apply (Hjm k c0 cl0).
  - intros id c0 Hid'. pose proof (Hsub id c0 Hid') as Hid.
    destruct (Htab id c0 Hid) as (cl0 & Hcl0 & <- & Hopen).
    rewrite Hheap, Hcl0.
    destruct (decide (c0 ∈ Room (ChatID message) w)) as [Hin|Hin]; simpl;
      [|by eauto].
    eexists. split; [done|]. split; [apply ID_offered|].
    apply not_overflows_offered; [done|]. intros Hov.
    by rewrite (Hgone c0 cl0 Hin Hcl0 Hov) in Hid'.
  - intros k room. rewrite Hrooms. apply Hne.
Qed.

Lemma Run_select_broadcast_Done (w w' : World) :
  Run_select_broadcast w = Done w' ↔
  ∃ message rest,
    chan.buf (broadcast (hub w)) = message :: rest ∧
    Run_broadcast message
      (set_broadcast
         (chan.Make rest (chan.cap (broadcast (hub w)))
            (chan.closed (broadcast (hub w)))) w) = Done w'.
Proof.
  unfold Run_select_broadcast, chan.recv.
  destruct (chan.buf (broadcast (hub w))) as [|message rest]; simpl.
  - split; [|by intros (? & ? & ? & ?)].
    by destruct (chan.closed (broadcast (hub w))).
  - split; [by eauto|]. by intros (? & ? & [= <- <-] & ?).
Qed.

Lemma hub_inv_Dispatch (w w' : World) :
  hub_inv w → Run_select_broadcast w = Done w' → hub_inv w'.
Proof.
  intros Hinv (message & rest & _ & Hrun)%Run_select_broadcast_Done.
  eapply hub_inv_Run_broadcast; [|done]. by apply hub_inv_set_broadcast.
Qed.

Lemma WritePump_turn_Done (c : ptr) (ok : bool) (w w' : World) :
  WritePump_turn c ok w = Done w' ↔
  ∃ cl, heap w !! c = Some cl ∧
    ((chan.buf (Send cl) = [] ∧ chan.closed (Send cl) = true ∧ w' = w) ∨
     (∃ message rest,
        chan.buf (Send cl) = message :: rest ∧
        w' = (if ok then id else log_Printf LogWriteError)
               (store c
                  {| ID := ID cl; Conn := Conn cl ++ [message];
                     Send := chan.Make rest (chan.cap (Send cl))
                               (chan.closed (Send cl));
                     ChatRooms := ChatRooms cl |} w))).
Proof.
  unfold WritePump_turn, deref, chan.recv.
  destruct (heap w !! c) as [cl|]; cbn [obind];
    [|split; [done | by intros (? & ? & ?)]].
  destruct (chan.buf (Send cl)) as [|message rest] eqn:Hbuf; cbn [obind].
  - destruct (chan.closed (Send cl)) eqn:Hclosed; cbn [obind]; split.
    + intros [= <-]. exists cl. split; [done|]. left. by rewrite Hbuf, Hclosed.
    + intros (? & [= <-] & [(_ & _ & ->)|(? & ? & ? & _)]); [done | congruence].
    + done.
    + intros (? & [= <-] & [(_ & ? & _)|(? & ? & ? & _)]); congruence.
  - split.
    + intros H. exists cl. split; [done|]. right. exists message, rest.
      rewrite Hbuf. split; [done|]. destruct ok; by injection H as <-.
    + intros (? & [= <-] & [(? & _)|(? & ? & Hb & ->)]); [congruence|].
      rewrite Hbuf in Hb. injection Hb as <- <-. by destruct ok.
Qed.

Lemma hub_inv_Write (c : ptr) (ok : bool) (w w' : World) :
  hub_inv w → WritePump_turn c ok w = Done w' → hub_inv w'.
Proof.
  intros Hinv (cl & Hcl & [(_ & _ & ->)|(message & rest & Hbuf & ->)])%WritePump_turn_Done;
    [done|].
  assert (∀ w0, hub_inv w0 →
            hub_inv ((if ok then id else log_Printf LogWriteError) w0)) as Hlog.
  { intros w0 ?. destruct ok; [done | by apply hub_inv_log]. }
  apply Hlog. destruct Hinv as [Hmj Hjm Htab Hne]. split.
  - intros k c0 Hin. destruct (Hmj k c0 Hin) as (cl0 & Hcl0 & Hk).
    unfold joined. simpl. destruct (decide (c0 = c)) as [->|Hc0].
    + rewrite lookup_insert_eq. eexists. split; [done|]. simpl. congruence.
    + rewrite lookup_insert_ne by done. eauto.
  - intros k c0 cl0. simpl. destruct (decide (c0 = c)) as [->|Hc0].
    + rewrite lookup_insert_eq. intros [= <-]. simpl. by apply Hjm.
    + rewrite lookup_insert_ne by done. apply Hjm.
  - intros id c0 Hid. destruct (Htab id c0 Hid) as (cl0 & Hcl0 & Hid0 & Hopen).
    simpl. destruct (decide (c0 = c)) as [->|Hc0].
    + rewrite lookup_insert_eq. eexists. split; [done|]. simpl.
      split; congruence.
    + rewrite lookup_insert_ne by done. eauto.
  - done.
Qed.

Lemma hub_inv_step (e : event) (w w' : World) :
  hub_inv w → step e w = Done w' → hub_inv w'.
Proof.
  destruct e; simpl.
  - apply hub_inv_Connect.
  - apply hub_inv_Unregister.
  - apply hub_inv_Join.
  - apply hub_inv_Leave.
  - apply hub_inv_Submit.
  - apply hub_inv_Dispatch.
  - apply hub_inv_Write.
Qed.

Lemma reachable_hub_inv (w : World) : reachable w → hub_inv w.
Proof.
  induction 1 as [|e w w' _ IH Hstep]; [apply hub_inv_NewWorld|].
  by apply (hub_inv_step e w w').
Qed.

Lemma reachable_run (es : list event) (w w' : World) :
  reachable w → run es w = Done w' → reachable w'.
Proof.
  revert w. induction es as [|e es IH]; intros w Hw; simpl.
  - by intros [= <-].
  - intros Hrun. obind_inv Hrun. apply (IH a); [|done].
    by apply (reachable_step e w a).
Qed.

(** Evaluates the next operation of a run on handles that are variables. *)
Ltac run_op :=
  first
    [ progress cbn [run step obind]
    | progress unfold HandleWebSocket, Run_turn, Run_register, JoinChatRoom,
        LeaveChatRoom, deref
    | progress cbn [heap hub store set_clients set_chatRooms set_broadcast
                    log_Printf clients chatRooms broadcast NewWorld NewHub]
    | rewrite lookup_empty
    | rewrite lookup_insert_eq
    | rewrite lookup_insert_ne by done ].

(** Picks the witness of [∃ w, o = Done w ∧ _] by evaluating [o]. *)
Ltac exists_Done :=
  match goal with
  | |- ∃ w, ?o = Done w ∧ _ =>
      let r := eval vm_compute in o in
      match r with
      | Done ?w0 => exists w0; split; [vm_compute; reflexivity|]
      end
  end.

(** ** Unregister (C4) *)




(** ** Rooms exist only while non-empty (C7) *)

Lemma Room_singleton_lookup (c : ptr) (chatID : N) (w : World) :
  Room chatID w = {[c]} → chatRooms (hub w) !! chatID = Some {[c]}.
Proof.
  unfold Room. destruct (chatRooms (hub w) !! chatID) as [room|]; simpl.
  - by intros ->.
  - intros Hempty. assert (c ∈ (∅ : gset ptr)) by (rewrite Hempty; set_solver).
    set_solver.
Qed.

Lemma without_singleton (c : ptr) : without c (Some {[c]}) = None.
Proof.
  unfold without. case_decide as Hs; [done|]. exfalso. apply Hs.
  assert (({[c]} : gset ptr) ∖ {[c]} = ∅) as -> by set_solver.
  apply size_empty.
Qed.

(** A room that was absent and is present after a transition was created
    by [JoinChatRoom], with the joining handle as its only member. *)
Lemma room_created_by_Join (e : event) (w w' : World) (chatID : N) :
  step e w = Done w' →
  chatRooms (hub w) !! chatID = None →
  is_Some (chatRooms (hub w') !! chatID) →
  ∃ c, e = Join c chatID ∧ chatRooms (hub w') !! chatID = Some {[c]}.
Proof.
  intros Hstep Hnone [room Hroom]. destruct e as [c id|c|c k|c k|m| |c ok]; simpl in Hstep.
  - apply HandleWebSocket_Done in Hstep as [_ ->]. simpl in Hroom. congruence.
  - apply Run_unregister_Done in Hstep as (cl & _ & [[_ ->]|(_ & _ & ->)]);
      simpl in Hroom; [congruence|].
    rewrite lookup_leave_rooms, Hnone in Hroom. by case_decide.
  - apply JoinChatRoom_Done in Hstep as (cl & _ & ->). simpl in *.
    destruct (decide (k = chatID)) as [->|Hk].
    + exists c. split; [done|]. rewrite lookup_insert_eq. f_equal.
      unfold Room. rewrite Hnone. simpl. set_solver.
    + rewrite lookup_insert_ne in Hroom by done. congruence.
  - apply LeaveChatRoom_Done in Hstep as (cl & _ & ->). simpl in Hroom.
    rewrite lookup_leave_room, Hnone in Hroom. by case_decide.
  - apply BroadcastToChat_Done in Hstep as (_ & _ & ->). simpl in Hroom. congruence.
  - apply Run_select_broadcast_Done in Hstep as (m & rest & _ & Hrun).
    apply Run_broadcast_Done in Hrun as (Hrooms & _). rewrite Hrooms in Hroom.
    simpl in Hroom. congruence.
  - apply WritePump_turn_Done in Hstep
      as (cl & _ & [(_ & _ & ->)|(m & rest & _ & ->)]); [congruence|].
    destruct ok; simpl in Hroom; congruence.
Qed.

Lemma Join_creates_room (c : ptr) (chatID : N) (w : World) :
  is_Some (heap w !! c) →
  ∃ w', JoinChatRoom c chatID w = Done w' ∧
        chatRooms (hub w') !! chatID = Some ({[c]} ∪ Room chatID w).
Proof.
  intros [cl Hcl]. eexists. split.
  - apply JoinChatRoom_Done. by exists cl.
  - simpl. apply lookup_insert_eq.
Qed.

Lemma Leave_deletes_room (c : ptr) (chatID : N) (w : World) :
  hub_inv w → Room chatID w = {[c]} →
  ∃ w', LeaveChatRoom c chatID w = Done w' ∧
        chatRooms (hub w') !! chatID = None.
Proof.
  intros [Hmj _ _ _] Hroom.
  destruct (Hmj chatID c) as (cl & Hcl & _); [rewrite Hroom; set_solver|].
  eexists. split.
  - apply LeaveChatRoom_Done. by exists cl.
  - simpl. rewrite lookup_leave_room, decide_True by done.
    rewrite (Room_singleton_lookup c chatID w Hroom). apply without_singleton.
Qed.

Lemma Unregister_deletes_room (c : ptr) (chatID : N) (w : World) :
  hub_inv w → Room chatID w = {[c]} → live c w →
  ∃ w', Run_unregister c w = Done w' ∧
        chatRooms (hub w') !! chatID = None.
Proof.
  intros [Hmj _ Htab _] Hroom [id Hid].
  destruct (Htab id c Hid) as (cl & Hcl & <- & Hopen).
  destruct (Hmj chatID c) as (cl' & Hcl' & Hk); [rewrite Hroom; set_solver|].
  assert (cl' = cl) as -> by congruence.
  eexists. split.
  - apply Run_unregister_Done. exists cl. split; [done|]. right.
    split; [by eexists|]. split; [done | reflexivity].
  - simpl. rewrite lookup_leave_rooms.
    rewrite decide_True by (by apply elem_of_elements).
    rewrite (Room_singleton_lookup c chatID w Hroom). apply without_singleton.
Qed.

Lemma run_snoc (es : list event) (e : event) (w w1 : World) :
  run es w = Done w1 → run (es ++ [e]) w = step e w1.
Proof.
  revert w. induction es as [|e0 es IH]; intros w; simpl.
  - intros [= ->]. by destruct (step e w1).
  - destruct (step e0 w) as [w0| |]; simpl; [apply IH | done | done].
Qed.

Lemma connect_join_world (A : ptr) (userID chatID : N) :
  ∃ w, run [Connect A userID; Join A chatID] NewWorld = Done w ∧
       reachable w ∧ live A w ∧ Room chatID w = {[A]} ∧
       heap w !! A =
         Some (with_ChatRooms ({[chatID]} ∪ ∅) (NewClient userID)).
Proof.
  eexists. split; [repeat run_op; reflexivity|].
  split_and!.
  - eapply (reachable_run [Connect A userID; Join A chatID] NewWorld);
      [apply reachable_init | repeat run_op; reflexivity].
  - exists userID. simpl. apply lookup_insert_eq.
  - unfold Room. simpl. rewrite lookup_insert_eq. rewrite ?lookup_empty.
    simpl. set_solver.
  - simpl. by rewrite lookup_insert_eq.
Qed.

(** C7.  In every reachable world each room of the registry has a member.
    A room that appears was created by a [JoinChatRoom] for its
    conversation id and holds exactly the joining handle; joining an absent
    room creates it.  When the only member of a room leaves, by
    [LeaveChatRoom] or by the unregistration of a live handle, the room is
    deleted from the registry in that same step.  After Register(A),
    JoinRoom(A,5), Unregister(A) the registry has no room 5. *)
Theorem C7_rooms_exist_only_while_nonempty :
  (∀ w, reachable w →
     (∀ chatID room, chatRooms (hub w) !! chatID = Some room → room ≠ ∅) ∧
     (∀ e w' chatID,
        step e w = Done w' → chatRooms (hub w) !! chatID = None →
        is_Some (chatRooms (hub w') !! chatID) →
        ∃ c, e = Join c chatID ∧ chatRooms (hub w') !! chatID = Some {[c]}) ∧
     (∀ c chatID,
        is_Some (heap w !! c) → chatRooms (hub w) !! chatID = None →
        ∃ w', JoinChatRoom c chatID w = Done w' ∧
              chatRooms (hub w') !! chatID = Some {[c]}) ∧
     (∀ c chatID,
        Room chatID w = {[c]} →
        ∃ w', LeaveChatRoom c chatID w = Done w' ∧
              chatRooms (hub w') !! chatID = None) ∧
     (∀ c chatID,
        Room chatID w = {[c]} → live c w →
        ∃ w', Run_unregister c w = Done w' ∧
              chatRooms (hub w') !! chatID = None)) ∧
  (∀ A userID,
     ∃ w, run [Connect A userID; Join A 5; Unregister A] NewWorld = Done w ∧
          chatRooms (hub w) !! 5 = None).
Proof.
  split.
  - intros w Hw. pose proof (reachable_hub_inv w Hw) as Hinv. split_and!.
    + apply (inv_rooms_nonempty w Hinv).
    + intros e w' chatID. apply room_created_by_Join.
    + intros c chatID Hc Hnone.
      destruct (Join_creates_room c chatID w Hc) as (w' & Hjoin & Hroom).
      exists w'. split; [done|]. rewrite Hroom. f_equal.
      unfold Room. rewrite Hnone. simpl. set_solver.
    + intros c chatID. by apply Leave_deletes_room.
    + intros c chatID. by apply Unregister_deletes_room.
  - intros A userID.
    destruct (connect_join_world A userID 5) as (w1 & Hrun & Hreach & Hlive & Hroom & _).
    destruct (Unregister_deletes_room A 5 w1) as (w2 & Hunreg & Hgone);
      [by apply reachable_hub_inv | done | done |].
    exists w2. split; [|done].
    change (run ([Connect A userID; Join A 5] ++ [Unregister A]) NewWorld = Done w2).
    by rewrite (run_snoc _ (Unregister A) NewWorld w1).
Qed.

Lemma C7_rooms_witness :
  ∃ w, run [Connect 1 10; Join 1 5] NewWorld = Done w ∧
       chatRooms (hub w) !! 5 = Some {[1%positive]} ∧
       (∃ w', LeaveChatRoom 1 5 w = Done w' ∧ chatRooms (hub w') !! 5 = None) ∧
       (∃ w', Run_unregister 1 w = Done w' ∧ chatRooms (hub w') !! 5 = None) ∧
       (∃ w', JoinChatRoom 1 6 w = Done w' ∧
              chatRooms (hub w') !! 6 = Some {[1%positive]}).
Proof.
  eexists. split; [vm_compute; reflexivity|].
  split; [vm_compute; reflexivity|].
  match goal with
  | |- context [LeaveChatRoom _ _ ?w] =>
      assert (reachable w) as Hw
        by (apply (reachable_run [Connect 1 10; Join 1 5] NewWorld);
            [apply reachable_init | vm_compute; reflexivity]);
      destruct (proj1 C7_rooms_exist_only_while_nonempty w Hw)
        as (_ & _ & Hjoin & Hleave & Hunreg)
  end.
  split_and!.
  - apply Hleave. vm_compute. reflexivity.
  - apply Hunreg; [vm_compute; reflexivity|]. exists 10. vm_compute. reflexivity.
  - apply Hjoin; [by eexists | vm_compute; reflexivity].
Defined.

(** ** Join and leave (C8) *)

Lemma with_ChatRooms_id (cl : Client) (s : gset N) :
  s = ChatRooms cl → with_ChatRooms s cl = cl.
Proof. intros ->. by destruct cl. Qed.

Lemma hub_eq (h1 h2 : Hub) :
  clients h1 = clients h2 → chatRooms h1 = chatRooms h2 →
  broadcast h1 = broadcast h2 → h1 = h2.
Proof. destruct h1, h2. simpl. by intros -> -> ->. Qed.

Lemma Join_idempotent (A : ptr) (chatID : N) (w : World) :
  hub_inv w → A ∈ Room chatID w →
  ∃ w', JoinChatRoom A chatID w = Done w' ∧ hub w' = hub w ∧ heap w' = heap w.
Proof.
  intros [Hmj _ _ _] Hin. destruct (Hmj chatID A Hin) as (cl & Hcl & Hk).
  apply elem_of_Room in Hin as (room & Hroom & Hin).
  eexists. split; [apply JoinChatRoom_Done; by exists cl|]. split.
  - apply hub_eq; try done. simpl. apply insert_id. rewrite Hroom. f_equal.
    unfold Room. rewrite Hroom. simpl. set_solver.
  - simpl. apply insert_id. rewrite Hcl. f_equal. symmetry.
    apply with_ChatRooms_id. set_solver.
Qed.

Lemma Leave_Join_inverse (A : ptr) (chatID : N) (w : World) :
  hub_inv w → is_Some (heap w !! A) → ¬ joined A chatID w →
  ∃ w1 w2, JoinChatRoom A chatID w = Done w1 ∧
           LeaveChatRoom A chatID w1 = Done w2 ∧
           hub w2 = hub w ∧ heap w2 = heap w.
Proof.
  intros [Hmj _ _ Hne] [cl Hcl] Hnj.
  assert (chatID ∉ ChatRooms cl) as Hk by (intros ?; apply Hnj; by exists cl).
  assert (A ∉ Room chatID w) as Hout by (intros ?; by apply Hnj, Hmj).
  do 2 eexists. split; [apply JoinChatRoom_Done; by exists cl|]. split.
  { apply LeaveChatRoom_Done. eexists. split; [|reflexivity].
    simpl. apply lookup_insert_eq. }
  split.
  - apply hub_eq; try done. simpl. apply map_eq. intros k.
    rewrite lookup_leave_room. case_decide as Hck; [subst k|].
    + rewrite lookup_insert_eq. unfold without.
      assert (({[A]} ∪ Room chatID w) ∖ {[A]} = Room chatID w) as -> by set_solver.
      unfold Room.
      destruct (chatRooms (hub w) !! chatID) as [room|] eqn:Hroom; cbn [default].
      * case_decide as Hs; [|done]. apply size_empty_inv in Hs. exfalso.
        apply (Hne chatID room Hroom). by unfold_leibniz.
      * case_decide as Hs; [done|]. exfalso.
        apply Hs, (size_empty (C := gset ptr)).
    + by rewrite lookup_insert_ne.
  - simpl. rewrite insert_insert_eq. apply insert_id. rewrite Hcl. f_equal.
    destruct cl as [i cn sd cr]. unfold with_ChatRooms. simpl in *. f_equal.
    set_solver.
Qed.

(** C8.  In every reachable world, [JoinChatRoom] for a handle that is
    already a member of the room changes neither the hub nor any client (it
    only writes its log line); and a [JoinChatRoom] for a conversation that
    the handle has not joined, followed by the [LeaveChatRoom] for it, gives
    back the hub and the clients as they were.  After Register(A),
    JoinRoom(A,5), JoinRoom(A,6), LeaveRoom(A,5) the joined-set of A is {6},
    the registry has no room 5 and room 6 is {A}. *)
Theorem C8_join_idempotent_leave_inverse :
  (∀ w A chatID, reachable w →
     (A ∈ Room chatID w →
      ∃ w', JoinChatRoom A chatID w = Done w' ∧
            hub w' = hub w ∧ heap w' = heap w) ∧
     (is_Some (heap w !! A) → ¬ joined A chatID w →
      ∃ w1 w2, JoinChatRoom A chatID w = Done w1 ∧
               LeaveChatRoom A chatID w1 = Done w2 ∧
               hub w2 = hub w ∧ heap w2 = heap w)) ∧
  (∀ A userID,
     ∃ w, run [Connect A userID; Join A 5; Join A 6; Leave A 5] NewWorld = Done w ∧
          (∃ cl, heap w !! A = Some cl ∧ ChatRooms cl = {[6]}) ∧
          chatRooms (hub w) !! 5 = None ∧
          chatRooms (hub w) !! 6 = Some {[A]}).
Proof.
  split.
  - intros w A chatID Hw. pose proof (reachable_hub_inv w Hw) as Hinv. split.
    + by apply Join_idempotent.
    + by apply Leave_Join_inverse.
  - intros A userID. eexists. split; [repeat run_op; reflexivity|].
    cbn [heap hub chatRooms log_Printf store set_chatRooms]. split_and!.
    + rewrite lookup_insert_eq. eexists. split; [done|].
      cbn [ChatRooms with_ChatRooms NewClient]. set_solver.
    + rewrite lookup_leave_room, decide_True by done.
      rewrite lookup_insert_ne, lookup_insert_eq by done.
      rewrite ?lookup_empty. cbn [default].
      assert (({[A]} : gset ptr) ∪ ∅ = {[A]}) as -> by set_solver.
      apply without_singleton.
    + rewrite lookup_leave_room, decide_False by done.
      rewrite lookup_insert_eq. rewrite ?lookup_insert_ne by done.
      rewrite ?lookup_empty. cbn [default]. f_equal. set_solver.
Qed.

Lemma C8_join_leave_witness :
  ∃ w, run [Connect 1 10; Join 1 5] NewWorld = Done w ∧
       (∃ w', JoinChatRoom 1 5 w = Done w' ∧ hub w' = hub w ∧ heap w' = heap w) ∧
       (∃ w1 w2, JoinChatRoom 1 6 w = Done w1 ∧
                 LeaveChatRoom 1 6 w1 = Done w2 ∧
                 hub w2 = hub w ∧ heap w2 = heap w).
Proof.
  eexists. split; [vm_compute; reflexivity|].
  match goal with
  | |- context [JoinChatRoom _ 5 ?w] =>
      assert (reachable w) as Hw
        by (apply (reachable_run [Connect 1 10; Join 1 5] NewWorld);
            [apply reachable_init | vm_compute; reflexivity]);
      pose proof (proj1 C8_join_idempotent_leave_inverse w 1%positive 5 Hw) as [H5 _];
      pose proof (proj1 C8_join_idempotent_leave_inverse w 1%positive 6 Hw) as [_ H6]
  end.
  split.
  - apply H5. vm_compute. reflexivity.
  - apply H6; [by eexists|]. intros (cl & Hcl & Hin). vm_compute in Hcl.
    injection Hcl as <-. vm_compute in Hin. set_solver.
Defined.

(** ** Exclusion (C5) *)

Lemma run_app (es1 es2 : list event) (w : World) :
  run (es1 ++ es2) w = obind (run es1 w) (run es2).
Proof.
  revert w. induction es1 as [|e es1 IH]; intros w; simpl; [done|].
  destruct (step e w); simpl; auto.
Qed.

Lemma obind_Done_r {A : Type} (o : outcome A) : obind o Done = o.
Proof. by destruct o. Qed.

Lemma set_broadcast_twice (q q' : chan.t BroadcastMessage) (w : World) :
  set_broadcast q (set_broadcast q' w) = set_broadcast q w.
Proof. done. Qed.

Lemma offered_excluded (message : BroadcastMessage) (cl : Client) :
  ID cl = Exclude message → offered message cl = cl.
Proof. intros Heq. unfold offered. by rewrite decide_False by (by intros ?). Qed.

Lemma Run_broadcast_excluded (message : BroadcastMessage) (w w' : World)
    (c : ptr) (cl : Client) :
  Run_broadcast message w = Done w' → heap w !! c = Some cl →
  ID cl = Exclude message → heap w' !! c = Some cl.
Proof.
  intros (_ & _ & _ & _ & Hheap)%Run_broadcast_Done Hcl Hex.
  rewrite Hheap, Hcl. case_decide; [|done]. simpl. by rewrite offered_excluded.
Qed.

(** Two clients of different identities in one room, nothing queued. *)
Lemma two_in_room (a b : ptr) (ida idb chatID : N) :
  a ≠ b → ida ≠ idb →
  ∃ w, run [Connect a ida; Join a chatID; Connect b idb; Join b chatID] NewWorld
         = Done w ∧
       Room chatID w = {[a; b]} ∧
       heap w !! a = Some (with_ChatRooms ({[chatID]} ∪ ∅) (NewClient ida)) ∧
       heap w !! b = Some (with_ChatRooms ({[chatID]} ∪ ∅) (NewClient idb)) ∧
       broadcast (hub w) = chan.make 256.
Proof.
  intros Hab Hid. eexists. split; [repeat run_op; reflexivity|].
  split_and!.
  - unfold Room. simpl. rewrite !lookup_insert_eq. simpl. set_solver.
  - simpl. by rewrite !lookup_insert_ne, lookup_insert_eq by done.
  - simpl. by rewrite lookup_insert_eq.
  - done.
Qed.

(** C5.  The turn of the broadcast loop for a client whose identity is the
    excluded one does nothing at all.  So whenever the hub has processed a
    broadcast, the record of every client of the excluded identity is what
    it was before, and nothing was put on its queue, member of the room or
    not.  After Register(A), JoinRoom(A,5), Register(B), JoinRoom(B,5),
    Broadcast(5, "hello", excluded=A), for handles A and B of different
    identities, the queue of B holds "hello" and the queue of A is empty. *)
Theorem C5_broadcast_excludes_sender :
  (∀ message w c cl,
     heap w !! c = Some cl → ID cl = Exclude message →
     offer message c w = Done w) ∧
  (∀ message w w' c cl,
     Run_broadcast message w = Done w' →
     heap w !! c = Some cl → ID cl = Exclude message →
     heap w' !! c = Some cl ∧ queue c w' = queue c w) ∧
  (∀ a b ida idb,
     a ≠ b → ida ≠ idb →
     ∃ w, run [Connect a ida; Join a 5; Connect b idb; Join b 5;
               Submit {| ChatID := 5; Message := hello; Exclude := ida |};
               Dispatch] NewWorld = Done w ∧
          queue b w = [hello] ∧ queue a w = []).
Proof.
  split_and!.
  - intros message w c cl Hcl Hex. unfold offer, deref. rewrite Hcl.
    cbn [obind]. by rewrite decide_False by (by intros ?).
  - intros message w w' c cl Hrun Hcl Hex.
    pose proof (Run_broadcast_excluded _ _ _ _ _ Hrun Hcl Hex) as Hcl'.
    split; [done|]. unfold queue. by rewrite Hcl, Hcl'.
  - intros a b ida idb Hab Hid.
    destruct (two_in_room a b ida idb 5 Hab Hid) as (w4 & Hrun4 & Hroom & Ha & Hb & Hq).
    set (m := {| ChatID := 5; Message := hello; Exclude := ida |}).
    set (w5 := set_broadcast (chan.Make [] 256 false) w4).
    assert (run [Submit m; Dispatch] w4 = Run_broadcast m w5) as Hlast.
    { cbn [run step obind]. unfold BroadcastToChat, chan.send.
      rewrite Hq. cbn. unfold Run_select_broadcast. cbn.
      rewrite set_broadcast_twice. apply obind_Done_r. }
    destruct (Run_broadcast_total m w5) as [w6 Hw6].
    { intros c. change (Room (ChatID m) w5) with (Room 5 w4). rewrite Hroom.
      intros [Hc|Hc]%elem_of_union; apply elem_of_singleton in Hc as ->.
      - eexists. split; [exact Ha|]. by left.
      - eexists. split; [exact Hb|]. by right. }
    exists w6. split.
    { change (run ([Connect a ida; Join a 5; Connect b idb; Join b 5] ++
                   [Submit m; Dispatch]) NewWorld = Done w6).
      by rewrite run_app, Hrun4, <- Hw6. }
    destruct (Run_broadcast_Done _ _ _ Hw6) as (_ & _ & _ & _ & Hheap).
    unfold queue. rewrite !Hheap.
    change (Room (ChatID m) w5) with (Room 5 w4). rewrite Hroom.
    change (heap w5) with (heap w4). rewrite Ha, Hb.
    rewrite !decide_True by set_solver. cbn [fmap option_fmap option_map].
    split.
    + unfold offered. rewrite decide_True by done. done.
    + by rewrite offered_excluded.
Qed.

Lemma C5_exclusion_witness :
  (∃ w, run [Connect 1 10; Join 1 5; Connect 2 20; Join 2 5] NewWorld = Done w ∧
   ∃ w', Run_broadcast {| ChatID := 5; Message := hello; Exclude := 10 |} w
           = Done w' ∧
         queue 1 w' = queue 1 w) ∧
  (∃ w, run [Connect 1 10; Join 1 5; Connect 2 20; Join 2 5;
             Submit {| ChatID := 5; Message := hello; Exclude := 10 |};
             Dispatch] NewWorld = Done w ∧
        queue 2 w = [hello] ∧ queue 1 w = []).
Proof.
  split.
  - exists_Done. exists_Done.
    match goal with
    | |- queue _ ?w1 = queue _ ?w0 =>
        refine (proj2 (proj1 (proj2 C5_broadcast_excludes_sender)
                         {| ChatID := 5; Message := hello; Exclude := 10 |}
                         w0 w1 1%positive _ _ _ _))
    end; vm_compute; reflexivity.
  - apply (proj2 (proj2 C5_broadcast_excludes_sender)
             1%positive 2%positive 10 20); done.
Defined.

(** ** Broadcasts that exclude nobody (C10) *)

Lemma Run_broadcast_member (message : BroadcastMessage) (w w' : World)
    (c : ptr) (cl : Client) :
  Run_broadcast message w = Done w' → heap w !! c = Some cl →
  c ∈ Room (ChatID message) w → ID cl ≠ Exclude message →
  chan.closed (Send cl) = false ∧
  heap w' !! c = Some (offered message cl) ∧
  if chan.full (Send cl)
  then queue c w' = chan.buf (Send cl) ∧ queue_closed c w'
  else queue c w' = chan.buf (Send cl) ++ [Message message].
Proof.
  intros (_ & _ & _ & Hall & Hheap)%Run_broadcast_Done Hcl Hin Hne.
  destruct (Hall c Hin) as (cl' & Hcl' & [?|Hopen]); [congruence|].
  assert (cl' = cl) as -> by congruence.
  assert (heap w' !! c = Some (offered message cl)) as Hcl2.
  { by rewrite Hheap, decide_True, Hcl by done. }
  split_and!; try done. unfold queue, queue_closed. rewrite Hcl2.
  unfold offered. rewrite decide_True by done.
  destruct (chan.full (Send cl)); simpl; [|done].
  split; [done|]. by eexists.
Qed.




(** ** Order of delivery (C6) *)

Lemma extends_refl (cl : Client) : extends cl cl.
Proof. split_and!; [done| |done]. exists []. by rewrite app_nil_r. Qed.

Lemma extends_with_ChatRooms (cl : Client) (s : gset N) :
  extends cl (with_ChatRooms s cl).
Proof. split_and!; simpl; [done| |done]. exists []. by rewrite app_nil_r. Qed.

Lemma extends_trans (cl1 cl2 cl3 : Client) :
  extends cl1 cl2 → extends cl2 cl3 → extends cl1 cl3.
Proof.
  intros (Hid1 & [l1 Hl1] & Hc1) (Hid2 & [l2 Hl2] & Hc2). split_and!.
  - congruence.
  - exists (l1 ++ l2). by rewrite Hl2, Hl1, <- !app_assoc.
  - auto.
Qed.

Lemma extends_offered (message : BroadcastMessage) (cl : Client) :
  accepts message cl → extends cl (offered message cl).
Proof.
  intros Hacc. unfold offered.
  destruct (decide (ID cl ≠ Exclude message)) as [Hne|Heq]; [|apply extends_refl].
  destruct Hacc as [?|Hopen]; [done|].
  destruct (chan.full (Send cl)); split_and!; simpl; try done; try congruence.
  - exists []. by rewrite app_nil_r.
  - exists [Message message]. by rewrite app_assoc.
Qed.

Lemma step_extends (e : event) (w w' : World) (c : ptr) (cl : Client) :
  step e w = Done w' → heap w !! c = Some cl →
  ∃ cl', heap w' !! c = Some cl' ∧ extends cl cl'.
Proof.
  intros Hstep Hcl. destruct e as [c0 id|c0|c0 k|c0 k|m| |c0 ok]; simpl in Hstep.
  - apply HandleWebSocket_Done in Hstep as [Hfresh ->]. simpl.
    rewrite lookup_insert_ne by congruence. eauto using extends_refl.
  - apply Run_unregister_Done in Hstep as (cl0 & Hcl0 & [[_ ->]|(_ & Hopen & ->)]);
      simpl; [eauto using extends_refl|].
    destruct (decide (c0 = c)) as [->|Hc0].
    + rewrite lookup_insert_eq. eexists. split; [done|].
      assert (cl0 = cl) as -> by congruence.
      split_and!; simpl; [done| |done]. exists []. by rewrite app_nil_r.
    + rewrite lookup_insert_ne by done. eauto using extends_refl.
  - apply JoinChatRoom_Done in Hstep as (cl0 & Hcl0 & ->). simpl.
    destruct (decide (c0 = c)) as [->|Hc0].
    + rewrite lookup_insert_eq. eexists. split; [done|].
      assert (cl0 = cl) as -> by congruence. apply extends_with_ChatRooms.
    + rewrite lookup_insert_ne by done. eauto using extends_refl.
  - apply LeaveChatRoom_Done in Hstep as (cl0 & Hcl0 & ->). simpl.
    destruct (decide (c0 = c)) as [->|Hc0].
    + rewrite lookup_insert_eq. eexists. split; [done|].
      assert (cl0 = cl) as -> by congruence. apply extends_with_ChatRooms.
    + rewrite lookup_insert_ne by done. eauto using extends_refl.
  - apply BroadcastToChat_Done in Hstep as (_ & _ & ->). simpl.
    eauto using extends_refl.
  - apply Run_select_broadcast_Done in Hstep as (m & rest & _ & Hrun).
    apply Run_broadcast_Done in Hrun as (_ & _ & _ & Hall & Hheap).
    rewrite Hheap. simpl. rewrite Hcl. case_decide as Hin; simpl.
    + destruct (Hall c Hin) as (cl0 & Hcl0 & Hacc). simpl in Hcl0.
      assert (cl0 = cl) as -> by congruence. eauto using extends_offered.
    + eauto using extends_refl.
  - apply WritePump_turn_Done in Hstep
      as (cl0 & Hcl0 & [(_ & _ & ->)|(m & rest & Hbuf & ->)]);
      [eauto using extends_refl|].
    assert (∀ w0, heap ((if ok then id else log_Printf LogWriteError) w0) = heap w0)
      as -> by (intros; by destruct ok).
    simpl. destruct (decide (c0 = c)) as [->|Hc0].
    + rewrite lookup_insert_eq. eexists. split; [done|].
      assert (cl0 = cl) as -> by congruence.
      split_and!; simpl; [done| |done]. exists [].
      by rewrite Hbuf, app_nil_r, <- app_assoc.
    + rewrite lookup_insert_ne by done. eauto using extends_refl.
Qed.

Lemma run_extends (es : list event) (w w' : World) (c : ptr) (cl : Client) :
  run es w = Done w' → heap w !! c = Some cl →
  ∃ cl', heap w' !! c = Some cl' ∧ extends cl cl'.
Proof.
  revert w cl. induction es as [|e es IH]; intros w cl; simpl.
  - intros [= <-] Hcl. eauto using extends_refl.
  - intros Hrun Hcl. obind_inv Hrun.
    destruct (step_extends e w a c cl Hrunl Hcl) as (cl1 & Hcl1 & Hext1).
    destruct (IH a cl1 Hrunr Hcl1) as (cl2 & Hcl2 & Hext2).
    eauto using extends_trans.
Qed.

Lemma step_mailbox (e : event) (w w' : World) :
  step e w = Done w' →
  match e with
  | Submit m =>
      chan.buf (broadcast (hub w')) = chan.buf (broadcast (hub w)) ++ [m]
  | Dispatch =>
      ∃ m, chan.buf (broadcast (hub w)) = m :: chan.buf (broadcast (hub w'))
  | _ => chan.buf (broadcast (hub w')) = chan.buf (broadcast (hub w))
  end.
Proof.
  intros Hstep. destruct e as [c0 id|c0|c0 k|c0 k|m| |c0 ok]; simpl in Hstep.
  - by apply HandleWebSocket_Done in Hstep as [_ ->].
  - by apply Run_unregister_Done in Hstep as (cl0 & _ & [[_ ->]|(_ & _ & ->)]).
  - by apply JoinChatRoom_Done in Hstep as (cl0 & _ & ->).
  - by apply LeaveChatRoom_Done in Hstep as (cl0 & _ & ->).
  - apply BroadcastToChat_Done in Hstep as (_ & _ & ->). simpl. by destruct m.
  - apply Run_select_broadcast_Done in Hstep as (m & rest & Hbuf & Hrun).
    apply Run_broadcast_Done in Hrun as (_ & -> & _). simpl. by exists m.
  - apply WritePump_turn_Done in Hstep
      as (cl0 & _ & [(_ & _ & ->)|(m & rest & _ & ->)]); [done|]. by destruct ok.
Qed.

(** The mailbox is first in, first out: what a run has taken from it is a
    prefix of what it held followed by what the run submitted. *)
Lemma mailbox_fifo (es : list event) (w w' : World) :
  run es w = Done w' →
  ∃ taken,
    chan.buf (broadcast (hub w)) ++ submitted es =
      taken ++ chan.buf (broadcast (hub w')) ∧
    length taken = dispatches es.
Proof.
  revert w. induction es as [|e es IH]; intros w; simpl.
  - intros [= <-]. exists []. by rewrite app_nil_r.
  - intros Hrun. obind_inv Hrun.
    destruct (IH a Hrunr) as (taken & Htaken & Hlen).
    pose proof (step_mailbox e w a Hrunl) as Hbox.
    unfold submitted in *.
    destruct e as [c0 id|c0|c0 k|c0 k|m| |c0 ok]; simpl;
      try (exists taken; split; [congruence | done]).
    + exists taken. split; [|done]. by rewrite <- Htaken, Hbox, <- app_assoc.
    + destruct Hbox as [m Hm]. exists (m :: taken).
      simpl. split; [|by f_equal]. by rewrite Hm, <- Htaken.
Qed.

(** C6.  The mailbox of the hub is first in, first out, and the hub takes
    one envelope at a time.  If the hub takes [m1] and, at any later point
    of the run, [m2] for the same conversation, then for every handle [b]
    that is a member of the room at both points and excluded by neither
    envelope, [m1] was put on the outbound queue of [b], and [m2] is put on
    it after [m1] and after everything queued in between; the one exception
    is a queue that is full when [m2] arrives, which is closed instead. *)
Theorem C6_room_broadcasts_keep_their_order :
  (∀ es w w',
     run es w = Done w' →
     ∃ taken,
       chan.buf (broadcast (hub w)) ++ submitted es =
         taken ++ chan.buf (broadcast (hub w')) ∧
       length taken = dispatches es) ∧
  (∀ w w1 w2 w3 m1 m2 rest1 rest2 mid b cl,
     ChatID m1 = ChatID m2 →
     chan.buf (broadcast (hub w)) = m1 :: rest1 → step Dispatch w = Done w1 →
     run mid w1 = Done w2 →
     chan.buf (broadcast (hub w2)) = m2 :: rest2 → step Dispatch w2 = Done w3 →
     heap w !! b = Some cl → ID cl ≠ Exclude m1 → ID cl ≠ Exclude m2 →
     b ∈ Room (ChatID m1) w → b ∈ Room (ChatID m2) w2 →
     ∃ l d, outbound b w3 = outbound b w ++ Message m1 :: l ++ d ∧
            (d = [Message m2] ∨ (d = [] ∧ queue_closed b w3))).
Proof.
  split; [apply mailbox_fifo|].
  intros w w1 w2 w3 m1 m2 rest1 rest2 mid b cl _ Hbuf1 Hstep1 Hmid Hbuf2 Hstep2
    Hcl Hne1 Hne2 Hin1 Hin2.
  simpl in Hstep1, Hstep2.
  apply Run_select_broadcast_Done in Hstep1 as (m & rest & Hbuf & Hrun1).
  rewrite Hbuf1 in Hbuf. injection Hbuf as <- <-.
  apply Run_select_broadcast_Done in Hstep2 as (m & rest & Hbuf & Hrun2).
  rewrite Hbuf2 in Hbuf. injection Hbuf as <- <-.
  destruct (Run_broadcast_member _ _ _ b cl Hrun1 Hcl Hin1 Hne1)
    as (Hopen & Hcl1 & _).
  destruct (run_extends mid w1 w2 b _ Hmid Hcl1) as (cl2 & Hcl2 & Hid2 & [l Hl] & Hcl12).
  rewrite ID_offered in Hid2.
  destruct (Run_broadcast_member _ _ _ b cl2 Hrun2 Hcl2 Hin2) as (Hopen2 & Hcl3 & _);
    [congruence|].
  assert (chan.full (Send cl) = false) as Hfull1.
  { destruct (chan.full (Send cl)) eqn:Hfull; [|done].
    assert (chan.closed (Send cl2) = true); [|congruence].
    apply Hcl12. unfold offered. by rewrite decide_True, Hfull by done. }
  assert (Conn (offered m1 cl) ++ chan.buf (Send (offered m1 cl)) =
          (Conn cl ++ chan.buf (Send cl)) ++ [Message m1]) as Hout1.
  { unfold offered. rewrite decide_True, Hfull1 by done. simpl.
    by rewrite app_assoc. }
  unfold outbound. rewrite Hcl3, Hcl. rewrite Conn_offered.
  unfold offered. rewrite decide_True by congruence.
  destruct (chan.full (Send cl2)) eqn:Hfull2; simpl.
  - exists l, []. split.
    + by rewrite Hl, Hout1, app_nil_r, <- !app_assoc.
    + right. split; [done|]. eexists. split; [exact Hcl3|].
      unfold offered. by rewrite decide_True, Hfull2 by congruence.
  - exists l, [Message m2]. split; [|by left].
    by rewrite app_assoc, Hl, Hout1, <- !app_assoc.
Qed.

Lemma C6_order_witness :
  ∃ w, run [Connect 1 10; Join 1 5; Connect 2 20; Join 2 5;
            Submit {| ChatID := 5; Message := hello; Exclude := 10 |};
            Submit {| ChatID := 5; Message := world; Exclude := 10 |}]
         NewWorld = Done w ∧
  ∃ w1, step Dispatch w = Done w1 ∧
  ∃ w2, run [Write 2 true] w1 = Done w2 ∧
  ∃ w3, step Dispatch w2 = Done w3 ∧
  ∃ l d, outbound 2 w3 = outbound 2 w ++ hello :: l ++ d ∧
         (d = [world] ∨ (d = [] ∧ queue_closed 2 w3)).
Proof.
  exists_Done.
  match goal with |- ∃ w1, _ _ ?W = Done w1 ∧ _ => set (w := W) end.
  exists_Done.
  match goal with |- ∃ w2, _ _ ?W = Done w2 ∧ _ => set (w1 := W) end.
  exists_Done.
  match goal with |- ∃ w3, _ _ ?W = Done w3 ∧ _ => set (w2 := W) end.
  exists_Done.
  match goal with |- ∃ l d, outbound _ ?W = _ ∧ _ => set (w3 := W) end.
  apply (proj2 C6_room_broadcasts_keep_their_order w w1 w2 w3
           {| ChatID := 5; Message := hello; Exclude := 10 |}
           {| ChatID := 5; Message := world; Exclude := 10 |}
           [{| ChatID := 5; Message := world; Exclude := 10 |}] []
           [Write 2 true] 2%positive (with_ChatRooms {[5]} (NewClient 20)));
    try (vm_compute; reflexivity); vm_compute; discriminate.
Defined.

(** ** Malformed frames (C9) *)

Lemma unknown_type_frame (Unmarshal : bytes → option WSMessage) (c : ptr)
    (message : bytes) (wsMsg : WSMessage) (w : World) :
  Unmarshal message = Some wsMsg → ¬ known_type (MsgType wsMsg) →
  ReadPump_frame Unmarshal c message w = Done w.
Proof.
  unfold ReadPump_frame, known_type. intros -> Hunknown.
  repeat (case_decide; [tauto|]). done.
Qed.

(** C9, as worded, fails: a frame of unknown type is dropped without a log
    line. *)
Lemma C9_unknown_type_is_not_logged : ¬ malformed_frames_are_logged.
Proof.
  intros Hclaim.
  destruct (Hclaim sample_Unmarshal 1%positive ping_frame [] NewWorld)
    as (w' & Hframe & [line Hlog] & _).
  - right. exists ping. split; [done|]. unfold known_type. simpl.
    intros [?|[?|[?|[?|?]]]]; discriminate.
  - vm_compute in Hframe. injection Hframe as <-. simpl in Hlog.
    by destruct line.
Qed.

(** C9, amended.  A frame that does not decode is logged and dropped; a
    frame of a type without a case is dropped without a log line.  Either
    way the hub and every client are as before, and the reader goes on with
    the frames that follow. *)
Theorem C9_malformed_frame_is_skipped (Unmarshal : bytes → option WSMessage)
    (c : ptr) (message : bytes) (rest : list ReadResult) (w : World) :
  malformed Unmarshal message →
  ∃ w', ReadPump_frame Unmarshal c message w = Done w' ∧
        hub w' = hub w ∧ heap w' = heap w ∧
        Log w' = Log w ++
                 (if Unmarshal message is None then [LogUnmarshalError] else []) ∧
        ReadPump Unmarshal c (ReadFrame message :: rest) w =
          ReadPump Unmarshal c rest w'.
Proof.
  intros [Hnone|(wsMsg & Hsome & Hunknown)].
  - exists (log_Printf LogUnmarshalError w).
    assert (ReadPump_frame Unmarshal c message w =
            Done (log_Printf LogUnmarshalError w)) as Hframe.
    { unfold ReadPump_frame. by rewrite Hnone. }
    split_and!; try done.
    + by rewrite Hnone.
    + simpl. by rewrite Hframe.
  - exists w.
    pose proof (unknown_type_frame Unmarshal c message wsMsg w Hsome Hunknown)
      as Hframe.
    split_and!; try done.
    + by rewrite Hsome, app_nil_r.
    + simpl. by rewrite Hframe.
Qed.

Lemma C9_malformed_frame_witness :
  ∃ w, run [Connect 1 10] NewWorld = Done w ∧
  ∃ w', ReadPump_frame sample_Unmarshal 1 [] w = Done w' ∧
        hub w' = hub w ∧ heap w' = heap w ∧
        Log w' = Log w ++ [LogUnmarshalError] ∧
        ReadPump sample_Unmarshal 1 [ReadFrame []; ReadFrame ping_frame] w =
          ReadPump sample_Unmarshal 1 [ReadFrame ping_frame] w'.
Proof.
  exists_Done.
  match goal with |- ∃ w', _ _ _ _ ?W = Done w' ∧ _ => set (w := W) end.
  apply (C9_malformed_frame_is_skipped sample_Unmarshal 1%positive []
           [ReadFrame ping_frame] w).
  left. reflexivity.
Defined.

(** ** Rooms and joined-sets (C2) *)




(** ** Duplicate registration (C3) *)

(** The live table is a map on identities, so it never holds two handles
    for one identity. *)
Lemma one_handle_per_identity (w : World) (id : N) (c c' : ptr) :
  clients (hub w) !! id = Some c → clients (hub w) !! id = Some c' → c = c'.
Proof. congruence. Qed.

(** C3 fails when the first connection had joined a room.  The second
    registration for identity 10 overwrites the table entry, and handle 1
    stays a member of room 5 although it is no longer in the live table.
    When the first connection then goes away, its unregistration deletes
    the entry of identity 10, which by now belongs to handle 2: handle 2 is
    dropped from the live table with its queue open, and its own
    unregistration later finds no entry and leaves it in room 5. *)
Theorem C3_second_register_leaves_stale_member :
  ∃ w, run [Connect 1 10; Join 1 5; Connect 2 10] NewWorld = Done w ∧
       clients (hub w) = {[10 := 2%positive]} ∧
       1%positive ∈ Room 5 w ∧ ¬ live 1 w ∧
  ∃ w', run [Join 2 5; Unregister 1] w = Done w' ∧
        clients (hub w') = ∅ ∧ ¬ queue_closed 2 w' ∧
  ∃ w'', run [Unregister 2] w' = Done w'' ∧
         2%positive ∈ Room 5 w'' ∧ ¬ queue_closed 2 w''.
Proof.
  exists_Done. split; [vm_compute; reflexivity|].
  split; [vm_compute; reflexivity|].
  split.
  { intros [id Hid]. change (({[10 := 2%positive]} : gmap N ptr) !! id = Some 1%positive) in Hid.
    apply lookup_singleton_Some in Hid as [_ Hid]. discriminate. }
  exists_Done. split; [vm_compute; reflexivity|].
  split.
  { intros (cl & Hcl & Hclosed). vm_compute in Hcl. injection Hcl as <-.
    discriminate. }
  exists_Done. split; [vm_compute; reflexivity|].
  intros (cl & Hcl & Hclosed). vm_compute in Hcl. injection Hcl as <-.
  discriminate.
Qed.

(** Once a second handle of the same identity is registered, the
    unregistration of a handle that was already unregistered is no longer a
    no-op: it finds the entry of the other handle, deletes it, and closes a
    channel that is closed already. *)
Example stale_unregister_panics :
  run [Connect 1 10; Unregister 1; Connect 2 10; Unregister 1] NewWorld = Panic.
Proof. vm_compute. reflexivity. Qed.

(** ** Overflow of an outbound queue (C1) *)

(** Processing a broadcast changes no room. *)
Lemma Run_broadcast_keeps_rooms (message : BroadcastMessage) (w w' : World) :
  Run_broadcast message w = Done w' → chatRooms (hub w') = chatRooms (hub w).
Proof. by intros (? & _)%Run_broadcast_Done. Qed.

(** C1 fails in its last part.  With the queue of handle 1 full, the next
    broadcast to room 5 does not block, closes the queue of handle 1,
    deletes its entry of the live table and puts the payload on the queue
    of handle 2; but handle 1 is still a member of room 5.  The
    unregistration that follows when its connection goes down finds no
    table entry and cleans up nothing, and the next broadcast to room 5
    sends on the closed channel and panics. *)
Theorem C1_overflow_leaves_member_in_room :
  ∃ w, run saturate NewWorld = Done w ∧
       length (queue 1 w) = 256%nat ∧ live 1 w ∧
  ∃ w', run [Submit {| ChatID := 5; Message := world; Exclude := 0 |}; Dispatch] w
          = Done w' ∧
        queue_closed 1 w' ∧ clients (hub w') = {[20 := 2%positive]} ∧
        queue 2 w' = [world] ∧
        1%positive ∈ Room 5 w' ∧
  ∃ w'', run [Unregister 1] w' = Done w'' ∧
         1%positive ∈ Room 5 w'' ∧
         run [Submit {| ChatID := 5; Message := world; Exclude := 0 |}; Dispatch] w''
           = Panic.
Proof.
  exists_Done. split; [vm_compute; reflexivity|].
  split; [exists 10; vm_compute; reflexivity|].
  exists_Done. split; [eexists; split; vm_compute; reflexivity|].
  split; [vm_compute; reflexivity|].
  split; [vm_compute; reflexivity|].
  split; [vm_compute; reflexivity|].
  exists_Done. split; vm_compute; reflexivity.
Qed.

(** * Further properties of the hub *)

(** ** How the broadcast case ends *)

Lemma offer_Panic_inv (message : BroadcastMessage) (c : ptr) (w : World) :
  offer message c w = Panic →
  heap w !! c = None ∨
  ∃ cl, heap w !! c = Some cl ∧ ID cl ≠ Exclude message ∧
        chan.closed (Send cl) = true.
Proof.
  unfold offer, deref. destruct (heap w !! c) as [cl|]; [|by left].
  cbn [obind]. intros Hpanic. right. exists cl. split; [done|].
  destruct (decide (ID cl ≠ Exclude message)) as [Hne|]; [|done].
  split; [done|]. unfold chan.try_send, chan.close in Hpanic.
  destruct (chan.closed (Send cl)) eqn:Hclosed; [done|]. cbn [obind] in Hpanic.
  destruct (chan.full (Send cl)); by cbn in Hpanic.
Qed.

Lemma range_room_Panic_inv (message : BroadcastMessage) (l : list ptr) (w : World) :
  NoDup l → range_room message l w = Panic →
  ∃ c, c ∈ l ∧
       (heap w !! c = None ∨
        ∃ cl, heap w !! c = Some cl ∧ ID cl ≠ Exclude message ∧
              chan.closed (Send cl) = true).
Proof.
  revert w. induction l as [|c l IH]; intros w Hnd; [done|].
  apply NoDup_cons in Hnd as [Hc Hnd]. simpl.
  destruct (offer message c w) as [w1| |] eqn:Hoffer; simpl.
  - intros Hrest. destruct (IH w1 Hnd Hrest) as (c' & Hin & Hc').
    exists c'. split; [set_solver|].
    apply offer_Done in Hoffer as (cl & _ & _ & Hheap & _).
    rewrite Hheap, lookup_insert_ne in Hc' by (by intros ->). done.
  - intros _. exists c. split; [set_solver|]. by apply offer_Panic_inv.
  - done.
Qed.

(** X1.  Processing an envelope never waits.  In a reachable world it
    panics exactly when the room holds a handle that the envelope does not
    exclude and whose queue has been closed, and it completes exactly when
    every member is excluded or has an open queue. *)
Theorem broadcast_case_outcome (message : BroadcastMessage) (w : World) :
  reachable w →
  Run_broadcast message w ≠ Blocked ∧
  (Run_broadcast message w = Panic ↔
   ∃ c cl, c ∈ Room (ChatID message) w ∧ heap w !! c = Some cl ∧
           ID cl ≠ Exclude message ∧ chan.closed (Send cl) = true) ∧
  ((∃ w', Run_broadcast message w = Done w') ↔
   ∀ c cl, c ∈ Room (ChatID message) w → heap w !! c = Some cl →
           ID cl = Exclude message ∨ chan.closed (Send cl) = false).
Proof.
  intros [Hmj _ _ _]%reachable_hub_inv.
  assert (Run_broadcast message w ≠ Blocked) as Hnb.
  { unfold Run_broadcast. destruct (chatRooms (hub w) !! ChatID message); [|done].
    apply range_room_not_Blocked. }
  split_and!; [done| |].
  - split.
    + unfold Run_broadcast, Room.
      destruct (chatRooms (hub w) !! ChatID message) as [room|] eqn:Hroom; [|done].
      intros (c & Hin & Hc)%range_room_Panic_inv; [|apply NoDup_elements].
      apply elem_of_elements in Hin.
      destruct (Hmj (ChatID message) c) as (cl & Hcl & _).
      { unfold Room. by rewrite Hroom. }
      destruct Hc as [Hnone|(cl' & Hcl' & Hne & Hclosed)]; [congruence|].
      exists c, cl'. by split_and!.
    + intros (c & cl & Hin & Hcl & Hne & Hclosed).
      by apply (Run_broadcast_Panic message w c cl).
  - split.
    + intros [w' Hrun] c cl Hin Hcl.
      apply Run_broadcast_Done in Hrun as (_ & _ & _ & Hall & _).
      destruct (Hall c Hin) as (cl' & Hcl' & Hacc).
      assert (cl' = cl) as -> by congruence. exact Hacc.
    + intros Hall. apply Run_broadcast_total. intros c Hin.
      destruct (Hmj _ c Hin) as (cl & Hcl & _). exists cl. split; [done|].
      by apply (Hall c cl).
Qed.

Lemma broadcast_case_outcome_witness :
  ∃ w, run (saturate ++
            [Submit {| ChatID := 5; Message := world; Exclude := 0 |}; Dispatch])
         NewWorld = Done w ∧
       Run_broadcast {| ChatID := 5; Message := hello; Exclude := 20 |} w = Panic ∧
       ∃ w', Run_broadcast {| ChatID := 5; Message := hello; Exclude := 10 |} w
               = Done w'.
Proof.
  exists_Done.
  match goal with |- Run_broadcast _ ?W = Panic ∧ _ => set (w := W) end.
  assert (reachable w) as Hw.
  { apply (reachable_run
             (saturate ++
              [Submit {| ChatID := 5; Message := world; Exclude := 0 |}; Dispatch])
             NewWorld); [apply reachable_init | vm_compute; reflexivity]. }
  split.
  - apply (broadcast_case_outcome _ w Hw).
    exists 1%positive. eexists. split_and!; try (vm_compute; reflexivity).
    vm_compute. discriminate.
  - apply (broadcast_case_outcome _ w Hw). intros c cl Hin Hcl.
    assert (c = 1%positive ∨ c = 2%positive) as [-> | ->].
    { assert (Room 5 w = {[1%positive; 2%positive]}) as Hroom
        by (vm_compute; reflexivity).
      simpl in Hin. rewrite Hroom in Hin. set_solver. }
    + vm_compute in Hcl. injection Hcl as <-. by left.
    + vm_compute in Hcl. injection Hcl as <-. by right.
Defined.

(** ** Map iteration order *)

(** X2.  Go ranges over a map in an order of its own choosing.  The
    broadcast loop gives the same outcome for every order in which the
    members of the room may be visited, and the loop of the unregister case
    gives the same registry for every order, and any repetition, of the
    conversation ids of the joined-set. *)
Theorem loops_do_not_depend_on_map_order :
  (∀ message w room l,
     chatRooms (hub w) !! ChatID message = Some room →
     NoDup l → (∀ c, c ∈ l ↔ c ∈ room) →
     range_room message l w = Run_broadcast message w) ∧
  (∀ client cl ids rooms,
     (∀ k, k ∈ ids ↔ k ∈ ChatRooms cl) →
     leave_rooms client ids rooms =
       leave_rooms client (elements (ChatRooms cl)) rooms).
Proof.
  split.
  - intros message w room l. apply Run_broadcast_any_order.
  - intros client cl ids rooms Hids. apply leave_rooms_any_order.
    intros k. by rewrite Hids, elem_of_elements.
Qed.

Lemma loops_do_not_depend_on_map_order_witness :
  ∃ w, run [Connect 1 10; Join 1 5; Join 1 6; Connect 2 20; Join 2 5] NewWorld
         = Done w ∧
       range_room {| ChatID := 5; Message := hello; Exclude := 0 |} [1; 2]%positive w
         = Run_broadcast {| ChatID := 5; Message := hello; Exclude := 0 |} w ∧
       range_room {| ChatID := 5; Message := hello; Exclude := 0 |} [2; 1]%positive w
         = Run_broadcast {| ChatID := 5; Message := hello; Exclude := 0 |} w ∧
       leave_rooms 1 [6; 5; 6] (chatRooms (hub w)) =
         leave_rooms 1
           (elements (ChatRooms (with_ChatRooms {[5; 6]} (NewClient 10))))
           (chatRooms (hub w)).
Proof.
  exists_Done.
  match goal with |- range_room _ _ ?W = _ ∧ _ => set (w := W) end.
  destruct loops_do_not_depend_on_map_order as [Hrange Hleave].
  split_and!.
  - apply (Hrange _ w {[1; 2]}%positive); [vm_compute; reflexivity| |set_solver].
    apply NoDup_cons. split; [set_solver|]. apply NoDup_singleton.
  - apply (Hrange _ w {[1; 2]}%positive); [vm_compute; reflexivity| |set_solver].
    apply NoDup_cons. split; [set_solver|]. apply NoDup_singleton.
  - apply Hleave. intros k. simpl. set_solver.
Defined.

(** ** What a processed envelope changes *)

(** X3.  When the hub has processed an envelope, the rooms, the rest of the
    mailbox and the log are as before, and no client record has appeared or
    gone.  A handle that is not a member of the room or that has the
    excluded identity is untouched.  Every other member keeps its identity,
    joined-set and connection; if its queue had room, the payload was
    appended to it exactly once, and if it was full the queue is closed
    with its content kept.  The live table has lost the entries of the
    identities of the members whose queue was full, and nothing else. *)
Theorem broadcast_case_effect (message : BroadcastMessage) (w w' : World) :
  Run_broadcast message w = Done w' →
  chatRooms (hub w') = chatRooms (hub w) ∧
  broadcast (hub w') = broadcast (hub w) ∧
  Log w' = Log w ∧
  (∀ c, heap w !! c = None → heap w' !! c = None) ∧
  (∀ c cl,
     heap w !! c = Some cl →
     ¬ (c ∈ Room (ChatID message) w ∧ ID cl ≠ Exclude message) →
     heap w' !! c = Some cl) ∧
  (∀ c cl,
     heap w !! c = Some cl →
     c ∈ Room (ChatID message) w → ID cl ≠ Exclude message →
     ∃ cl', heap w' !! c = Some cl' ∧
            ID cl' = ID cl ∧ ChatRooms cl' = ChatRooms cl ∧ Conn cl' = Conn cl ∧
            chan.cap (Send cl') = chan.cap (Send cl) ∧
            if chan.full (Send cl)
            then chan.buf (Send cl') = chan.buf (Send cl) ∧
                 chan.closed (Send cl') = true
            else chan.buf (Send cl') = chan.buf (Send cl) ++ [Message message] ∧
                 chan.closed (Send cl') = false) ∧
  (∀ id c,
     clients (hub w') !! id = Some c ↔
     clients (hub w) !! id = Some c ∧
     ¬ ∃ c0 cl0, c0 ∈ Room (ChatID message) w ∧ heap w !! c0 = Some cl0 ∧
                 ID cl0 = id ∧ ID cl0 ≠ Exclude message ∧
                 chan.full (Send cl0) = true).
Proof.
  intros Hrun.
  destruct (Run_broadcast_Done _ _ _ Hrun) as (Hrooms & Hbox & Hlog & Hall & Hheap).
  destruct (Run_broadcast_clients _ _ _ Hrun) as (Hsub & Hgone & Hsame).
  split_and!; try done.
  - intros c Hnone. rewrite Hheap, Hnone. by case_decide.
  - intros c cl Hcl Hnot. rewrite Hheap, Hcl. case_decide as Hin; [|done].
    simpl. f_equal. apply offered_excluded.
    destruct (decide (ID cl = Exclude message)); [done|]. by destruct Hnot.
  - intros c cl Hcl Hin Hne. exists (offered message cl).
    rewrite Hheap, Hcl, decide_True by done. split; [done|].
    rewrite ID_offered, ChatRooms_offered, Conn_offered. split_and!; try done.
    + unfold offered. rewrite decide_True by done.
      by destruct (chan.full (Send cl)).
    + unfold offered. rewrite decide_True by done.
      by destruct (chan.full (Send cl)).
  - intros id c. split.
    + intros Hid. split; [by apply Hsub|].
      intros (c0 & cl0 & Hin & Hcl0 & <- & Hne & Hfull).
      rewrite (Hgone c0 cl0 Hin Hcl0) in Hid; [done | by split].
    + intros [Hid Hnone]. rewrite Hsame; [done|].
      intros c0 cl0 Hin Hcl0 [Hne Hfull] Heq. apply Hnone.
      by exists c0, cl0.
Qed.

Lemma broadcast_case_effect_witness :
  ∃ w, run saturate NewWorld = Done w ∧
  ∃ w', Run_broadcast {| ChatID := 5; Message := world; Exclude := 0 |} w = Done w' ∧
        chatRooms (hub w') = chatRooms (hub w) ∧
        clients (hub w') !! 10 = None ∧
        clients (hub w') !! 20 = Some 2%positive ∧
        queue 2 w' = [world].
Proof.
  exists_Done.
  match goal with |- ∃ w', Run_broadcast _ ?W = Done w' ∧ _ => set (w := W) end.
  exists_Done.
  match goal with |- chatRooms (hub ?W) = _ ∧ _ => set (w' := W) end.
  destruct (broadcast_case_effect
              {| ChatID := 5; Message := world; Exclude := 0 |} w w')
    as (Hrooms & _ & _ & _ & _ & Hmember & Htable); [vm_compute; reflexivity|].
  split; [exact Hrooms|]. split_and!.
  - destruct (clients (hub w') !! 10) as [c|] eqn:Hc; [|done].
    apply Htable in Hc as [_ Hno]. exfalso. apply Hno.
    exists 1%positive. eexists. split_and!; try (vm_compute; reflexivity).
    vm_compute. discriminate.
  - apply Htable. split; [vm_compute; reflexivity|].
    intros (c0 & cl0 & Hin & Hcl0 & Hid & _ & Hfull).
    assert (c0 = 1%positive ∨ c0 = 2%positive) as [-> | ->].
    { assert (Room 5 w = {[1%positive; 2%positive]}) as Hroom
        by (vm_compute; reflexivity).
      simpl in Hin. rewrite Hroom in Hin. set_solver. }
    + vm_compute in Hcl0. injection Hcl0 as <-. discriminate.
    + vm_compute in Hcl0. injection Hcl0 as <-. discriminate.
  - destruct (Hmember 2%positive (with_ChatRooms {[5]} (NewClient 20)))
      as (cl' & Hcl' & _ & _ & _ & _ & Hbuf);
      [vm_compute; reflexivity | vm_compute; reflexivity | done |].
    unfold queue. rewrite Hcl'. by destruct Hbuf as [-> _].
Defined.

(** ** Capacities *)

Lemma bounded_NewWorld : bounded NewWorld.
Proof. split; simpl; try done; lia. Qed.

Lemma bounded_log (l : LogLine) (w : World) : bounded w → bounded (log_Printf l w).
Proof. intros [? ? ? ? ?]. by split. Qed.

(** A world that differs from a bounded one in the record of one client,
    whose queue is within its capacity of 256. *)
Lemma bounded_store (c : ptr) (cl : Client) (w : World) :
  bounded w → chan.cap (Send cl) = 256%nat →
  (length (chan.buf (Send cl)) ≤ 256)%nat → bounded (store c cl w).
Proof.
  intros [? ? ? Hcap Hlen] Hc Hl. split; try done.
  - intros c0 cl0. simpl. destruct (decide (c0 = c)) as [->|Hne].
    + rewrite lookup_insert_eq. by intros [= <-].
    + rewrite lookup_insert_ne by done. apply Hcap.
  - intros c0 cl0. simpl. destruct (decide (c0 = c)) as [->|Hne].
    + rewrite lookup_insert_eq. by intros [= <-].
    + rewrite lookup_insert_ne by done. apply Hlen.
Qed.

Lemma bounded_set_clients (f : gmap N ptr → gmap N ptr) (w : World) :
  bounded w → bounded (set_clients f w).
Proof. intros [? ? ? ? ?]. by split. Qed.

Lemma bounded_set_chatRooms (f : gmap N (gset ptr) → gmap N (gset ptr)) (w : World) :
  bounded w → bounded (set_chatRooms f w).
Proof. intros [? ? ? ? ?]. by split. Qed.

Lemma bounded_Run_broadcast (message : BroadcastMessage) (w w' : World) :
  bounded w → Run_broadcast message w = Done w' → bounded w'.
Proof.
  intros [Hmc Hmo Hml Hcap Hlen] Hrun.
  destruct (Run_broadcast_Done _ _ _ Hrun) as (_ & Hbox & _ & _ & Hheap).
  assert (∀ cl, chan.cap (Send cl) = 256%nat →
                (length (chan.buf (Send cl)) ≤ 256)%nat →
                chan.cap (Send (offered message cl)) = 256%nat ∧
                (length (chan.buf (Send (offered message cl))) ≤ 256)%nat) as Hoff.
  { intros cl Hc Hl. unfold offered. case_decide; [|done].
    destruct (chan.full (Send cl)) eqn:Hfull; simpl; [done|]. split; [done|].
    unfold chan.full in Hfull. apply Nat.leb_gt in Hfull.
    rewrite length_app. simpl. lia. }
  split; rewrite ?Hbox; try done.
  - intros c cl'. rewrite Hheap. case_decide; [|apply Hcap].
    destruct (heap w !! c) as [cl|] eqn:Hcl; [|done]. simpl. intros [= <-].
    apply Hoff; [by apply (Hcap c) | by apply (Hlen c)].
  - intros c cl'. rewrite Hheap. case_decide; [|apply Hlen].
    destruct (heap w !! c) as [cl|] eqn:Hcl; [|done]. simpl. intros [= <-].
    apply Hoff; [by apply (Hcap c) | by apply (Hlen c)].
Qed.

Lemma bounded_step (e : event) (w w' : World) :
  bounded w → step e w = Done w' → bounded w'.
Proof.
  intros Hb Hstep. destruct e as [c0 id|c0|c0 k|c0 k|m| |c0 ok]; simpl in Hstep.
  - apply HandleWebSocket_Done in Hstep as [_ ->].
    apply bounded_log, bounded_set_clients, bounded_store; simpl; try done. lia.
  - apply Run_unregister_Done in Hstep as (cl & Hcl & [[_ ->]|(_ & _ & ->)]);
      [by apply bounded_log|].
    apply bounded_log, bounded_set_chatRooms, bounded_store; simpl.
    + by apply bounded_set_clients.
    + by apply (queue_cap w Hb c0).
    + by apply (queue_len w Hb c0).
  - apply JoinChatRoom_Done in Hstep as (cl & Hcl & ->).
    apply bounded_log, bounded_store; simpl.
    + by apply bounded_set_chatRooms.
    + by apply (queue_cap w Hb c0).
    + by apply (queue_len w Hb c0).
  - apply LeaveChatRoom_Done in Hstep as (cl & Hcl & ->).
    apply bounded_log, bounded_store; simpl.
    + by apply bounded_set_chatRooms.
    + by apply (queue_cap w Hb c0).
    + by apply (queue_len w Hb c0).
  - apply BroadcastToChat_Done in Hstep as (_ & Hfull & ->).
    destruct Hb as [Hmc Hmo Hml Hcap Hlen]. split; simpl; try done.
    unfold chan.full in Hfull. apply Nat.leb_gt in Hfull.
    rewrite length_app. simpl. lia.
  - apply Run_select_broadcast_Done in Hstep as (m & rest & Hbuf & Hrun).
    eapply (bounded_Run_broadcast m); [|exact Hrun].
    destruct Hb as [Hmc Hmo Hml Hcap Hlen]. split; simpl; try done.
    rewrite Hbuf in Hml. simpl in Hml. lia.
  - apply WritePump_turn_Done in Hstep
      as (cl & Hcl & [(_ & _ & ->)|(m & rest & Hbuf & ->)]); [done|].
    assert (∀ w0, bounded w0 →
              bounded ((if ok then id else log_Printf LogWriteError) w0)) as Hlog.
    { intros w0 ?. destruct ok; [done | by apply bounded_log]. }
    apply Hlog, bounded_store; simpl; [done | by apply (queue_cap w Hb c0) |].
    pose proof (queue_len w Hb c0 cl Hcl) as Hl. rewrite Hbuf in Hl.
    simpl in Hl. lia.
Qed.

Lemma reachable_bounded (w : World) : reachable w → bounded w.
Proof.
  induction 1 as [|e w w' _ IH Hstep]; [apply bounded_NewWorld|].
  by apply (bounded_step e w w').
Qed.

(** X4.  In every reachable world the mailbox of the hub is open, has
    capacity 256 and holds at most 256 envelopes, and the outbound queue of
    every client has capacity 256 and holds at most 256 payloads. *)
Theorem channels_stay_within_capacity (w : World) :
  reachable w →
  chan.closed (broadcast (hub w)) = false ∧
  chan.cap (broadcast (hub w)) = 256%nat ∧
  (length (chan.buf (broadcast (hub w))) ≤ 256)%nat ∧
  ∀ c cl, heap w !! c = Some cl →
          chan.cap (Send cl) = 256%nat ∧
          (length (chan.buf (Send cl)) ≤ 256)%nat.
Proof.
  intros [? ? ? Hcap Hlen]%reachable_bounded. split_and!; try done.
  intros c cl Hcl. split; [by apply (Hcap c) | by apply (Hlen c)].
Qed.

Lemma channels_stay_within_capacity_witness :
  ∃ w, run saturate NewWorld = Done w ∧
       chan.closed (broadcast (hub w)) = false ∧
       chan.cap (broadcast (hub w)) = 256%nat ∧
       (length (chan.buf (broadcast (hub w))) ≤ 256)%nat ∧
       ∀ c cl, heap w !! c = Some cl →
               chan.cap (Send cl) = 256%nat ∧
               (length (chan.buf (Send cl)) ≤ 256)%nat.
Proof.
  exists_Done. apply channels_stay_within_capacity.
  apply (reachable_run saturate NewWorld);
    [apply reachable_init | vm_compute; reflexivity].
Defined.

(** ** Submitting and taking envelopes *)

(** X5.  In every reachable world [BroadcastToChat] never panics; it makes
    its caller wait exactly when the mailbox holds 256 envelopes, and
    otherwise puts the envelope at the end of the mailbox and changes
    nothing else.  The broadcast case of [Run] waits exactly when the
    mailbox is empty. *)
Theorem mailbox_blocks_only_at_its_bounds (chatID : N) (message : bytes)
    (excludeUserID : N) (w : World) :
  reachable w →
  BroadcastToChat chatID message excludeUserID w ≠ Panic ∧
  (BroadcastToChat chatID message excludeUserID w = Blocked ↔
   length (chan.buf (broadcast (hub w))) = 256%nat) ∧
  ((length (chan.buf (broadcast (hub w))) < 256)%nat →
   ∃ w', BroadcastToChat chatID message excludeUserID w = Done w' ∧
         chan.buf (broadcast (hub w')) =
           chan.buf (broadcast (hub w)) ++
           [{| ChatID := chatID; Message := message; Exclude := excludeUserID |}] ∧
         clients (hub w') = clients (hub w) ∧
         chatRooms (hub w') = chatRooms (hub w) ∧
         heap w' = heap w ∧ Log w' = Log w) ∧
  (Run_turn from_broadcast w = Blocked ↔ chan.buf (broadcast (hub w)) = []).
Proof.
  intros Hw. destruct (reachable_bounded w Hw) as [Hcap Hopen Hlen _ _].
  unfold BroadcastToChat, chan.send, chan.full. rewrite Hopen, Hcap.
  split_and!.
  - by destruct (256 <=? length (chan.buf (broadcast (hub w))))%nat.
  - destruct (256 <=? length (chan.buf (broadcast (hub w))))%nat eqn:Hfull;
      simpl.
    + apply Nat.leb_le in Hfull. split; [lia | done].
    + apply Nat.leb_gt in Hfull. split; [done | lia].
  - intros Hroom. rewrite (proj2 (Nat.leb_gt _ _)) by done. simpl.
    by eexists.
  - simpl. unfold Run_select_broadcast, chan.recv. rewrite Hopen.
    destruct (chan.buf (broadcast (hub w))) as [|m rest]; simpl; [done|].
    split; [|done]. intros Hblocked. exfalso. revert Hblocked.
    unfold Run_broadcast. simpl.
    destruct (chatRooms (hub w) !! ChatID m); [|done].
    apply range_room_not_Blocked.
Qed.

Lemma mailbox_blocks_only_at_its_bounds_witness :
  ∃ w, run (replicate 256 (Submit {| ChatID := 5; Message := hello; Exclude := 0 |}))
         NewWorld = Done w ∧
       BroadcastToChat 5 world 0 w = Blocked ∧
       Run_turn from_broadcast NewWorld = Blocked.
Proof.
  exists_Done.
  match goal with |- BroadcastToChat _ _ _ ?W = _ ∧ _ => set (w := W) end.
  split.
  - apply (mailbox_blocks_only_at_its_bounds 5 world 0 w);
      [|vm_compute; reflexivity].
    apply (reachable_run
             (replicate 256
                (Submit {| ChatID := 5; Message := hello; Exclude := 0 |}))
             NewWorld); [apply reachable_init | vm_compute; reflexivity].
  - apply (mailbox_blocks_only_at_its_bounds 5 world 0 NewWorld);
      [apply reachable_init | reflexivity].
Defined.

(** ** The writer *)

Lemma WritePump_turn_cons (c : ptr) (ok : bool) (w : World) (cl : Client)
    (message : bytes) (rest : list bytes) :
  heap w !! c = Some cl → chan.buf (Send cl) = message :: rest →
  WritePump_turn c ok w =
    Done ((if ok then id else log_Printf LogWriteError)
            (store c
               {| ID := ID cl; Conn := Conn cl ++ [message];
                  Send := chan.Make rest (chan.cap (Send cl))
                            (chan.closed (Send cl));
                  ChatRooms := ChatRooms cl |} w)).
Proof.
  intros Hcl Hbuf. unfold WritePump_turn, deref, chan.recv.
  rewrite Hcl. cbn [obind]. rewrite Hbuf. cbn [obind]. by destruct ok.
Qed.

(** X6.  The writer hands the payloads to the connection in the order in
    which they were queued: after [n] turns whose writes succeed, the first
    [n] payloads of the queue have been added, in order, to what the
    connection was given, the rest is still queued, and nothing else has
    changed.  This holds for a closed queue as well: what was queued before
    the close is still written out.  On an empty queue the writer waits if
    the queue is open, and its loop ends, changing nothing, if it is
    closed. *)
Theorem writer_drains_in_queue_order (c : ptr) (cl : Client) (w : World) :
  heap w !! c = Some cl →
  (∀ n, (n ≤ length (chan.buf (Send cl)))%nat →
     ∃ w', run (replicate n (Write c true)) w = Done w' ∧
           heap w' !! c =
             Some {| ID := ID cl;
                     Conn := Conn cl ++ take n (chan.buf (Send cl));
                     Send := chan.Make (drop n (chan.buf (Send cl)))
                               (chan.cap (Send cl)) (chan.closed (Send cl));
                     ChatRooms := ChatRooms cl |} ∧
           (∀ c', c' ≠ c → heap w' !! c' = heap w !! c') ∧
           hub w' = hub w ∧ Log w' = Log w) ∧
  (∀ ok, chan.buf (Send cl) = [] →
     WritePump_turn c ok w =
       if chan.closed (Send cl) then Done w else Blocked).
Proof.
  intros Hcl. split.
  - intros n. revert w cl Hcl. induction n as [|n IH]; intros w cl Hcl Hn.
    + exists w. split_and!; try done. rewrite Hcl. f_equal.
      destruct cl as [i cn [b cp cd] cr]. simpl. by rewrite app_nil_r.
    + destruct (chan.buf (Send cl)) as [|m rest] eqn:Hbuf; [simpl in Hn; lia|].
      simpl in Hn.
      set (cl1 := {| ID := ID cl; Conn := Conn cl ++ [m];
                     Send := chan.Make rest (chan.cap (Send cl))
                               (chan.closed (Send cl));
                     ChatRooms := ChatRooms cl |}).
      destruct (IH (store c cl1 w) cl1) as (w' & Hrun & Hc & Hother & Hhub & Hlog).
      { simpl. apply lookup_insert_eq. }
      { simpl. lia. }
      exists w'. split_and!.
      * cbn [replicate run step]. rewrite (WritePump_turn_cons c true w cl m rest)
          by done. cbn [obind]. exact Hrun.
      * rewrite Hc. simpl. by rewrite <- app_assoc.
      * intros c' Hne. rewrite Hother by done. simpl. by rewrite lookup_insert_ne.
      * by rewrite Hhub.
      * by rewrite Hlog.
  - intros ok Hbuf. unfold WritePump_turn, deref, chan.recv.
    rewrite Hcl. cbn [obind]. rewrite Hbuf.
    by destruct (chan.closed (Send cl)).
Qed.

Lemma writer_drains_in_queue_order_witness :
  ∃ w, run [Connect 1 10; Join 1 5; Connect 2 20; Join 2 5;
            Submit {| ChatID := 5; Message := hello; Exclude := 20 |}; Dispatch;
            Submit {| ChatID := 5; Message := world; Exclude := 20 |}; Dispatch;
            Unregister 1] NewWorld = Done w ∧
  ∃ w', run (replicate 2 (Write 1 true)) w = Done w' ∧
        (∃ cl', heap w' !! 1%positive = Some cl' ∧ Conn cl' = [hello; world] ∧
                chan.buf (Send cl') = [] ∧ chan.closed (Send cl') = true) ∧
        WritePump_turn 1 true w' = Done w'.
Proof.
  exists_Done.
  match goal with |- ∃ w', run _ ?W = Done w' ∧ _ => set (w := W) end.
  set (cl := {| ID := 10; Conn := [];
                Send := chan.Make [hello; world] 256 true;
                ChatRooms := {[5]} |}).
  destruct (writer_drains_in_queue_order 1%positive cl w) as [Hturns _];
    [vm_compute; reflexivity|].
  destruct (Hturns 2%nat) as (w' & Hrun & Hcl' & _); [simpl; lia|].
  exists w'. split; [exact Hrun|]. split.
  - eexists. split; [exact Hcl'|]. by split_and!.
  - destruct (writer_drains_in_queue_order 1%positive _ w' Hcl') as [_ Hempty].
    apply (Hempty true). reflexivity.
Defined.

(** ** Closed queues *)

Lemma drained_refl (cl : Client) : chan.closed (Send cl) = true → drained cl cl.
Proof. by intros ?; split_and!. Qed.

Lemma drained_trans (cl1 cl2 cl3 : Client) :
  drained cl1 cl2 → drained cl2 cl3 → drained cl1 cl3.
Proof. intros (? & ? & ?) (? & ? & ?). split_and!; congruence. Qed.

Lemma step_drained (e : event) (w w' : World) (c : ptr) (cl : Client) :
  step e w = Done w' → heap w !! c = Some cl → chan.closed (Send cl) = true →
  ∃ cl', heap w' !! c = Some cl' ∧ drained cl cl'.
Proof.
  intros Hstep Hcl Hclosed.
  destruct e as [c0 id|c0|c0 k|c0 k|m| |c0 ok]; simpl in Hstep.
  - apply HandleWebSocket_Done in Hstep as [Hfresh ->]. simpl.
    rewrite lookup_insert_ne by congruence. eauto using drained_refl.
  - apply Run_unregister_Done in Hstep as (cl0 & Hcl0 & [[_ ->]|(_ & Hopen & ->)]);
      simpl; [eauto using drained_refl|].
    destruct (decide (c0 = c)) as [->|Hc0]; [congruence|].
    rewrite lookup_insert_ne by done. eauto using drained_refl.
  - apply JoinChatRoom_Done in Hstep as (cl0 & Hcl0 & ->). simpl.
    destruct (decide (c0 = c)) as [->|Hc0].
    + rewrite lookup_insert_eq. eexists. split; [done|].
      assert (cl0 = cl) as -> by congruence. by split_and!.
    + rewrite lookup_insert_ne by done. eauto using drained_refl.
  - apply LeaveChatRoom_Done in Hstep as (cl0 & Hcl0 & ->). simpl.
    destruct (decide (c0 = c)) as [->|Hc0].
    + rewrite lookup_insert_eq. eexists. split; [done|].
      assert (cl0 = cl) as -> by congruence. by split_and!.
    + rewrite lookup_insert_ne by done. eauto using drained_refl.
  - apply BroadcastToChat_Done in Hstep as (_ & _ & ->). simpl.
    eauto using drained_refl.
  - apply Run_select_broadcast_Done in Hstep as (m & rest & _ & Hrun).
    apply Run_broadcast_Done in Hrun as (_ & _ & _ & Hall & Hheap).
    rewrite Hheap. simpl. rewrite Hcl. case_decide as Hin; simpl;
      [|eauto using drained_refl].
    destruct (Hall c Hin) as (cl0 & Hcl0 & [Hex|Hopen]); simpl in Hcl0.
    + assert (cl0 = cl) as -> by congruence.
      rewrite offered_excluded by done. eauto using drained_refl.
    + congruence.
  - apply WritePump_turn_Done in Hstep
      as (cl0 & Hcl0 & [(_ & _ & ->)|(m & rest & Hbuf & ->)]);
      [eauto using drained_refl|].
    assert (∀ w0, heap ((if ok then id else log_Printf LogWriteError) w0) = heap w0)
      as -> by (intros; by destruct ok).
    simpl. destruct (decide (c0 = c)) as [->|Hc0].
    + rewrite lookup_insert_eq. eexists. split; [done|].
      assert (cl0 = cl) as -> by congruence.
      split_and!; simpl; [done..|]. by rewrite Hbuf, <- app_assoc.
    + rewrite lookup_insert_ne by done. eauto using drained_refl.
Qed.

(** X7.  A closed queue is never reopened and nothing is ever put on it:
    whatever the server does afterwards, as long as it does not panic, the
    client keeps its identity and its queue stays closed, and what its
    connection was given followed by what is still queued stays the same
    sequence, so the queue only loses payloads at its head, to the
    writer. *)
Theorem closed_queue_is_final (es : list event) (w w' : World)
    (c : ptr) (cl : Client) :
  run es w = Done w' → heap w !! c = Some cl → chan.closed (Send cl) = true →
  ∃ cl', heap w' !! c = Some cl' ∧
         ID cl' = ID cl ∧
         chan.closed (Send cl') = true ∧
         Conn cl' ++ chan.buf (Send cl') = Conn cl ++ chan.buf (Send cl).
Proof.
  revert w cl. induction es as [|e es IH]; intros w cl; simpl.
  - intros [= <-] Hcl Hclosed. by exists cl.
  - intros Hrun Hcl Hclosed. obind_inv Hrun.
    destruct (step_drained e w a c cl Hrunl Hcl Hclosed)
      as (cl1 & Hcl1 & Hid1 & Hclosed1 & Hout1).
    destruct (IH a cl1 Hrunr Hcl1 Hclosed1) as (cl2 & Hcl2 & Hid2 & Hclosed2 & Hout2).
    exists cl2. split_and!; congruence.
Qed.

Lemma closed_queue_is_final_witness :
  ∃ w, run [Connect 1 10; Join 1 5; Connect 2 20; Join 2 5;
            Submit {| ChatID := 5; Message := hello; Exclude := 20 |}; Dispatch;
            Unregister 1] NewWorld = Done w ∧
  ∃ w', run [Submit {| ChatID := 6; Message := world; Exclude := 0 |}; Dispatch;
             Write 1 true; Join 2 6] w = Done w' ∧
  ∃ cl', heap w' !! 1%positive = Some cl' ∧
         ID cl' = 10 ∧
         chan.closed (Send cl') = true ∧
         Conn cl' ++ chan.buf (Send cl') = [hello].
Proof.
  exists_Done.
  match goal with |- ∃ w', run _ ?W = Done w' ∧ _ => set (w := W) end.
  exists_Done.
  match goal with |- ∃ cl', heap ?W !! _ = _ ∧ _ => set (w' := W) end.
  apply (closed_queue_is_final
           [Submit {| ChatID := 6; Message := world; Exclude := 0 |}; Dispatch;
            Write 1 true; Join 2 6] w w' 1%positive
           {| ID := 10; Conn := []; Send := chan.Make [hello] 256 true;
              ChatRooms := {[5]} |}); vm_compute; reflexivity.
Defined.

(** ** The live table and the rooms hold no dangling handle *)

(** X8.  In every reachable world an entry of the live table, filed under
    an identity, is a handle of that identity whose record exists and whose
    queue is open, and a handle is filed under one identity at most; and
    every member of a room is a handle whose record exists. *)
Theorem table_and_rooms_hold_existing_handles (w : World) :
  reachable w →
  (∀ id c,
     clients (hub w) !! id = Some c →
     ∃ cl, heap w !! c = Some cl ∧ ID cl = id ∧ chan.closed (Send cl) = false ∧
           ∀ id', clients (hub w) !! id' = Some c → id' = id) ∧
  (∀ chatID c, c ∈ Room chatID w → is_Some (heap w !! c)).
Proof.
  intros [Hmj _ Htab _]%reachable_hub_inv. split.
  - intros id c Hid. destruct (Htab id c Hid) as (cl & Hcl & Hidcl & Hopen).
    exists cl. split_and!; try done. intros id' Hid'.
    destruct (Htab id' c Hid') as (cl' & Hcl' & Hidcl' & _). congruence.
  - intros chatID c Hin. destruct (Hmj chatID c Hin) as (cl & Hcl & _).
    by exists cl.
Qed.

Lemma table_and_rooms_hold_existing_handles_witness :
  ∃ w, run [Connect 1 10; Join 1 5; Connect 2 10; Join 2 5; Unregister 1]
         NewWorld = Done w ∧
       (∀ id c,
          clients (hub w) !! id = Some c →
          ∃ cl, heap w !! c = Some cl ∧ ID cl = id ∧
                chan.closed (Send cl) = false ∧
                ∀ id', clients (hub w) !! id' = Some c → id' = id) ∧
       (∀ chatID c, c ∈ Room chatID w → is_Some (heap w !! c)).
Proof.
  exists_Done. apply table_and_rooms_hold_existing_handles.
  apply (reachable_run
           [Connect 1 10; Join 1 5; Connect 2 10; Join 2 5; Unregister 1] NewWorld);
    [apply reachable_init | vm_compute; reflexivity].
Defined.

(** ** The reader *)






(** ** Leaving a room that was not joined *)

(** X11.  In every reachable world, [LeaveChatRoom] for a conversation that
    the handle has not joined changes neither the hub nor any client,
    whether or not the room exists; in particular a second [LeaveChatRoom]
    right after a first changes nothing any more. *)
Theorem leave_of_a_room_not_joined_is_a_noop (c : ptr) (chatID : N) (w : World) :
  reachable w → is_Some (heap w !! c) →
  (¬ joined c chatID w →
   ∃ w', LeaveChatRoom c chatID w = Done w' ∧ hub w' = hub w ∧ heap w' = heap w) ∧
  (∀ w1, LeaveChatRoom c chatID w = Done w1 →
         ∃ w2, LeaveChatRoom c chatID w1 = Done w2 ∧
               hub w2 = hub w1 ∧ heap w2 = heap w1).
Proof.
  assert (∀ w0, hub_inv w0 → is_Some (heap w0 !! c) → ¬ joined c chatID w0 →
            ∃ w', LeaveChatRoom c chatID w0 = Done w' ∧
                  hub w' = hub w0 ∧ heap w' = heap w0) as Hnoop.
  { intros w0 [Hmj _ _ Hne] [cl Hcl] Hnj.
    assert (chatID ∉ ChatRooms cl) as Hk by (intros ?; apply Hnj; by exists cl).
    assert (c ∉ Room chatID w0) as Hout by (intros ?; by apply Hnj, Hmj).
    eexists. split; [apply LeaveChatRoom_Done; by exists cl|]. split.
    - apply hub_eq; try done. simpl. apply map_eq. intros k.
      rewrite lookup_leave_room. case_decide as Hck; [subst k|done].
      unfold Room in Hout.
      destruct (chatRooms (hub w0) !! chatID) as [room|] eqn:Hroom; [|done].
      simpl in Hout. unfold without.
      assert (room ∖ {[c]} = room) as -> by set_solver.
      case_decide as Hs; [|done]. apply size_empty_inv in Hs. exfalso.
      apply (Hne chatID room Hroom). by unfold_leibniz.
    - simpl. apply insert_id. rewrite Hcl. f_equal. symmetry.
      apply with_ChatRooms_id. set_solver. }
  intros Hw Hc. pose proof (reachable_hub_inv w Hw) as Hinv. split.
  - by apply Hnoop.
  - intros w1 Hleave. apply Hnoop.
    + by apply (hub_inv_Leave c chatID w w1).
    + apply LeaveChatRoom_Done in Hleave as (cl & _ & ->). simpl.
      rewrite lookup_insert_eq. by eexists.
    + apply LeaveChatRoom_Done in Hleave as (cl & _ & ->).
      intros (cl' & Hcl' & Hin). simpl in Hcl'. rewrite lookup_insert_eq in Hcl'.
      injection Hcl' as <-. simpl in Hin. set_solver.
Qed.

Lemma leave_of_a_room_not_joined_is_a_noop_witness :
  ∃ w, run [Connect 1 10; Join 1 5; Connect 2 20] NewWorld = Done w ∧
       (∃ w', LeaveChatRoom 2 5 w = Done w' ∧ hub w' = hub w ∧ heap w' = heap w) ∧
       (∃ w', LeaveChatRoom 2 7 w = Done w' ∧ hub w' = hub w ∧ heap w' = heap w) ∧
       ∃ w1, LeaveChatRoom 1 5 w = Done w1 ∧
       ∃ w2, LeaveChatRoom 1 5 w1 = Done w2 ∧ hub w2 = hub w1 ∧ heap w2 = heap w1.
Proof.
  exists_Done.
  match goal with |- (∃ w', LeaveChatRoom _ _ ?W = _ ∧ _) ∧ _ => set (w := W) end.
  assert (reachable w) as Hw.
  { apply (reachable_run [Connect 1 10; Join 1 5; Connect 2 20] NewWorld);
      [apply reachable_init | vm_compute; reflexivity]. }
  split_and!.
  - destruct (leave_of_a_room_not_joined_is_a_noop 2%positive 5 w Hw) as [Hn _];
      [by eexists|].
    apply Hn. intros (cl & Hcl & Hin). vm_compute in Hcl. injection Hcl as <-.
    vm_compute in Hin. set_solver.
  - destruct (leave_of_a_room_not_joined_is_a_noop 2%positive 7 w Hw) as [Hn _];
      [by eexists|].
    apply Hn. intros (cl & Hcl & Hin). vm_compute in Hcl. injection Hcl as <-.
    vm_compute in Hin. set_solver.
  - exists_Done.
    match goal with |- ∃ w2, LeaveChatRoom _ _ ?W = _ ∧ _ => set (w1 := W) end.
    destruct (leave_of_a_room_not_joined_is_a_noop 1%positive 5 w Hw) as [_ Hi];
      [by eexists|].
    apply Hi. vm_compute. reflexivity.
Defined.

(** ** A connection that comes and goes *)

(** X12.  A connection that is registered and unregistered at once leaves
    the rooms and the mailbox as they were and leaves its client behind
    with a closed, empty queue.  If its identity had no entry in the live
    table, the hub is as before.  If it had one, that entry is gone too:
    the handle that was live under the identity has been dropped from the
    table without being unregistered. *)
Theorem connect_then_unregister (c : ptr) (userID : N) (w : World) :
  heap w !! c = None →
  ∃ w', run [Connect c userID; Unregister c] w = Done w' ∧
        clients (hub w') = delete userID (clients (hub w)) ∧
        chatRooms (hub w') = chatRooms (hub w) ∧
        broadcast (hub w') = broadcast (hub w) ∧
        heap w' = <[c := with_Send (chan.Make [] 256 true) (NewClient userID)]>
                    (heap w) ∧
        (clients (hub w) !! userID = None → hub w' = hub w).
Proof.
  intros Hfresh. eexists. split.
  { cbn [run step obind]. unfold HandleWebSocket. rewrite Hfresh.
    cbn [Run_turn]. unfold Run_register, deref. cbn [heap store obind].
    rewrite lookup_insert_eq. cbn [obind ID NewClient].
    unfold Run_unregister, deref.
    cbn [heap hub clients log_Printf set_clients store obind].
    rewrite lookup_insert_eq. cbn [obind ID NewClient].
    rewrite lookup_insert_eq. cbn. reflexivity. }
  cbn [hub heap clients chatRooms broadcast log_Printf set_chatRooms store
       set_clients].
  assert (leave_rooms c (elements (∅ : gset N)) (chatRooms (hub w)) =
          chatRooms (hub w)) as Hrooms by by rewrite elements_empty.
  split_and!.
  - by rewrite delete_insert_eq.
  - exact Hrooms.
  - done.
  - by rewrite insert_insert_eq.
  - intros Hnone. apply hub_eq; cbn [clients chatRooms broadcast]; [|done..].
    rewrite delete_insert_eq. by apply delete_id.
Qed.

Lemma connect_then_unregister_witness :
  ∃ w, run [Connect 1 10; Join 1 5] NewWorld = Done w ∧
  ∃ w', run [Connect 2 10; Unregister 2] w = Done w' ∧
        clients (hub w) !! 10 = Some 1%positive ∧
        clients (hub w') !! 10 = None ∧
        chatRooms (hub w') = chatRooms (hub w).
Proof.
  exists_Done.
  match goal with |- ∃ w', run _ ?W = Done w' ∧ _ => set (w := W) end.
  destruct (connect_then_unregister 2%positive 10 w)
    as (w' & Hrun & Hclients & Hrooms & _); [vm_compute; reflexivity|].
  exists w'. split; [exact Hrun|]. split; [vm_compute; reflexivity|].
  split; [rewrite Hclients; apply lookup_delete_eq | exact Hrooms].
Defined.

(** * Properties of the services *)

Lemma swap_ends {Message : Type} (pre mid post : list Message) (x y : Message) :
  swap (Z.of_nat (length pre)) (Z.of_nat (length pre + S (length mid)))
       (pre ++ x :: mid ++ y :: post)
  = Done (pre ++ y :: mid ++ x :: post).
Proof.
  unfold swap, index.
  rewrite !decide_True by lia. rewrite !Nat2Z.id.
  assert ((pre ++ x :: mid ++ y :: post) !! (length pre + S (length mid))%nat
          = Some y) as ->.
  { change (pre ++ x :: mid ++ y :: post)
      with (pre ++ (x :: mid) ++ y :: post).
    rewrite (assoc_L app). apply list_lookup_middle.
    rewrite length_app. by cbn. }
  rewrite list_lookup_middle by done. cbn [obind]. f_equal.
  replace (<[length pre:=y]> (pre ++ x :: mid ++ y :: post))
    with (pre ++ y :: mid ++ y :: post).
  2:{ rewrite insert_app_r_alt by lia. by rewrite Nat.sub_diag. }
  rewrite insert_app_r. f_equal.
  change (y :: mid ++ y :: post) with ((y :: mid) ++ y :: post).
  rewrite insert_app_r_alt by (cbn [length]; lia).
  cbn [length]. by rewrite Nat.sub_diag.
Qed.

Lemma reverse_turns_middle {Message : Type} (turns : nat)
    (mid pre post : list Message) :
  length pre = length post → (length mid ≤ S turns)%nat →
  reverse_turns turns (Z.of_nat (length pre))
                (Z.of_nat (length pre) + Z.of_nat (length mid) - 1)
                (pre ++ mid ++ post)
  = Done (pre ++ reverse mid ++ post).
Proof.
  revert mid pre post.
  induction turns as [|turns IH]; intros mid pre post Hlen Hturns.
  { cbn [reverse_turns].
    destruct mid as [|x [|y mid]]; [| |cbn in Hturns; lia];
      (destruct (decide _) as [Hlt|_]; [cbn in Hlt; lia|done]). }
  cbn [reverse_turns].
  destruct mid as [|x mid].
  { destruct (decide _) as [Hlt|_]; [cbn in Hlt; lia|]. done. }
  destruct (decide (mid = [])) as [->|Hne].
  { destruct (decide _) as [Hlt|_]; [cbn in Hlt; lia|]. done. }
  destruct (exists_last Hne) as (mid' & y & ->).
  rewrite length_cons, length_app in Hturns |- *. cbn [length] in Hturns |- *.
  destruct (decide _) as [_|Hge]; [|lia].
  replace (Z.of_nat (length pre) + Z.of_nat (S (length mid' + 1)) - 1)%Z
    with (Z.of_nat (length pre + S (length mid'))) by lia.
  replace (pre ++ (x :: mid' ++ [y]) ++ post)
    with (pre ++ x :: mid' ++ y :: post)
    by (cbn [app]; by rewrite <- (assoc_L app)).
  rewrite swap_ends.
  cbn [obind].
  specialize (IH mid' (pre ++ [y]) (x :: post)).
  rewrite length_app in IH. cbn [length] in IH.
  replace (Z.of_nat (length pre) + 1)%Z
    with (Z.of_nat (length pre + 1)) by lia.
  replace (Z.of_nat (length pre + S (length mid')) - 1)%Z
    with (Z.of_nat (length pre + 1) + Z.of_nat (length mid') - 1)%Z by lia.
  replace (pre ++ y :: mid' ++ x :: post)
    with ((pre ++ [y]) ++ mid' ++ x :: post) by (by rewrite <- (assoc_L app)).
  rewrite IH by (cbn; lia).
  f_equal. rewrite reverse_cons, reverse_app. cbn.
  by rewrite <- !(assoc_L app).
Qed.

(** X13.  [ChatService.GetMessages] never panics: for every result of the
    query, the empty one included, the loop ends with all its indices in
    range, and the rows are returned in the opposite order, last row of the
    query first, together with the error of the query as it was.  Reversing
    twice gives the rows back. *)
Theorem GetMessages_returns_the_rows_reversed {Message : Type}
    (Find : N → Z → Z → list Message * option error)
    (chatID : N) (limit offset : Z) :
  GetMessages Find chatID limit offset
  = Done (reverse (Find chatID limit offset).1, (Find chatID limit offset).2) ∧
  ∀ messages : list Message,
    reverse_loop 0 (Z.of_nat (length messages) - 1) messages
      = Done (reverse messages) ∧
    (messages' ←' reverse_loop 0 (Z.of_nat (length messages) - 1) messages;
     reverse_loop 0 (Z.of_nat (length messages') - 1) messages')
      = Done messages.
Proof.
  assert (∀ messages : list Message,
            reverse_loop 0 (Z.of_nat (length messages) - 1) messages
            = Done (reverse messages)) as Hloop.
  { intros messages.
    pose proof (reverse_turns_middle (Z.to_nat (Z.of_nat (length messages) - 1 - 0))
                  messages [] [] eq_refl ltac:(lia)) as H.
    cbn [length app] in H. rewrite !app_nil_r in H.
    change (Z.of_nat 0) with 0%Z in H. by rewrite Z.add_0_l in H. }
  split.
  - unfold GetMessages. destruct (Find chatID limit offset) as [messages err].
    by rewrite Hloop.
  - intros messages. split; [apply Hloop|].
    rewrite Hloop. cbn [obind]. rewrite Hloop. by rewrite reverse_involutive.
Qed.

(** ** The group service *)

Lemma statement_unfold {A : Type} (failed : A) (exec : DB → A * DB) (db : DB) :
  statement failed exec db =
    if bool_decide (head (failing db) = Some true)
    then (failed, set_failing (tail (failing db)) db)
    else exec (set_failing (tail (failing db)) db).
Proof.
  unfold statement. destruct db as [t s [|[] f]]; cbn; try done.
Qed.

Lemma Commit_unfold (tx : Tables) (db : DB) :
  Commit tx db =
    if bool_decide (head (failing db) = Some true)
    then (Some database_error, set_failing (tail (failing db)) (set_tables tx db))
    else (None, set_failing (tail (failing db)) db).
Proof.
  unfold Commit. destruct db as [t s [|[] f]]; cbn; try done.
Qed.

Lemma filter_nil_iff {A : Type} (P : A → Prop) `{!∀ x, Decision (P x)}
    (l : list A) :
  filter P l = [] ↔ ∀ x, x ∈ l → ¬ P x.
Proof.
  split.
  - intros Hnil x Hx HP.
    assert (x ∈ filter P l) as Hin by (by apply list_elem_of_filter).
    rewrite Hnil in Hin. by apply not_elem_of_nil in Hin.
  - intros Hnone. destruct (filter P l) as [|x l'] eqn:Hf; [done|].
    assert (x ∈ filter P l) as Hin by (rewrite Hf; apply list_elem_of_here).
    apply list_elem_of_filter in Hin as [HP Hx]. by destruct (Hnone x Hx).
Qed.

Lemma is_admin_iff (groupID userID : N) (db : DB) :
  is_admin groupID userID db ↔
  ∃ m, m ∈ group_members (tables db) ∧
       GroupID m = groupID ∧ UserID m = userID ∧ Role m = "admin"%string.
Proof.
  unfold is_admin. split.
  - intros Hin. by eexists.
  - intros ([g u r] & Hin & Hg & Hu & Hr). cbn in *. by subst.
Qed.

Lemma is_member_iff (groupID userID : N) (db : DB) :
  is_member groupID userID db ↔
  ∃ m, m ∈ group_members (tables db) ∧ GroupID m = groupID ∧ UserID m = userID.
Proof.
  unfold is_member. split.
  - intros [role Hin]. by eexists.
  - intros ([g u r] & Hin & Hg & Hu). cbn in *. subst. by exists r.
Qed.

(** What the admin check of the service finds. *)
Lemma admin_check (groupID userID : N) (db : DB) :
  filter (λ m, GroupID m = groupID ∧ UserID m = userID ∧
               Role m = "admin"%string) (group_members (tables db)) = [] ↔
  ¬ is_admin groupID userID db.
Proof.
  rewrite filter_nil_iff, is_admin_iff. split.
  - intros Hnone (m & Hin & H). by apply (Hnone m Hin).
  - intros Hno m Hin H. apply Hno. by exists m.
Qed.

Lemma member_check (groupID userID : N) (db : DB) :
  filter (λ m, GroupID m = groupID ∧ UserID m = userID)
         (group_members (tables db)) = [] ↔
  ¬ is_member groupID userID db.
Proof.
  rewrite filter_nil_iff, is_member_iff. split.
  - intros Hnone (m & Hin & H). by apply (Hnone m Hin).
  - intros Hno m Hin H. apply Hno. by exists m.
Qed.

Lemma First_member_admin (groupID userID : N) (db : DB) :
  ∃ db1, tables db1 = tables db ∧ groups_id_seq db1 = groups_id_seq db ∧
         failing db1 = tail (failing db) ∧
         ((First_member (λ m, GroupID m = groupID ∧ UserID m = userID ∧
                              Role m = "admin"%string) db).2 = db1) ∧
         match (First_member (λ m, GroupID m = groupID ∧ UserID m = userID ∧
                                   Role m = "admin"%string) db).1 with
         | None => is_admin groupID userID db
         | Some _ => head (failing db) = Some true ∨ ¬ is_admin groupID userID db
         end.
Proof.
  exists (set_failing (tail (failing db)) db).
  unfold First_member. rewrite statement_unfold.
  case_bool_decide as Hf; cbn [fst snd]; split_and!; try done; [by left|].
  cbn [tables set_failing].
  destruct (filter _ _) eqn:Hfilter.
  - right. by apply admin_check.
  - apply is_admin_iff. exists g.
    assert (g ∈ filter (λ m, GroupID m = groupID ∧ UserID m = userID ∧
                             Role m = "admin"%string)
                       (group_members (tables db))) as Hin
      by (rewrite Hfilter; apply list_elem_of_here).
    apply list_elem_of_filter in Hin as [HP Hin]. done.
Qed.

Ltac db_simpl :=
  cbn [qbind qret fst snd tables groups_id_seq failing set_failing set_tables
       set_group_members set_groups set_chats groups group_members chats] in *.

Ltac db_step :=
  first
    [ rewrite statement_unfold
    | rewrite Commit_unfold
    | progress db_simpl
    | case_bool_decide
    | case_decide
    | match goal with
      | |- context [match filter ?P ?l with [] => _ | _ :: _ => _ end] =>
          destruct (filter P l) eqn:?
      end ].

Lemma head_tail_tail {A : Type} (l : list A) : head (tail (tail l)) = l !! 2%nat.
Proof. by destruct l as [|? [|? [|? ?]]]. Qed.

Lemma head_tail {A : Type} (l : list A) : head (tail l) = l !! 1%nat.
Proof. by destruct l as [|? [|? ?]]. Qed.

Lemma filter_cons_is_admin (groupID userID : N) (db : DB) m l :
  filter (λ m, GroupID m = groupID ∧ UserID m = userID ∧
               Role m = "admin"%string) (group_members (tables db)) = m :: l →
  is_admin groupID userID db.
Proof.
  intros Hf. destruct (filter_nil_iff (λ m, GroupID m = groupID ∧
    UserID m = userID ∧ Role m = "admin"%string) (group_members (tables db)))
    as [_ Hnil].
  apply is_admin_iff. exists m.
  assert (m ∈ filter (λ m, GroupID m = groupID ∧ UserID m = userID ∧
                           Role m = "admin"%string)
                     (group_members (tables db))) as Hin
    by (rewrite Hf; apply list_elem_of_here).
  by apply list_elem_of_filter in Hin as [HP Hin].
Qed.

Lemma AddMember_inv (groupID userID newMemberID : N) (db : DB)
    (err : option error) (db' : DB) :
  AddMember groupID userID newMemberID db = (err, db') →
  groups_id_seq db' = groups_id_seq db ∧
  match err with
  | Some _ => tables db' = tables db
  | None =>
      tables db' =
        {| groups := groups (tables db);
           group_members :=
             group_members (tables db) ++
             [{| GroupID := groupID; UserID := newMemberID; Role := "member" |}];
           chats := chats (tables db) |} ∧
      is_admin groupID userID db ∧
      (head (failing db) ≠ Some true →
       (length (members_of groupID db) < 256)%nat) ∧
      (failing db !! 2%nat ≠ Some true →
       ¬ is_member groupID newMemberID db)
  end.
Proof.
  unfold AddMember, Count_members, First_member, Create_member, qbind, qret.
  repeat db_step; intros [= <- <-]; db_simpl; split_and!; try done.
  all: try (by eapply filter_cons_is_admin).
  all: try (rewrite <- head_tail_tail; intros ?; try done; by apply member_check).
  all: intros _; unfold members_of; lia.
Qed.

Lemma AddMember_healthy (groupID userID newMemberID : N) (db : DB) :
  failing db = [] →
  AddMember groupID userID newMemberID db =
    if decide (256 ≤ length (members_of groupID db))%nat then
      (Some (errors_New "group has reached maximum capacity"), db)
    else
      match filter (λ m, GroupID m = groupID ∧ UserID m = userID ∧
                         Role m = "admin"%string) (group_members (tables db)) with
      | [] => (Some (errors_New "only admins can add members"), db)
      | _ :: _ =>
          match filter (λ m, GroupID m = groupID ∧ UserID m = newMemberID)
                       (group_members (tables db)) with
          | _ :: _ => (Some (errors_New "user is already a member"), db)
          | [] =>
              (None,
               set_group_members
                 (group_members (tables db) ++
                  [{| GroupID := groupID; UserID := newMemberID;
                      Role := "member" |}]) db)
          end
      end.
Proof.
  intros Hf.
  unfold AddMember, Count_members, First_member, Create_member, qbind, qret,
    members_of.
  repeat db_step; rewrite ?Hf in *; try done; try lia.
  all: destruct db as [t s f]; cbn in Hf; by subst f.
Qed.

(** X14.  [AddMember] adds one row or nothing.  If it returns an error, the
    tables are as before.  If it returns no error, the requester had an
    admin row in the group, one row for the new member with the role member
    has been put at the end of [group_members] and nothing else has
    changed; the group had fewer than 256 rows if the count was executed,
    and the new member had no row in it if the lookup of the new member was
    executed.  On a server that fails nothing, it succeeds exactly when the
    group has fewer than 256 rows, the requester is an admin of it and the
    new member is not in it; and a group with 256 rows or more gives the
    capacity error to every requester, admin or not. *)
Theorem AddMember_adds_one_row_or_nothing (groupID userID newMemberID : N)
    (db : DB) (err : option error) (db' : DB) :
  AddMember groupID userID newMemberID db = (err, db') →
  groups_id_seq db' = groups_id_seq db ∧
  groups (tables db') = groups (tables db) ∧
  chats (tables db') = chats (tables db) ∧
  (err ≠ None → group_members (tables db') = group_members (tables db)) ∧
  (err = None →
   group_members (tables db') =
     group_members (tables db) ++
     [{| GroupID := groupID; UserID := newMemberID; Role := "member" |}] ∧
   is_admin groupID userID db ∧
   (head (failing db) ≠ Some true →
    (length (members_of groupID db) < 256)%nat) ∧
   (failing db !! 2%nat ≠ Some true → ¬ is_member groupID newMemberID db)) ∧
  (failing db = [] →
   (err = None ↔
    (length (members_of groupID db) < 256)%nat ∧
    is_admin groupID userID db ∧ ¬ is_member groupID newMemberID db) ∧
   ((256 ≤ length (members_of groupID db))%nat →
    err = Some (errors_New "group has reached maximum capacity"))).
Proof.
  intros Hrun. pose proof (AddMember_inv _ _ _ _ _ _ Hrun) as [Hseq Hinv].
  split; [done|].
  split; [destruct err; [by rewrite Hinv | by destruct Hinv as [-> _]]|].
  split; [destruct err; [by rewrite Hinv | by destruct Hinv as [-> _]]|].
  split; [intros Herr; destruct err; [by rewrite Hinv | done]|].
  split.
  { intros ->. destruct Hinv as (-> & Hadmin & Hcount & Hmember). done. }
  intros Hf. rewrite (AddMember_healthy _ _ _ _ Hf) in Hrun.
  split.
  - split.
    + intros ->. destruct Hinv as (_ & Hadmin & Hcount & Hmember).
      rewrite Hf in Hcount, Hmember. split_and!; [by apply Hcount|done|].
      by apply Hmember.
    + intros (Hlen & Hadmin & Hmember).
      destruct (decide _) as [?|_] in Hrun; [lia|].
      apply member_check in Hmember. rewrite Hmember in Hrun.
      destruct (filter _ _) eqn:Hfilter in Hrun.
      * apply admin_check in Hfilter. done.
      * congruence.
  - intros Hlen. destruct (decide _) as [_|?] in Hrun; [congruence|lia].
Qed.

Lemma AddMember_adds_one_row_or_nothing_witness :
  AddMember 1 1 4 team = (None, serve (CallAddMember 1 1 4) team) ∧
  group_members (tables (serve (CallAddMember 1 1 4) team)) =
    group_members (tables team) ++
    [{| GroupID := 1; UserID := 4; Role := "member" |}] ∧
  is_admin 1 1 team ∧ ¬ is_member 1 4 team.
Proof.
  split; [vm_compute; reflexivity|].
  destruct (AddMember_adds_one_row_or_nothing 1 1 4 team None
              (serve (CallAddMember 1 1 4) team))
    as (_ & _ & _ & _ & Hok & _); [vm_compute; reflexivity|].
  destruct (Hok eq_refl) as (Hrows & Hadmin & _ & Hmember).
  split_and!; [exact Hrows | exact Hadmin | apply Hmember; vm_compute; done].
Defined.

Lemma members_of_tables (groupID : N) (db db' : DB) :
  tables db' = tables db → members_of groupID db' = members_of groupID db.
Proof. unfold members_of. by intros ->. Qed.

Lemma is_admin_tables (groupID userID : N) (db db' : DB) :
  tables db' = tables db → is_admin groupID userID db → is_admin groupID userID db'.
Proof. unfold is_admin. by intros ->. Qed.

Lemma is_member_members_of (groupID userID : N) (db : DB) :
  is_member groupID userID db ↔ userID ∈ UserID <$> members_of groupID db.
Proof.
  rewrite is_member_iff, list_elem_of_fmap. unfold members_of. split.
  - intros (m & Hin & Hg & Hu). exists m. split; [done|].
    by apply list_elem_of_filter.
  - intros (m & -> & Hin). apply list_elem_of_filter in Hin as [Hg Hin].
    by exists m.
Qed.

Lemma NoDup_fmap_filter {A B : Type} (f : A → B) (P : A → Prop)
    `{!∀ x, Decision (P x)} (l : list A) :
  NoDup (f <$> l) → NoDup (f <$> filter P l).
Proof.
  induction l as [|x l IH]; [done|].
  rewrite fmap_cons, NoDup_cons. intros [Hx Hl].
  rewrite filter_cons. case_decide; [|by apply IH].
  rewrite fmap_cons, NoDup_cons. split; [|by apply IH].
  intros (y & Hy & Hin)%list_elem_of_fmap.
  apply list_elem_of_filter in Hin as [_ Hin].
  apply Hx, list_elem_of_fmap. by exists y.
Qed.

(** X15.  If the count and the lookup of the new member are executed,
    [AddMember] keeps every group that has at most 256 rows at 256 rows at
    most, and keeps every group in which no user has two rows free of such
    users, whatever else the server fails and whether or not the call
    succeeds. *)
Theorem AddMember_keeps_groups_in_bounds (groupID userID newMemberID : N)
    (db : DB) (group : N) :
  head (failing db) ≠ Some true → failing db !! 2%nat ≠ Some true →
  ((length (members_of group db) ≤ 256)%nat →
   (length (members_of group (AddMember groupID userID newMemberID db).2)
    ≤ 256)%nat) ∧
  (NoDup (UserID <$> members_of group db) →
   NoDup (UserID <$>
          members_of group (AddMember groupID userID newMemberID db).2)).
Proof.
  intros Hcount Hlookup.
  destruct (AddMember groupID userID newMemberID db) as [err db'] eqn:Hrun.
  apply AddMember_inv in Hrun as [_ Hinv]. cbn [snd].
  destruct err as [e|].
  { by rewrite (members_of_tables _ _ _ Hinv). }
  destruct Hinv as (Htables & _ & Hlen & Hnew).
  specialize (Hlen Hcount). specialize (Hnew Hlookup).
  assert (members_of group db' =
          members_of group db ++
          (if decide (groupID = group)
           then [{| GroupID := groupID; UserID := newMemberID;
                    Role := "member" |}]
           else [])) as ->.
  { unfold members_of. rewrite Htables. cbn [group_members].
    by rewrite filter_app. }
  case_decide as Hg; [subst group|by rewrite app_nil_r].
  split.
  - intros _. rewrite length_app. cbn [length]. lia.
  - intros Hnodup. rewrite fmap_app. apply NoDup_app. split_and!; [done| |].
    + intros u Hin Hu. cbn in Hu. apply list_elem_of_singleton in Hu as ->.
      by apply Hnew, is_member_members_of.
    + cbn. apply NoDup_singleton.
Qed.

Lemma AddMember_keeps_groups_in_bounds_witness :
  head (failing team) ≠ Some true ∧ failing team !! 2%nat ≠ Some true ∧
  (length (members_of 1 team) ≤ 256)%nat ∧
  NoDup (UserID <$> members_of 1 team) ∧
  (length (members_of 1 (AddMember 1 1 4 team).2) ≤ 256)%nat ∧
  NoDup (UserID <$> members_of 1 (AddMember 1 1 4 team).2).
Proof.
  assert (head (failing team) ≠ Some true) as Hcount by (vm_compute; done).
  assert (failing team !! 2%nat ≠ Some true) as Hlookup by (vm_compute; done).
  assert ((length (members_of 1 team) ≤ 256)%nat) as Hlen
    by (vm_compute; lia).
  assert (NoDup (UserID <$> members_of 1 team)) as Hnodup
    by (vm_compute; apply NoDup_ListNoDup; repeat constructor; set_solver).
  destruct (AddMember_keeps_groups_in_bounds 1 1 4 team 1 Hcount Hlookup)
    as [Hl Hn].
  split_and!; [done|done|done|done|by apply Hl|by apply Hn].
Defined.

Lemma RemoveMember_inv (groupID userID memberToRemoveID : N) (db : DB)
    (err : option error) (db' : DB) :
  RemoveMember groupID userID memberToRemoveID db = (err, db') →
  groups_id_seq db' = groups_id_seq db ∧
  match err with
  | Some _ => tables db' = tables db
  | None =>
      tables db' =
        {| groups := groups (tables db);
           group_members :=
             filter (λ m, ¬ (GroupID m = groupID ∧ UserID m = memberToRemoveID))
                    (group_members (tables db));
           chats := chats (tables db) |} ∧
      is_admin groupID userID db ∧
      (userID = memberToRemoveID →
       (2 ≤ length (filter (λ m, GroupID m = groupID ∧ Role m = "admin"%string)
                           (group_members (tables db))))%nat)
  end.
Proof.
  unfold RemoveMember, Count_members, First_member, Delete_members, qbind, qret.
  repeat db_step; intros [= <- <-]; db_simpl; split_and!; try done.
  all: try (by eapply filter_cons_is_admin).
  all: intros _; lia.
Qed.

Lemma RemoveMember_healthy (groupID userID memberToRemoveID : N) (db : DB) :
  failing db = [] → is_admin groupID userID db →
  userID ≠ memberToRemoveID →
  RemoveMember groupID userID memberToRemoveID db =
    (None,
     set_group_members
       (filter (λ m, ¬ (GroupID m = groupID ∧ UserID m = memberToRemoveID))
               (group_members (tables db))) db).
Proof.
  intros Hf Hadmin Hne.
  unfold RemoveMember, Count_members, First_member, Delete_members, qbind, qret.
  repeat db_step; rewrite ?Hf in *; try done.
  - by apply admin_check in Hadmin.
  - destruct db as [t s f]; cbn in Hf; by subst f.
Qed.

Lemma filter_all {A : Type} (P : A → Prop) `{!∀ x, Decision (P x)}
    (l : list A) :
  (∀ x, x ∈ l → P x) → filter P l = l.
Proof.
  induction l as [|x l IH]; [done|]. intros Hall.
  rewrite filter_cons_True by (apply Hall; set_solver).
  f_equal. apply IH. intros y Hy. apply Hall. set_solver.
Qed.

Lemma two_rows_one_other (groupID userID : N) (rows : list GroupMember) :
  NoDup (UserID <$> filter (λ m, GroupID m = groupID) rows) →
  (2 ≤ length (filter (λ m, GroupID m = groupID ∧ Role m = "admin"%string)
                      rows))%nat →
  ∃ m, m ∈ rows ∧ GroupID m = groupID ∧ Role m = "admin"%string ∧
       UserID m ≠ userID.
Proof.
  intros Hnodup Hlen.
  assert (NoDup (UserID <$> filter (λ m, GroupID m = groupID ∧
                                         Role m = "admin"%string) rows)) as Hadm.
  { assert (filter (λ m, GroupID m = groupID ∧ Role m = "admin"%string) rows
            = filter (λ m, Role m = "admin"%string)
                     (filter (λ m, GroupID m = groupID) rows)) as ->.
    { rewrite list_filter_filter. apply list_filter_iff. tauto. }
    by apply NoDup_fmap_filter. }
  destruct (filter (λ m, GroupID m = groupID ∧ Role m = "admin"%string) rows)
    as [|m1 [|m2 l]] eqn:Hfilter; cbn in Hlen; [lia|lia|].
  assert (∀ m, m ∈ m1 :: m2 :: l →
               m ∈ rows ∧ GroupID m = groupID ∧ Role m = "admin"%string)
    as Hall.
  { intros m Hm. rewrite <- Hfilter in Hm.
    apply list_elem_of_filter in Hm as [[? ?] ?]. done. }
  rewrite !fmap_cons in Hadm.
  apply NoDup_cons in Hadm as [Hne _].
  destruct (decide (UserID m1 = userID)) as [Hu1|Hu1].
  - exists m2. destruct (Hall m2) as (? & ? & ?); [set_solver|].
    split_and!; try done. intros Hu2. apply Hne. rewrite Hu1, <- Hu2. set_solver.
  - exists m1. destruct (Hall m1) as (? & ? & ?); [set_solver|]. done.
Qed.

(** X16.  [RemoveMember] only deletes rows of [group_members].  If it
    returns an error, the tables are as before.  If it returns no error,
    the requester had an admin row in the group, and the rows of the group
    that belong to the user to remove are gone, all of them, while every
    other row is kept; so the removed user is no member any more.  A group
    in which no user has two rows is never left without an admin: if a
    group had an admin before the call, it has one after it.  On a server
    that fails nothing, an admin can remove every other user, another
    admin as well, and removing a user who is no member succeeds and
    changes no row. *)
Theorem RemoveMember_keeps_an_admin (groupID userID memberToRemoveID : N)
    (db : DB) (err : option error) (db' : DB) :
  RemoveMember groupID userID memberToRemoveID db = (err, db') →
  groups (tables db') = groups (tables db) ∧
  chats (tables db') = chats (tables db) ∧
  (err ≠ None → group_members (tables db') = group_members (tables db)) ∧
  (err = None →
   is_admin groupID userID db ∧
   ¬ is_member groupID memberToRemoveID db' ∧
   ∀ m, m ∈ group_members (tables db') ↔
        m ∈ group_members (tables db) ∧
        ¬ (GroupID m = groupID ∧ UserID m = memberToRemoveID)) ∧
  (NoDup (UserID <$> members_of groupID db) →
   ∀ group, (∃ a, is_admin group a db) → ∃ a, is_admin group a db') ∧
  (failing db = [] → is_admin groupID userID db →
   userID ≠ memberToRemoveID →
   err = None ∧
   (¬ is_member groupID memberToRemoveID db →
    group_members (tables db') = group_members (tables db))).
Proof.
  intros Hrun. pose proof (RemoveMember_inv _ _ _ _ _ _ Hrun) as [Hseq Hinv].
  split; [destruct err; [by rewrite Hinv | by destruct Hinv as [-> _]]|].
  split; [destruct err; [by rewrite Hinv | by destruct Hinv as [-> _]]|].
  split; [intros Herr; destruct err; [by rewrite Hinv | done]|].
  split.
  { intros ->. destruct Hinv as (Htables & Hadmin & _).
    assert (∀ m, m ∈ group_members (tables db') ↔
                 m ∈ group_members (tables db) ∧
                 ¬ (GroupID m = groupID ∧ UserID m = memberToRemoveID)) as Hrows.
    { intros m. rewrite Htables. cbn [group_members].
      rewrite list_elem_of_filter. tauto. }
    split_and!; [done| |done].
    intros (m & Hin & Hg & Hu)%is_member_iff. apply Hrows in Hin as [_ Hno].
    by apply Hno. }
  split.
  { intros Hnodup group [a Ha].
    destruct err as [e|]; [exists a; by apply (is_admin_tables _ _ db)|].
    destruct Hinv as (Htables & Hadmin & Htwo).
    assert (∀ g u, is_admin g u db → ¬ (g = groupID ∧ u = memberToRemoveID) →
                   is_admin g u db') as Hkept.
    { intros g u Hin Hno. unfold is_admin in *. rewrite Htables.
      cbn [group_members]. apply list_elem_of_filter. done. }
    destruct (decide (group = groupID)) as [->|Hg].
    2:{ exists a. apply Hkept; [done|]. by intros [? _]. }
    destruct (decide (userID = memberToRemoveID)) as [Heq|Hne].
    2:{ exists userID. apply Hkept; [done|]. by intros [_ ?]. }
    destruct (two_rows_one_other groupID userID (group_members (tables db))
                Hnodup (Htwo Heq)) as ([g u r] & Hin & Hg & Hr & Hu).
    cbn in Hg, Hr, Hu. subst g r. exists u. apply Hkept; [done|].
    intros [_ ->]. done. }
  intros Hf Hadmin Hne.
  rewrite (RemoveMember_healthy _ _ _ _ Hf Hadmin Hne) in Hrun.
  injection Hrun as <- <-. split; [done|].
  intros Hno. cbn [tables set_group_members set_tables group_members].
  apply filter_all. intros m Hin [Hg Hu]. apply Hno, is_member_iff. by exists m.
Qed.

Lemma RemoveMember_keeps_an_admin_witness :
  RemoveMember 1 1 2 team = (None, serve (CallRemoveMember 1 1 2) team) ∧
  NoDup (UserID <$> members_of 1 team) ∧
  is_admin 1 1 team ∧
  ¬ is_member 1 2 (serve (CallRemoveMember 1 1 2) team) ∧
  ∃ a, is_admin 1 a (serve (CallRemoveMember 1 1 2) team).
Proof.
  assert (RemoveMember 1 1 2 team = (None, serve (CallRemoveMember 1 1 2) team))
    as Hrun by (vm_compute; reflexivity).
  assert (NoDup (UserID <$> members_of 1 team)) as Hnodup
    by (vm_compute; apply NoDup_ListNoDup; repeat constructor; set_solver).
  destruct (RemoveMember_keeps_an_admin 1 1 2 team None
              (serve (CallRemoveMember 1 1 2) team) Hrun)
    as (_ & _ & _ & Hok & Hkeep & _).
  destruct (Hok eq_refl) as (Hadmin & Hgone & _).
  split_and!; [done|done|done|done|].
  apply (Hkeep Hnodup 1). by exists 1.
Defined.

Lemma UpdateMemberRole_inv (groupID userID memberID : N) (newRole : string)
    (db : DB) (err : option error) (db' : DB) :
  UpdateMemberRole groupID userID memberID newRole db = (err, db') →
  groups_id_seq db' = groups_id_seq db ∧
  match err with
  | Some _ => tables db' = tables db
  | None =>
      (newRole = "admin" ∨ newRole = "member")%string ∧
      is_admin groupID userID db ∧
      tables db' =
        {| groups := groups (tables db);
           group_members :=
             (λ m, if decide (GroupID m = groupID ∧ UserID m = memberID)
                   then {| GroupID := GroupID m; UserID := UserID m;
                           Role := newRole |}
                   else m) <$> group_members (tables db);
           chats := chats (tables db) |}
  end.
Proof.
  unfold UpdateMemberRole, First_member, Update_role, qbind, qret.
  repeat db_step; intros [= <- <-]; db_simpl; split_and!; try done.
  all: try (by eapply filter_cons_is_admin).
  all: destruct (decide (newRole = "admin"%string)); [by left|right];
    destruct (decide (newRole = "member"%string)); [done|tauto].
Qed.

Lemma UpdateMemberRole_healthy (groupID userID memberID : N) (newRole : string)
    (db : DB) :
  failing db = [] → is_admin groupID userID db →
  (newRole = "admin" ∨ newRole = "member")%string →
  UpdateMemberRole groupID userID memberID newRole db =
    (None,
     set_group_members
       ((λ m, if decide (GroupID m = groupID ∧ UserID m = memberID)
              then {| GroupID := GroupID m; UserID := UserID m;
                      Role := newRole |}
              else m) <$> group_members (tables db)) db).
Proof.
  intros Hf Hadmin Hrole.
  unfold UpdateMemberRole, First_member, Update_role, qbind, qret.
  repeat db_step; rewrite ?Hf in *; try done.
  - tauto.
  - by apply admin_check in Hadmin.
  - destruct db as [t s f]; cbn in Hf; by subst f.
Qed.

(** X17.  [UpdateMemberRole] writes nothing but roles: the rows of
    [group_members] are the same rows for the same groups and users, in the
    same order, and the other tables are as before.  A role other than
    admin and member is refused before the database is asked anything.  If
    the call returns an error, no role has changed.  If it returns no
    error, the new role is admin or member, the requester had an admin row
    in the group, every row of the member in the group has the new role,
    and every other row is as it was.  The last-admin rule of
    [RemoveMember] has no counterpart here: on a server that fails
    nothing, the only admin of a group can make itself a member, which
    leaves the group without an admin. *)
Theorem UpdateMemberRole_changes_only_roles (groupID userID memberID : N)
    (newRole : string) (db : DB) (err : option error) (db' : DB) :
  UpdateMemberRole groupID userID memberID newRole db = (err, db') →
  groups (tables db') = groups (tables db) ∧
  chats (tables db') = chats (tables db) ∧
  (λ m, (GroupID m, UserID m)) <$> group_members (tables db') =
    (λ m, (GroupID m, UserID m)) <$> group_members (tables db) ∧
  (newRole ≠ "admin"%string → newRole ≠ "member"%string →
   err = Some (errors_New "invalid role") ∧ db' = db) ∧
  (err ≠ None → group_members (tables db') = group_members (tables db)) ∧
  (err = None →
   (newRole = "admin" ∨ newRole = "member")%string ∧
   is_admin groupID userID db ∧
   ∀ g u r,
     {| GroupID := g; UserID := u; Role := r |} ∈ group_members (tables db') ↔
     if decide (g = groupID ∧ u = memberID)
     then r = newRole ∧ is_member groupID memberID db
     else {| GroupID := g; UserID := u; Role := r |}
            ∈ group_members (tables db)) ∧
  (failing db = [] → is_admin groupID userID db →
   (∀ a, is_admin groupID a db → a = userID) →
   memberID = userID → newRole = "member"%string →
   err = None ∧ ¬ ∃ a, is_admin groupID a db').
Proof.
  intros Hrun.
  pose proof (UpdateMemberRole_inv _ _ _ _ _ _ _ Hrun) as [Hseq Hinv].
  assert (err = None →
          ∀ g u r,
            {| GroupID := g; UserID := u; Role := r |}
              ∈ group_members (tables db') ↔
            if decide (g = groupID ∧ u = memberID)
            then r = newRole ∧ is_member groupID memberID db
            else {| GroupID := g; UserID := u; Role := r |}
                   ∈ group_members (tables db)) as Hrows.
  { intros ->. destruct Hinv as (_ & _ & ->). cbn [group_members].
    intros g u r. rewrite list_elem_of_fmap. split.
    - intros ([g0 u0 r0] & Heq & Hin). cbn [GroupID UserID] in Heq.
      destruct (decide _) as [Hc|Hc] in Heq.
      + destruct Hc as [-> ->]. injection Heq as -> -> ->.
        rewrite decide_True by done. split; [done|]. by exists r0.
      + injection Heq as -> -> ->. by rewrite decide_False.
    - case_decide as Hc.
      + destruct Hc as [-> ->]. intros [-> [r0 Hin]].
        eexists. split; [|exact Hin]. cbn [GroupID UserID].
        by rewrite decide_True.
      + intros Hin. eexists. split; [|exact Hin]. cbn [GroupID UserID].
        by rewrite decide_False. }
  split; [destruct err; [by rewrite Hinv | by destruct Hinv as (_ & _ & ->)]|].
  split; [destruct err; [by rewrite Hinv | by destruct Hinv as (_ & _ & ->)]|].
  split.
  { destruct err; [by rewrite Hinv|]. destruct Hinv as (_ & _ & ->).
    cbn [group_members]. rewrite <- list_fmap_compose.
    apply list_fmap_ext. intros i m _. cbn. by case_decide. }
  split.
  { intros Ha Hm. unfold UpdateMemberRole in Hrun.
    rewrite decide_True in Hrun by done. by injection Hrun as <- <-. }
  split; [intros Herr; destruct err; [by rewrite Hinv | done]|].
  split.
  { intros ->. destruct Hinv as (Hrole & Hadmin & _).
    split_and!; [done|done|by apply Hrows]. }
  intros Hf Hadmin Honly -> ->.
  rewrite (UpdateMemberRole_healthy _ _ _ _ _ Hf Hadmin) in Hrun by (by right).
  injection Hrun as <- <-. split; [done|].
  intros [a Ha]. unfold is_admin in Ha.
  cbn [tables set_group_members set_tables group_members] in Ha.
  apply list_elem_of_fmap in Ha as ([g0 u0 r0] & Heq & Hin).
  cbn [GroupID UserID] in Heq. destruct (decide _) as [Hc|Hc] in Heq.
  - by injection Heq.
  - injection Heq as <- <- <-. apply Hc. split; [done|]. by apply Honly.
Qed.

Lemma UpdateMemberRole_changes_only_roles_witness :
  UpdateMemberRole 1 1 1 "member" team
    = (None, serve (CallUpdateMemberRole 1 1 1 "member") team) ∧
  failing team = [] ∧ is_admin 1 1 team ∧
  (∀ a, is_admin 1 a team → a = 1) ∧
  ¬ ∃ a, is_admin 1 a (serve (CallUpdateMemberRole 1 1 1 "member") team).
Proof.
  assert (UpdateMemberRole 1 1 1 "member" team
          = (None, serve (CallUpdateMemberRole 1 1 1 "member") team))
    as Hrun by (vm_compute; reflexivity).
  assert (is_admin 1 1 team) as Hadmin by (vm_compute; set_solver).
  assert (∀ a, is_admin 1 a team → a = 1) as Honly.
  { intros a Ha. vm_compute in Ha.
    repeat (apply elem_of_cons in Ha as [Ha|Ha]; [congruence|]).
    by apply not_elem_of_nil in Ha. }
  destruct (UpdateMemberRole_changes_only_roles 1 1 1 "member" team None
              (serve (CallUpdateMemberRole 1 1 1 "member") team) Hrun)
    as (_ & _ & _ & _ & _ & _ & Hdemote).
  destruct (Hdemote eq_refl Hadmin Honly eq_refl eq_refl) as [_ Hnone].
  split_and!; done.
Defined.

Lemma CreateGroup_members_inv (tx : Tables) (groupID createdByID : N)
    (memberIDs : list N) (db : DB) (err : option error) (db' : DB) :
  CreateGroup_members tx groupID createdByID memberIDs db = (err, db') →
  groups_id_seq db' = groups_id_seq db ∧
  match err with
  | Some _ => tables db' = tx
  | None =>
      tables db' =
        {| groups := groups (tables db);
           group_members :=
             group_members (tables db) ++
             ((λ u, {| GroupID := groupID; UserID := u; Role := "member" |})
                <$> filter (λ u, u ≠ createdByID) memberIDs);
           chats := chats (tables db) |}
  end.
Proof.
  revert db. induction memberIDs as [|memberID rest IH]; intros db.
  { cbn. intros [= <- <-]. split; [done|]. rewrite app_nil_r.
    by destruct (tables db). }
  cbn [CreateGroup_members]. rewrite filter_cons.
  destruct (decide (memberID ≠ createdByID)) as [Hne|Heq]; [|by apply IH].
  unfold qbind at 1. unfold Create_member. rewrite statement_unfold.
  case_bool_decide.
  - unfold Rollback, qbind, qret. cbn. by intros [= <- <-].
  - intros Hrun. apply IH in Hrun as [Hseq Hrun]. split; [done|].
    destruct err; [done|]. rewrite Hrun. cbn.
    by rewrite <- (assoc_L app).
Qed.

Lemma CreateGroup_members_healthy (tx : Tables) (groupID createdByID : N)
    (memberIDs : list N) (db : DB) :
  failing db = [] →
  CreateGroup_members tx groupID createdByID memberIDs db
  = (None,
     set_group_members
       (group_members (tables db) ++
        ((λ u, {| GroupID := groupID; UserID := u; Role := "member" |})
           <$> filter (λ u, u ≠ createdByID) memberIDs)) db).
Proof.
  revert db. induction memberIDs as [|memberID rest IH]; intros db Hf.
  { cbn. rewrite app_nil_r. by destruct db as [[? ? ?] ? ?]. }
  cbn [CreateGroup_members]. rewrite filter_cons.
  destruct (decide (memberID ≠ createdByID)) as [Hne|Heq]; [|by apply IH].
  unfold qbind at 1. unfold Create_member. rewrite statement_unfold, Hf.
  cbn [head tail]. rewrite bool_decide_false by done.
  rewrite IH by done. cbn. rewrite <- (assoc_L app).
  destruct db as [[? ? ?] ? f]. cbn in Hf. by subst f.
Qed.

Lemma CreateGroup_inv (name description icon : string) (createdByID : N)
    (memberIDs : list N) (db : DB) (res : option Group * option error)
    (db' : DB) :
  CreateGroup name description icon createdByID memberIDs db = (res, db') →
  match res with
  | (Some group, None) =>
      (length memberIDs ≤ 256)%nat ∧
      group = {| Group_ID := groups_id_seq db + 1; Name := name; Icon := icon;
                 Description := description; CreatedByID := createdByID |} ∧
      groups_id_seq db' = groups_id_seq db + 1 ∧
      tables db' =
        {| groups := groups (tables db) ++ [group];
           group_members :=
             group_members (tables db) ++
             {| GroupID := groups_id_seq db + 1; UserID := createdByID;
                Role := "admin" |}
             :: ((λ u, {| GroupID := groups_id_seq db + 1; UserID := u;
                          Role := "member" |})
                   <$> filter (λ u, u ≠ createdByID) memberIDs);
           chats :=
             chats (tables db) ++
             [{| Chat_Type := "group"; User1ID := None; User2ID := None;
                 Chat_GroupID := Some (groups_id_seq db + 1);
                 LastMessageID := None |}] |}
  | (None, Some e) =>
      tables db' = tables db ∧
      (groups_id_seq db' = groups_id_seq db ∨
       groups_id_seq db' = groups_id_seq db + 1)
  | _ => False
  end.
Proof.
  unfold CreateGroup. case_decide as Hlen.
  { unfold qret. intros [= <- <-]. split; [done|by left]. }
  unfold Begin, Create_group, Create_member, Create_chat, Reload_group,
    Rollback.
  unfold qbind at 1. unfold qbind at 1. rewrite statement_unfold.
  case_bool_decide.
  { unfold qbind, qret. cbn. intros [= <- <-]. cbn. split; [done|by left]. }
  cbn beta iota. unfold qbind at 1. rewrite statement_unfold.
  case_bool_decide.
  { unfold qbind, qret. cbn. intros [= <- <-]. cbn. split; [done|by right]. }
  cbn beta iota. unfold qbind at 1.
  destruct (CreateGroup_members _ _ _ _ _) as [err1 db1] eqn:Hloop.
  apply CreateGroup_members_inv in Hloop as [Hseq1 Hloop].
  destruct err1 as [e|].
  { unfold qret. intros [= <- <-]. cbn in *. split; [done|by right]. }
  unfold qbind at 1. rewrite statement_unfold.
  case_bool_decide.
  { unfold qbind, qret. cbn. intros [= <- <-]. cbn in *.
    split; [done|by right]. }
  cbn beta iota. unfold qbind at 1. rewrite Commit_unfold.
  case_bool_decide.
  { unfold qret. intros [= <- <-]. cbn in *. split; [done|by right]. }
  unfold qbind, qret. rewrite statement_unfold.
  assert ((length memberIDs ≤ 256)%nat) by lia.
  case_bool_decide; intros [= <- <-]; cbn in *; rewrite Hloop, Hseq1;
    cbn; split_and!; try done.
  all: by rewrite <- (assoc_L app).
Qed.

Lemma CreateGroup_healthy (name description icon : string) (createdByID : N)
    (memberIDs : list N) (db : DB) :
  failing db = [] → (length memberIDs ≤ 256)%nat →
  ∃ group,
    (CreateGroup name description icon createdByID memberIDs db).1
    = (Some group, None).
Proof.
  intros Hf Hlen. destruct db as [t s f]. cbn in Hf. subst f.
  unfold CreateGroup. rewrite decide_False by lia.
  unfold Begin, Create_group, Create_member, Create_chat, Reload_group,
    Rollback.
  do 3 (unfold qbind at 1; rewrite ?statement_unfold; cbn [failing head];
        rewrite ?bool_decide_false by done; cbn beta iota).
  unfold qbind at 1. rewrite CreateGroup_members_healthy by done.
  do 3 (unfold qbind at 1; rewrite ?statement_unfold, ?Commit_unfold;
        cbn [failing head set_failing set_group_members set_chats set_tables];
        rewrite ?bool_decide_false by done; cbn beta iota).
  by eexists.
Qed.

(** X18.  [CreateGroup] is all or nothing.  Either it returns a group and
    no error: then the list of member ids had at most 256 entries, the
    group has the next key of the sequence and the name, icon, description
    and creator that were given, and the tables have got, at their ends,
    the row of the group, one admin row for the creator followed by one
    member row for every entry of the list that is not the creator, in the
    order of the list and as often as the entry occurs in it, and one chat
    of type group for the group; so the creator has exactly one row, the
    admin row, and the group starts with at most 257 rows.  Or it returns
    an error and no group, and the tables are as before, whichever
    statement failed.  A list of more than 256 entries is refused before
    the database is asked anything.  On a server that fails nothing every
    other call succeeds. *)
Theorem CreateGroup_is_all_or_nothing (name description icon : string)
    (createdByID : N) (memberIDs : list N) (db : DB)
    (res : option Group * option error) (db' : DB) :
  CreateGroup name description icon createdByID memberIDs db = (res, db') →
  let id := groups_id_seq db + 1 in
  let rows :=
    {| GroupID := id; UserID := createdByID; Role := "admin" |}
    :: ((λ u, {| GroupID := id; UserID := u; Role := "member" |})
          <$> filter (λ u, u ≠ createdByID) memberIDs) in
  ((∃ group,
      res = (Some group, None) ∧
      (length memberIDs ≤ 256)%nat ∧
      group = {| Group_ID := id; Name := name; Icon := icon;
                 Description := description; CreatedByID := createdByID |} ∧
      groups_id_seq db' = id ∧
      groups (tables db') = groups (tables db) ++ [group] ∧
      group_members (tables db') = group_members (tables db) ++ rows ∧
      chats (tables db') =
        chats (tables db) ++
        [{| Chat_Type := "group"; User1ID := None; User2ID := None;
            Chat_GroupID := Some id; LastMessageID := None |}] ∧
      filter (λ m, UserID m = createdByID) rows =
        [{| GroupID := id; UserID := createdByID; Role := "admin" |}] ∧
      (length rows ≤ 257)%nat) ∨
   (∃ e, res = (None, Some e) ∧ tables db' = tables db)) ∧
  ((256 < length memberIDs)%nat →
   res = (None, Some (errors_New "maximum 256 members allowed")) ∧ db' = db) ∧
  (failing db = [] → (length memberIDs ≤ 256)%nat →
   ∃ group, res = (Some group, None)).
Proof.
  intros Hrun id rows. split_and!.
  - pose proof (CreateGroup_inv _ _ _ _ _ _ _ _ Hrun) as Hinv.
    destruct res as [[group|] [e|]]; try done.
    2:{ right. exists e. by destruct Hinv. }
    left. exists group. destruct Hinv as (Hlen & Hgroup & Hseq & Htables).
    rewrite Htables. cbn [groups group_members chats].
    split_and!; try done.
    + unfold rows. rewrite filter_cons_True by done. f_equal.
      apply filter_nil_iff. intros m (u & -> & Hu)%list_elem_of_fmap.
      apply list_elem_of_filter in Hu as [Hu _]. cbn. congruence.
    + unfold rows. cbn [length]. rewrite length_fmap.
      pose proof (length_filter (λ u, u ≠ createdByID) memberIDs). lia.
  - intros Hlen. unfold CreateGroup in Hrun.
    rewrite decide_True in Hrun by done. by injection Hrun as <- <-.
  - intros Hf Hlen.
    destruct (CreateGroup_healthy name description icon createdByID memberIDs
                db Hf Hlen) as [group Hgroup].
    rewrite Hrun in Hgroup. by exists group.
Qed.

Lemma CreateGroup_is_all_or_nothing_witness :
  CreateGroup "team" "" "" 1 [2; 1; 3; 2] (NewDB [])
    = ((Some {| Group_ID := 1; Name := "team"; Icon := ""; Description := "";
                CreatedByID := 1 |}, None),
       serve (CallCreateGroup "team" "" "" 1 [2; 1; 3; 2]) (NewDB [])) ∧
  group_members
    (tables (serve (CallCreateGroup "team" "" "" 1 [2; 1; 3; 2]) (NewDB [])))
  = [{| GroupID := 1; UserID := 1; Role := "admin" |};
     {| GroupID := 1; UserID := 2; Role := "member" |};
     {| GroupID := 1; UserID := 3; Role := "member" |};
     {| GroupID := 1; UserID := 2; Role := "member" |}].
Proof.
  split; [vm_compute; reflexivity|].
  destruct (CreateGroup_is_all_or_nothing "team" "" "" 1 [2; 1; 3; 2]
              (NewDB [])
              (Some {| Group_ID := 1; Name := "team"; Icon := "";
                       Description := ""; CreatedByID := 1 |}, None)
              (serve (CallCreateGroup "team" "" "" 1 [2; 1; 3; 2]) (NewDB []))
              ltac:(vm_compute; reflexivity))
    as ([(group & _ & _ & _ & _ & _ & Hrows & _)|(e & He & _)] & _);
    [|discriminate He].
  rewrite Hrows. vm_compute. reflexivity.
Defined.

Lemma DeleteGroup_inv (groupID userID : N) (db : DB) (err : option error)
    (db' : DB) :
  DeleteGroup groupID userID db = (err, db') →
  groups_id_seq db' = groups_id_seq db ∧
  (¬ is_admin groupID userID db →
   err = Some (errors_New "only admins can delete group")) ∧
  match err with
  | Some _ => tables db' = tables db
  | None =>
      is_admin groupID userID db ∧
      tables db' =
        {| groups := filter (λ g, Group_ID g ≠ groupID) (groups (tables db));
           group_members :=
             filter (λ m, ¬ GroupID m = groupID) (group_members (tables db));
           chats :=
             filter (λ c, Chat_GroupID c ≠ Some groupID) (chats (tables db)) |}
  end.
Proof.
  unfold DeleteGroup, First_member, Delete_members, Delete_chats, Delete_group,
    Begin, Rollback, qbind, qret.
  repeat db_step; intros [= <- <-]; db_simpl; split_and!; try done.
  all: try (by eapply filter_cons_is_admin).
  all: try (intros Hno; exfalso; apply Hno; by eapply filter_cons_is_admin).
  all: by destruct (tables db).
Qed.

Lemma DeleteGroup_healthy (groupID userID : N) (db : DB) :
  failing db = [] → is_admin groupID userID db →
  (DeleteGroup groupID userID db).1 = None.
Proof.
  intros Hf Hadmin.
  unfold DeleteGroup, First_member, Delete_members, Delete_chats, Delete_group,
    Begin, Rollback, qbind, qret.
  repeat db_step; rewrite ?Hf in *; try done.
  by apply admin_check in Hadmin.
Qed.

(** X19.  [DeleteGroup] is all or nothing, and only for admins.  A
    requester without an admin row in the group gets the error that only
    admins can delete, whatever the server does.  If the call returns an
    error, the tables are as before, also when a later statement of the
    transaction failed.  If it returns no error, the requester had an admin
    row in the group, and the group is gone as a whole: its rows in
    [group_members], its chats and its row in [groups] are gone, and
    every row of another group is kept.  On a server that fails nothing an
    admin's call succeeds. *)
Theorem DeleteGroup_removes_the_whole_group (groupID userID : N) (db : DB)
    (err : option error) (db' : DB) :
  DeleteGroup groupID userID db = (err, db') →
  (¬ is_admin groupID userID db →
   err = Some (errors_New "only admins can delete group")) ∧
  (err ≠ None → tables db' = tables db) ∧
  (err = None →
   is_admin groupID userID db ∧
   members_of groupID db' = [] ∧
   (∀ g, g ∈ groups (tables db') ↔
         g ∈ groups (tables db) ∧ Group_ID g ≠ groupID) ∧
   (∀ m, m ∈ group_members (tables db') ↔
         m ∈ group_members (tables db) ∧ GroupID m ≠ groupID) ∧
   (∀ c, c ∈ chats (tables db') ↔
         c ∈ chats (tables db) ∧ Chat_GroupID c ≠ Some groupID) ∧
   ∀ group, group ≠ groupID → members_of group db' = members_of group db) ∧
  (failing db = [] → is_admin groupID userID db → err = None).
Proof.
  intros Hrun.
  pose proof (DeleteGroup_inv _ _ _ _ _ Hrun) as (_ & Hnot & Hinv).
  split; [done|].
  split; [intros Herr; by destruct err|].
  split.
  { intros ->. destruct Hinv as [Hadmin Htables].
    split; [done|]. unfold members_of. rewrite Htables.
    cbn [groups group_members chats].
    split_and!.
    - rewrite list_filter_filter. apply filter_nil_iff. tauto.
    - intros g. rewrite list_elem_of_filter. tauto.
    - intros m. rewrite list_elem_of_filter. tauto.
    - intros c. rewrite list_elem_of_filter. tauto.
    - intros group Hne. rewrite list_filter_filter.
      apply list_filter_iff. intros m. split; [tauto|].
      intros Hm. split; [done|congruence]. }
  intros Hf Hadmin.
  pose proof (DeleteGroup_healthy _ _ _ Hf Hadmin) as Hok.
  by rewrite Hrun in Hok.
Qed.

Lemma DeleteGroup_removes_the_whole_group_witness :
  DeleteGroup 1 1 team = (None, serve (CallDeleteGroup 1 1) team) ∧
  is_admin 1 1 team ∧
  members_of 1 (serve (CallDeleteGroup 1 1) team) = [] ∧
  DeleteGroup 1 2 team
    = (Some (errors_New "only admins can delete group"),
       serve (CallDeleteGroup 1 2) team) ∧
  tables (serve (CallDeleteGroup 1 2) team) = tables team.
Proof.
  assert (DeleteGroup 1 1 team = (None, serve (CallDeleteGroup 1 1) team))
    as Hrun by (vm_compute; reflexivity).
  assert (DeleteGroup 1 2 team
          = (Some (errors_New "only admins can delete group"),
             serve (CallDeleteGroup 1 2) team))
    as Hrun2 by (vm_compute; reflexivity).
  destruct (DeleteGroup_removes_the_whole_group 1 1 team None _ Hrun)
    as (_ & _ & Hok & _).
  destruct (Hok eq_refl) as (Hadmin & Hgone & _).
  destruct (DeleteGroup_removes_the_whole_group 1 2 team _ _ Hrun2)
    as (_ & Hsame & _).
  split_and!; [done|done|done|done|by apply Hsame].
Defined.

Lemma sound_same (db db' : DB) :
  tables db' = tables db → groups_id_seq db ≤ groups_id_seq db' →
  sound db → sound db'.
Proof.
  intros Ht Hseq [H1 H2 H3 H4 H5 H6].
  split; rewrite ?Ht; try done.
  intros g Hg. specialize (H3 g Hg). lia.
Qed.

Lemma sound_NewDB (failing : list bool) : sound (NewDB failing).
Proof.
  split; cbn; try (by intros ? ?%not_elem_of_nil).
  - apply NoDup_nil_2.
  - by intros ? ? ?%not_elem_of_nil.
Qed.

Lemma sound_AddMember (groupID userID newMemberID : N) (db : DB) :
  sound db → sound (AddMember groupID userID newMemberID db).2.
Proof.
  intros Hs.
  destruct (AddMember groupID userID newMemberID db) as [err db'] eqn:Hrun.
  apply AddMember_inv in Hrun as [Hseq Hinv]. cbn [snd].
  destruct err as [e|]; [apply (sound_same db); [done|lia|done]|].
  destruct Hinv as (Ht & Hadmin & _). destruct Hs as [H1 H2 H3 H4 H5 H6].
  split; rewrite ?Ht, ?Hseq; cbn [groups group_members chats]; try done.
  - intros m [Hm|Hm]%elem_of_app; [by apply H1|].
    apply list_elem_of_singleton in Hm as ->. by right.
  - intros m [Hm|Hm]%elem_of_app; [by apply H2|].
    apply list_elem_of_singleton in Hm as ->. by apply (H2 _ Hadmin).
Qed.

Lemma sound_RemoveMember (groupID userID memberToRemoveID : N) (db : DB) :
  sound db → sound (RemoveMember groupID userID memberToRemoveID db).2.
Proof.
  intros Hs.
  destruct (RemoveMember groupID userID memberToRemoveID db) as [err db']
    eqn:Hrun.
  apply RemoveMember_inv in Hrun as [Hseq Hinv]. cbn [snd].
  destruct err as [e|]; [apply (sound_same db); [done|lia|done]|].
  destruct Hinv as (Ht & _). destruct Hs as [H1 H2 H3 H4 H5 H6].
  split; rewrite ?Ht, ?Hseq; cbn [groups group_members chats]; try done.
  - intros m [_ Hm]%list_elem_of_filter. by apply H1.
  - intros m [_ Hm]%list_elem_of_filter. by apply H2.
Qed.

Lemma sound_UpdateMemberRole (groupID userID memberID : N) (newRole : string)
    (db : DB) :
  sound db → sound (UpdateMemberRole groupID userID memberID newRole db).2.
Proof.
  intros Hs.
  destruct (UpdateMemberRole groupID userID memberID newRole db)
    as [err db'] eqn:Hrun.
  apply UpdateMemberRole_inv in Hrun as [Hseq Hinv]. cbn [snd].
  destruct err as [e|]; [apply (sound_same db); [done|lia|done]|].
  destruct Hinv as (Hrole & _ & Ht). destruct Hs as [H1 H2 H3 H4 H5 H6].
  split; rewrite ?Ht, ?Hseq; cbn [groups group_members chats]; try done.
  - intros m (m0 & -> & Hm)%list_elem_of_fmap. case_decide; [done|].
    by apply H1.
  - intros m (m0 & -> & Hm)%list_elem_of_fmap.
    destruct (H2 m0 Hm) as (g & Hg & Hid). exists g. split; [done|].
    by case_decide.
Qed.

Lemma sound_DeleteGroup (groupID userID : N) (db : DB) :
  sound db → sound (DeleteGroup groupID userID db).2.
Proof.
  intros Hs.
  destruct (DeleteGroup groupID userID db) as [err db'] eqn:Hrun.
  apply DeleteGroup_inv in Hrun as (Hseq & _ & Hinv). cbn [snd].
  destruct err as [e|]; [apply (sound_same db); [done|lia|done]|].
  destruct Hinv as (_ & Ht). destruct Hs as [H1 H2 H3 H4 H5 H6].
  split; rewrite ?Ht, ?Hseq; cbn [groups group_members chats].
  - intros m [_ Hm]%list_elem_of_filter. by apply H1.
  - intros m [Hne Hm]%list_elem_of_filter.
    destruct (H2 m Hm) as (g & Hg & Hid). exists g. split; [|done].
    apply list_elem_of_filter. split; [congruence|done].
  - intros g [_ Hg]%list_elem_of_filter. by apply H3.
  - by apply NoDup_fmap_filter.
  - intros c id [Hne Hc]%list_elem_of_filter Hid.
    destruct (H5 c id Hc Hid) as (Htype & g & Hg & Hgid).
    split; [done|]. exists g. split; [|done].
    apply list_elem_of_filter. split; [congruence|done].
  - intros g [Hne Hg]%list_elem_of_filter.
    rewrite list_filter_filter. rewrite <- (H6 g Hg). f_equal.
    apply list_filter_iff. intros c. split; [tauto|].
    intros Hc. split; [done|congruence].
Qed.

Lemma sound_CreateGroup (name description icon : string) (createdByID : N)
    (memberIDs : list N) (db : DB) :
  sound db →
  sound (CreateGroup name description icon createdByID memberIDs db).2.
Proof.
  intros Hs.
  destruct (CreateGroup name description icon createdByID memberIDs db)
    as [res db'] eqn:Hrun.
  apply CreateGroup_inv in Hrun. cbn [snd].
  destruct res as [[group|] [e|]]; try done.
  2:{ destruct Hrun as [Ht Hseq].
      apply (sound_same db); [done|lia|done]. }
  destruct Hrun as (_ & -> & Hseq & Ht). destruct Hs as [H1 H2 H3 H4 H5 H6].
  assert (∀ g, g ∈ groups (tables db) → Group_ID g ≠ groups_id_seq db + 1)
    as Hfresh.
  { intros g Hg. specialize (H3 g Hg). lia. }
  split; rewrite ?Ht, ?Hseq; cbn [groups group_members chats].
  - intros m [Hm|Hm]%elem_of_app; [by apply H1|].
    apply elem_of_cons in Hm as [->|Hm]; [by left|].
    apply list_elem_of_fmap in Hm as (u & -> & _). by right.
  - intros m [Hm|Hm]%elem_of_app.
    + destruct (H2 m Hm) as (g & Hg & Hid). exists g. split; [|done].
      apply elem_of_app. by left.
    + eexists. split; [apply elem_of_app; right; apply list_elem_of_here|].
      cbn [Group_ID].
      apply elem_of_cons in Hm as [->|Hm]; [done|].
      by apply list_elem_of_fmap in Hm as (u & -> & _).
  - intros g [Hg|Hg]%elem_of_app.
    + specialize (H3 g Hg). lia.
    + apply list_elem_of_singleton in Hg as ->. cbn [Group_ID]. lia.
  - rewrite fmap_app. apply NoDup_app. split_and!; [done| |].
    + intros id (g & -> & Hg)%list_elem_of_fmap Hin. cbn in Hin.
      apply list_elem_of_singleton in Hin. by apply (Hfresh g Hg).
    + cbn. apply NoDup_singleton.
  - intros c id [Hc|Hc]%elem_of_app Hid.
    + destruct (H5 c id Hc Hid) as (Htype & g & Hg & Hgid).
      split; [done|]. exists g. split; [|done]. apply elem_of_app. by left.
    + apply list_elem_of_singleton in Hc as ->. cbn in Hid.
      injection Hid as <-. split; [done|].
      eexists. split; [apply elem_of_app; right; apply list_elem_of_here|].
      done.
  - intros g [Hg|Hg]%elem_of_app.
    + rewrite filter_app, length_app, (H6 g Hg).
      rewrite filter_cons_False, filter_nil; [done|].
      cbn [Chat_GroupID]. intros [= Heq]. by apply (Hfresh g Hg).
    + apply list_elem_of_singleton in Hg as ->. cbn [Group_ID].
      rewrite filter_app, length_app.
      rewrite filter_cons_True, filter_nil by done.
      assert (filter (λ c, Chat_GroupID c = Some (groups_id_seq db + 1))
                     (chats (tables db)) = []) as ->; [|done].
      apply filter_nil_iff. intros c Hc Hid.
      destruct (H5 c _ Hc Hid) as (_ & g & Hg & Hgid).
      by apply (Hfresh g Hg).
Qed.

(** X20.  Whatever calls of the group service have been made on a database
    that started empty, and whatever statements the server has failed, the
    tables are sound: every member row has the role admin or member and
    belongs to a group that exists; the keys of the groups are distinct and
    come from the sequence; every chat that names a group is of type group
    and names a group that exists; and every group has exactly one chat. *)
Theorem group_tables_stay_sound (db : DB) :
  served db →
  (∀ m, m ∈ group_members (tables db) →
        (Role m = "admin" ∨ Role m = "member")%string ∧
        ∃ g, g ∈ groups (tables db) ∧ Group_ID g = GroupID m) ∧
  NoDup (Group_ID <$> groups (tables db)) ∧
  (∀ g, g ∈ groups (tables db) →
        1 ≤ Group_ID g ≤ groups_id_seq db ∧
        length (filter (λ c, Chat_GroupID c = Some (Group_ID g))
                       (chats (tables db))) = 1%nat) ∧
  (∀ c id, c ∈ chats (tables db) → Chat_GroupID c = Some id →
           Chat_Type c = "group"%string ∧
           ∃ g, g ∈ groups (tables db) ∧ Group_ID g = id).
Proof.
  intros Hserved.
  assert (sound db) as [H1 H2 H3 H4 H5 H6].
  { induction Hserved as [failing|c db _ IH]; [apply sound_NewDB|].
    destruct c; cbn [serve].
    - by apply sound_CreateGroup.
    - by apply sound_DeleteGroup.
    - by apply sound_AddMember.
    - by apply sound_RemoveMember.
    - by apply sound_UpdateMemberRole. }
  split_and!; [|done| |done].
  - intros m Hm. split; [by apply H1|by apply H2].
  - intros g Hg. split; [by apply H3|by apply H6].
Qed.

Lemma group_tables_stay_sound_witness :
  served team ∧
  NoDup (Group_ID <$> groups (tables team)) ∧
  ∀ m, m ∈ group_members (tables team) →
       (Role m = "admin" ∨ Role m = "member")%string ∧
       ∃ g, g ∈ groups (tables team) ∧ Group_ID g = GroupID m.
Proof.
  assert (served team) as Hserved by (apply served_call, served_init).
  destruct (group_tables_stay_sound team Hserved) as (Hrows & Hkeys & _).
  split_and!; done.
Defined.
